(** * Hierarchical configuration parser and differ of [nxos_acl.py]

    A shallow embedding of the "common code" block of
    [lib/ansible/modules/network/nxos/nxos_acl.py]: the [ConfigLine] node,
    the indentation parser [parse] and the [CustomNetworkConfig] container
    with its navigation, [difference], [replace] and [add] operations.

    Python objects are shared and mutable, so [ConfigLine] objects live in
    an explicit store ([heap]); an object is named by its position in the
    store and the lists [parents], [children] and [_config] hold such
    names.  Exceptions are values of [result]. *)

From Stdlib Require Import String Ascii List ZArith Lia Bool.
From stdpp Require Import base list strings gmap.
Import ListNotations.
Open Scope string_scope.
Open Scope list_scope.

(** ** Exceptions *)

Inductive exn : Type :=
| ValueError (msg : string)
| IndexError
| ZeroDivisionError
| ReError.

Inductive result (A : Type) : Type :=
| Ok (a : A)
| Raise (e : exn).
Arguments Ok {A} a.
Arguments Raise {A} e.

Definition bind {A B : Type} (r : result A) (k : A -> result B) : result B :=
  match r with
  | Ok a => k a
  | Raise e => Raise e
  end.

Notation "'let*' x ':=' r 'in' k" := (bind r (fun x => k))
  (at level 10, x name, r at level 100, k at level 200).

(** ** Python string primitives used by the module *)

Module PyStr.

(** Characters removed by [str.strip()] and matched by [\s]:
    space, [\t], [\n], [\v], [\f], [\r]. *)
Definition is_space (c : ascii) : bool :=
  let n := nat_of_ascii c in
  (n =? 32)%nat || ((9 <=? n)%nat && (n <=? 13)%nat).

Fixpoint lstrip (s : string) : string :=
  match s with
  | String c r => if is_space c then lstrip r else s
  | EmptyString => EmptyString
  end.

(** [rstrip] keeps a character when something other than white space
    follows it. *)
Fixpoint rstrip (s : string) : string :=
  match s with
  | EmptyString => EmptyString
  | String c r =>
      match rstrip r with
      | EmptyString => if is_space c then EmptyString else String c EmptyString
      | r' => String c r'
      end
  end.

Definition strip (s : string) : string := rstrip (lstrip s).

(** [s.split('\n')] *)
Fixpoint split_nl (s : string) : list string :=
  match s with
  | EmptyString => [EmptyString]
  | String c r =>
      if (nat_of_ascii c =? 10)%nat then EmptyString :: split_nl r
      else match split_nl r with
           | x :: xs => String c x :: xs
           | [] => [String c EmptyString]
           end
  end.

(** [re.sub(r'([{};])', '', line)] *)
Fixpoint sub_braces (s : string) : string :=
  match s with
  | EmptyString => EmptyString
  | String c r =>
      let n := nat_of_ascii c in
      if (n =? 123)%nat || (n =? 125)%nat || (n =? 59)%nat
      then sub_braces r else String c (sub_braces r)
  end.

Definition startswith (s p : string) : bool := String.prefix p s.

Fixpoint spaces (n : nat) : string :=
  match n with
  | O => EmptyString
  | S n' => String " "%char (spaces n')
  end.

(** [s.rjust(w)]: pad on the left with spaces up to width [w]. *)
Definition rjust (s : string) (w : nat) : string :=
  String.append (spaces (w - String.length s)) s.

(** Number of leading white space characters, which is
    [match.start(1)] for [^\s*(.+)$] and
    [len(s) - len(s.lstrip())]. *)
Fixpoint leading_ws (s : string) : nat :=
  match s with
  | String c r => if is_space c then S (leading_ws r) else O
  | EmptyString => O
  end.

(** [' '.join(l)] and ['\n'.join(l)] *)
Fixpoint join (sep : string) (l : list string) : string :=
  match l with
  | [] => EmptyString
  | [x] => x
  | x :: xs => String.append x (String.append sep (join sep xs))
  end.

Definition nl : string := String (ascii_of_nat 10) EmptyString.

(** [s[-1]] and [s[:-1]] on a non-empty string. *)
Fixpoint last_char (s : string) : option string :=
  match s with
  | EmptyString => None
  | String c EmptyString => Some (String c EmptyString)
  | String _ r => last_char r
  end.

End PyStr.

(** Python indexing [l[i]] with a possibly negative index. *)
Definition py_index {A : Type} (l : list A) (i : Z) : option A :=
  if (i <? 0)%Z
  then (if (Z.of_nat (length l) + i <? 0)%Z then None
        else l !! Z.to_nat (Z.of_nat (length l) + i))
  else l !! Z.to_nat i.

(** ** ConfigLine objects and the store *)

Record ConfigLine : Type := mkConfigLine {
  text : string;
  raw : string;
  parents : list nat;
  children : list nat
}.

Abbreviation heap := (list ConfigLine).

Definition set_children (c : ConfigLine) (l : list nat) : ConfigLine :=
  mkConfigLine (text c) (raw c) (parents c) l.

(** [obj.children.append(c)] on the object named [o]. *)
Definition append_child (h : heap) (o c : nat) : heap :=
  match h !! o with
  | Some n => <[o := set_children n (children n ++ [c])]> h
  | None => h
  end.

Definition texts_of (h : heap) (l : list nat) : list string :=
  omap (fun i => text <$> h !! i) l.

Definition raws_of (h : heap) (l : list nat) : list string :=
  omap (fun i => raw <$> h !! i) l.

Definition DEFAULT_COMMENT_TOKENS : list string := ["#"; "!"].

(** [ignore_line]: [tokens or DEFAULT_COMMENT_TOKENS], so an empty list
    also selects the defaults. *)
Definition ignore_line (txt : string) (tokens : list string) : bool :=
  existsb (PyStr.startswith txt)
    (match tokens with [] => DEFAULT_COMMENT_TOKENS | _ => tokens end).

(** ** The parser *)

Record pstate : Type := mkPstate {
  p_heap : heap;
  ancestors : list nat;
  config : list nat
}.

(** [toplevel.match(line)] with [toplevel = re.compile(r'\S')]. *)
Definition toplevel_match (line : string) : bool :=
  match line with
  | String c _ => negb (PyStr.is_space c)
  | EmptyString => false
  end.

(** One iteration of the [for line in ...] loop of [parse]. *)
Definition parse_line (indent : nat) (tokens : list string)
    (st : pstate) (line : string) : result pstate :=
  let txt := PyStr.strip (PyStr.sub_braces line) in
  if String.eqb txt "" || ignore_line txt tokens then Ok st
  else
    let cfg := length (p_heap st) in
    if toplevel_match line then
      Ok (mkPstate (p_heap st ++ [mkConfigLine txt line [] []])
                   [cfg] (config st ++ [cfg]))
    else
      match indent with
      | O => Raise ZeroDivisionError
      | _ =>
          let line_indent := PyStr.leading_ws line in
          let level := (line_indent / indent)%nat in
          let parent_level := (Z.of_nat level - 1)%Z in
          let node := mkConfigLine txt line (take level (ancestors st)) [] in
          let h1 := p_heap st ++ [node] in
          if (length (ancestors st) <? level)%nat then
            Ok (mkPstate h1 (ancestors st) (config st ++ [cfg]))
          else
            let anc := take level (ancestors st) ++ [cfg] in
            match py_index anc parent_level with
            | None => Raise IndexError
            | Some p =>
                Ok (mkPstate (append_child h1 p cfg) anc (config st ++ [cfg]))
            end
      end.

Fixpoint parse_lines (indent : nat) (tokens : list string)
    (st : pstate) (ls : list string) : result pstate :=
  match ls with
  | [] => Ok st
  | l :: rest =>
      let* st' := parse_line indent tokens st l in
      parse_lines indent tokens st' rest
  end.

(** [parse(lines, indent, comment_tokens)], allocating its objects in the
    store [h]; the result is the new store and the list [config]. *)
Definition parse (h : heap) (lines : string) (indent : nat)
    (tokens : list string) : result (heap * list nat) :=
  let* st := parse_lines indent tokens (mkPstate h [] []) (PyStr.split_nl lines) in
  Ok (p_heap st, config st).

(** ** ConfigLine.__eq__

    [__eq__] compares the texts and then the two [parents] lists, whose
    elements are compared by identity first and by [__eq__] otherwise
    (Python's list comparison).  The recursion follows parent links, which
    always lead to objects created earlier, so its depth is below the size
    of the store; [ConfigLine_eq] runs it with that much fuel
    ([ConfigLine_eq_fuel_chain] for the stores built by [parse]). *)

Fixpoint py_list_eq {A : Type} (f : A -> A -> bool) (l1 l2 : list A) : bool :=
  match l1, l2 with
  | [], [] => true
  | x :: xs, y :: ys => f x y && py_list_eq f xs ys
  | _, _ => false
  end.

Fixpoint ConfigLine_eq_fuel (n : nat) (h : heap) (a b : ConfigLine) : bool :=
  match n with
  | O => false
  | S n' =>
      if String.eqb (text a) (text b) then
        py_list_eq
          (fun x y =>
             Nat.eqb x y ||
             match h !! x, h !! y with
             | Some ox, Some oy => ConfigLine_eq_fuel n' h ox oy
             | _, _ => false
             end)
          (parents a) (parents b)
      else false
  end.

Definition ConfigLine_eq (h : heap) (a b : ConfigLine) : bool :=
  ConfigLine_eq_fuel (S (length h)) h a b.

(** [a == b] and [a != b] on two objects of the store. *)
Definition obj_eq (h : heap) (x y : nat) : bool :=
  match h !! x, h !! y with
  | Some ox, Some oy => ConfigLine_eq h ox oy
  | _, _ => false
  end.

Definition obj_ne (h : heap) (x y : nat) : bool := negb (obj_eq h x y).

(** [x in l] for an object [x] of the store. *)
Definition obj_in (h : heap) (x : nat) (l : list nat) : bool :=
  existsb (fun y => Nat.eqb x y || obj_eq h x y) l.

(** [item in l] for an object [item] that has just been built and is not
    yet referenced from anywhere. *)
Definition fresh_in (h : heap) (item : ConfigLine) (l : list nat) : bool :=
  existsb (fun y => match h !! y with
                    | Some oy => ConfigLine_eq h item oy
                    | None => false
                    end) l.

(** ** CustomNetworkConfig *)

Record CustomNetworkConfig : Type := mkConfig {
  indent : nat;
  _config : list nat;
  _device_os : option string
}.

Definition items (c : CustomNetworkConfig) : list nat := _config c.

Definition is_junos (c : CustomNetworkConfig) : bool :=
  match _device_os c with
  | Some os => String.eqb os "junos"
  | None => false
  end.

(** [load] *)
Definition load (h : heap) (c : CustomNetworkConfig) (contents : string)
  : result (heap * CustomNetworkConfig) :=
  let* r := parse h contents (indent c) [] in
  Ok (fst r, mkConfig (indent c) (snd r) (_device_os c)).

(** [__init__]: [indent or 1], and [load] when [contents] is given and
    not empty. *)
Definition init (h : heap) (ind : option nat) (contents : option string)
    (device_os : option string) : result (heap * CustomNetworkConfig) :=
  let c := mkConfig (match ind with Some (S n) => S n | _ => 1 end) [] device_os in
  match contents with
  | None | Some EmptyString => Ok (h, c)
  | Some s => load h c s
  end.

(** A path argument is either a bare string or a list of strings. *)
Inductive pypath : Type :=
| PStr (s : string)
| PList (l : list string).

(** [path[-1]]; [None] stands for [IndexError]. *)
Definition path_last (p : pypath) : option string :=
  match p with
  | PStr s => PyStr.last_char s
  | PList l => last l
  end.

(** [parents == path[:-1]] where [parents] is a list of strings: a list
    never equals a string. *)
Definition path_init_eq (ps : list string) (p : pypath) : bool :=
  match p with
  | PStr _ => false
  | PList l => bool_decide (ps = removelast l)
  end.

(** The loop shared by [get] and [get_object]. *)
Fixpoint get_object_loop (h : heap) (path : pypath) (l : list nat)
  : result (option nat) :=
  match l with
  | [] => Ok None
  | i :: rest =>
      match h !! i with
      | None => get_object_loop h path rest
      | Some item =>
          match path_last path with
          | None => Raise IndexError
          | Some lp =>
              if String.eqb (text item) lp
                 && path_init_eq (texts_of h (parents item)) path
              then Ok (Some i)
              else get_object_loop h path rest
          end
      end
  end.

Definition get_object (h : heap) (c : CustomNetworkConfig) (path : pypath)
  : result (option nat) :=
  get_object_loop h path (items c).

(** [get]: [if isinstance(path, basestring): path = [path]], then the
    same loop. *)
Definition get (h : heap) (c : CustomNetworkConfig) (path : pypath)
  : result (option nat) :=
  let path := match path with PStr s => PList [s] | PList _ => path end in
  get_object_loop h path (_config c).

Definition get_children (h : heap) (c : CustomNetworkConfig) (path : pypath)
  : result (option (list nat)) :=
  let* obj := get_object h c path in
  Ok (match obj with
      | Some o => children <$> h !! o
      | None => None
      end).

(** [expand_section]: the list [S] is threaded through the recursion.
    Every nested call is on an object that is not yet in [S], so the
    nesting never exceeds the number of objects; [expand_section] runs with
    that much fuel, and more fuel changes nothing
    ([expand_section_fuel_enough]). *)
Fixpoint expand_section_fuel (n : nat) (h : heap) (configobj : nat)
    (S0 : list nat) : list nat :=
  let S1 := S0 ++ [configobj] in
  match n with
  | O => S1
  | S n' =>
      fold_left
        (fun acc child =>
           if obj_in h child acc then acc
           else expand_section_fuel n' h child acc)
        (match h !! configobj with Some o => children o | None => [] end)
        S1
  end.

Definition expand_section (h : heap) (configobj : nat) : list nat :=
  expand_section_fuel (length h) h configobj [].

(** [if not isinstance(path, list): path = [path]] *)
Definition as_list_path (path : pypath) : pypath :=
  match path with
  | PStr s => PList [s]
  | PList _ => path
  end.

(** [get_section_objects] *)
Definition get_section_objects (h : heap) (c : CustomNetworkConfig)
    (path : pypath) : result (list nat) :=
  let* obj := get_object h c (as_list_path path) in
  match obj with
  | None => Raise (ValueError "path does not exist in config")
  | Some o => Ok (expand_section h o)
  end.

(** The [line] property of a node and [to_lines]. *)
Definition line_of (h : heap) (o : ConfigLine) : string :=
  PyStr.join " " ("set" :: texts_of h (parents o) ++ [text o]).

Definition to_lines (h : heap) (section : list nat) : list string :=
  omap (fun i => line_of h <$> h !! i) (tail section).

Definition to_block (h : heap) (section : list nat) : string :=
  PyStr.join PyStr.nl (raws_of h section).

(** What [get_section] returns: a list of lines or one block of text. *)
Inductive section_out : Type :=
| SLines (l : list string)
| SBlock (s : string).

(** [get_section]: a [ValueError] is caught and replaced by [list()]. *)
Definition get_section (h : heap) (c : CustomNetworkConfig) (path : pypath)
  : result section_out :=
  match get_section_objects h c path with
  | Ok section =>
      if is_junos c then Ok (SLines (to_lines h section))
      else Ok (SBlock (to_block h section))
  | Raise (ValueError _) => Ok (SLines [])
  | Raise e => Raise e
  end.

Set Warnings "-register-all".

(** ** Ordered dictionaries of [expand] and [flatten]

    [diffs] is a [collections.OrderedDict] whose values are again ordered
    dictionaries; keys keep their insertion order. *)

Inductive odict : Type :=
| OD (l : list (string * odict)).

(** Go to key [k], creating it with an empty dictionary at the end when it
    is missing, and run [f] on the dictionary found there. *)
Fixpoint od_update (k : string) (f : odict -> odict)
    (l : list (string * odict)) : list (string * odict) :=
  match l with
  | [] => [(k, f (OD []))]
  | (k', v) :: r =>
      if String.eqb k' k then (k', f v) :: r
      else (k', v) :: od_update k f r
  end.

Definition od_add_key (d : odict) (k : string) : odict :=
  match d with OD l => OD (od_update k (fun v => v) l) end.

Fixpoint expand_block (block kids : list string) (d : odict) : odict :=
  match block with
  | [] => fold_left od_add_key kids d
  | b :: bs =>
      match d with OD l => OD (od_update b (expand_block bs kids) l) end
  end.

(** [expand(obj, items)] *)
Definition expand (h : heap) (obj : nat) (diffs : odict) : odict :=
  match h !! obj with
  | Some o =>
      expand_block (raws_of h (parents o) ++ [raw o])
                   (raws_of h (children o)) diffs
  | None => diffs
  end.

(** [flatten(data)] *)
Fixpoint flatten (data : odict) : list string :=
  match data with
  | OD l =>
      (fix go (l : list (string * odict)) : list string :=
         match l with
         | [] => []
         | (k, v) :: r => k :: flatten v ++ go r
         end) l
  end.

(** ** difference *)

(** [if path:] holds for a non-empty string or list. *)
Definition path_true (path : option pypath) : option pypath :=
  match path with
  | Some (PStr EmptyString) | Some (PList []) | None => None
  | Some p => Some p
  end.

(** [c.get_children(path) or list()] when [path] is true, the whole node
    list otherwise. *)
Definition children_or_items (h : heap) (c : CustomNetworkConfig)
    (path : option pypath) : result (list nat) :=
  match path_true path with
  | Some p =>
      let* r := get_children h c p in
      Ok (match r with Some l => l | None => [] end)
  | None => Ok (items c)
  end.

Definition match_line (h : heap) (config other_items : list nat) : list nat :=
  List.filter (fun item => negb (obj_in h item other_items)) config.

(** [for index, item in enumerate(config)] of the strict policy; [current]
    is consumed in step, an exhausted [current] is the [IndexError]. *)
Fixpoint match_strict (h : heap) (config current : list nat) : list nat :=
  match config with
  | [] => []
  | item :: rest =>
      match current with
      | [] => item :: match_strict h rest []
      | cur :: current' =>
          if obj_ne h item cur then item :: match_strict h rest current'
          else match_strict h rest current'
      end
  end.

(** [itertools.izip(config, current)] and the test of the exact policy. *)
Fixpoint izip_differs (h : heap) (config current : list nat) : bool :=
  match config, current with
  | ours :: c1, theirs :: c2 => obj_ne h ours theirs || izip_differs h c1 c2
  | _, _ => false
  end.

Definition match_exact (h : heap) (config current : list nat) : list nat :=
  if negb (Nat.eqb (length current) (length config)) then config
  else if izip_differs h config current then config
  else [].

(** What [difference] returns: the update objects for junos, the flattened
    raw lines otherwise. *)
Inductive diff_out : Type :=
| DObjs (l : list nat)
| DLines (l : list string).

Definition block_target (h : heap) (replace : string) (update : nat) : nat :=
  if String.eqb replace "block" then
    match h !! update with
    | Some o => match last (parents o) with Some p => p | None => update end
    | None => update
    end
  else update.

Definition difference (h : heap) (self other : CustomNetworkConfig)
    (path : option pypath) (match_ replace : string) : result diff_out :=
  let* config := children_or_items h self path in
  let* updates :=
    if String.eqb match_ "line" then
      Ok (match_line h config (items other))
    else if String.eqb match_ "strict" then
      let* current := children_or_items h other path in
      Ok (match_strict h config current)
    else if String.eqb match_ "exact" then
      let* current := children_or_items h other path in
      Ok (match_exact h config current)
    else Ok [] in
  if is_junos self then Ok (DObjs updates)
  else
    Ok (DLines (flatten
      (fold_left (fun diffs update => expand h (block_target h replace update) diffs)
                 updates (OD [])))).

(** ** add *)

Inductive pyarg : Type :=
| ANone
| AStr (s : string)
| AList (l : list string).

Definition to_list (val : pyarg) : list string :=
  match val with
  | AList l => l
  | AStr s => [s]
  | ANone => []
  end.

(** Body of [for line in to_list(lines)] when no parents are given. *)
Definition add_global (st : heap * CustomNetworkConfig) (line : string)
  : heap * CustomNetworkConfig :=
  let '(h, c) := st in
  let item := mkConfigLine line line [] [] in
  if negb (fresh_in h item (items c)) then
    (h ++ [item], mkConfig (indent c) (items c ++ [length h]) (_device_os c))
  else st.

(** Body of [for index, p in enumerate(parents)]; the state also carries
    the list [ancestors]. *)
Definition add_parent (parents : list string) (index : nat) (p : string)
    (st : heap * CustomNetworkConfig * list nat)
  : result (heap * CustomNetworkConfig * list nat) :=
  let '(h, c, ancestors) := st in
  let i := (index + 1)%nat in
  match get_section_objects h c (PList (take i parents)) with
  | Ok section =>
      match section with
      | obj :: _ => Ok (h, c, ancestors ++ [obj])
      | [] => Raise IndexError
      end
  | Raise (ValueError _) =>
      let offset := (index * indent c)%nat in
      let o := length h in
      let obj :=
        mkConfigLine p (PyStr.rjust p (String.length p + offset))
                     (match ancestors with [] => [] | _ => ancestors end) [] in
      let h1 := h ++ [obj] in
      let h2 := match last ancestors with
                | Some a => append_child h1 a o
                | None => h1
                end in
      Ok (h2, mkConfig (indent c) (items c ++ [o]) (_device_os c),
          ancestors ++ [o])
  | Raise e => Raise e
  end.

(** The loop itself: [todo] is what is left of [parents] from position
    [index] on. *)
Fixpoint add_parents (parents : list string) (index : nat)
    (todo : list string) (st : heap * CustomNetworkConfig * list nat)
  : result (heap * CustomNetworkConfig * list nat) :=
  match todo with
  | [] => Ok st
  | p :: todo' =>
      let* st' := add_parent parents index p st in
      add_parents parents (S index) todo' st'
  end.

(** Body of [for line in to_list(lines)] under the parents [ancestors]. *)
Definition add_child (nparents : nat) (ancestors : list nat)
    (st : result (heap * CustomNetworkConfig)) (line : string)
  : result (heap * CustomNetworkConfig) :=
  let* s := st in
  let '(h, c) := s in
  match last ancestors with
  | None => Raise IndexError
  | Some a =>
      let kids := match h !! a with Some o => children o | None => [] end in
      if existsb (fun t => String.eqb t line) (texts_of h kids) then Ok (h, c)
      else
        let offset := (nparents * indent c)%nat in
        let i := length h in
        let item :=
          mkConfigLine line (PyStr.rjust line (String.length line + offset))
                       ancestors [] in
        Ok (append_child (h ++ [item]) a i,
            mkConfig (indent c) (items c ++ [i]) (_device_os c))
  end.

Definition add (h : heap) (c : CustomNetworkConfig) (lines : pyarg)
    (parents : list string) : result (heap * CustomNetworkConfig) :=
  match parents with
  | [] => Ok (fold_left add_global (to_list lines) (h, c))
  | _ =>
      let* s := add_parents parents 0 parents (h, c, []) in
      let '(h1, c1, ancestors) := s in
      fold_left (add_child (length parents) ancestors) (to_list lines)
                (Ok (h1, c1))
  end.

(** ** replace

    Python's [re] module is not part of the repository: compiled patterns
    are an abstract type, [re_compile r] stands for [re.compile(r, re.I)]
    ([None] when it raises [re.error]) and [re_search p s] tells whether
    [p.search(s)] finds a match. *)

Section Replace.

Variable regex : Type.
Variable re_compile : string -> option regex.
Variable re_search : regex -> string -> bool.

(** [not regex] *)
Definition py_not (a : pyarg) : bool :=
  match a with
  | ANone | AStr EmptyString | AList [] => true
  | _ => false
  end.

(** ['%s' % text] *)
Definition py_str (t : option string) : string :=
  match t with
  | Some s => s
  | None => "None"
  end.

Fixpoint compile_all (rs : list string) : result (list regex) :=
  match rs with
  | [] => Ok []
  | r :: rest =>
      match re_compile r with
      | None => Raise ReError
      | Some p => let* ps := compile_all rest in Ok (p :: ps)
      end
  end.

(** [for regexp in patterns] for one [item]: [true] when the loop is left
    by [break], that is when [match = item] has been run.  The local
    [string] of the source is assigned and never read, so it has no
    counterpart here. *)
Fixpoint replace_patterns (h : heap) (replace : string)
    (pars : list string) (item : ConfigLine) (patterns : list regex)
  : bool :=
  match patterns with
  | [] => false
  | regexp :: rest =>
      if re_search regexp (text item)
         && negb (String.eqb (text item) replace)
         && bool_decide (pars = texts_of h (parents item))
      then true
      else replace_patterns h replace pars item rest
  end.

(** [for item in self.items]: [match_] is overwritten by every item
    that passes the tests. *)
Fixpoint replace_scan (h : heap) (replace : string) (pars : list string)
    (patterns : list regex) (l : list nat) (match_ : option nat)
  : option nat :=
  match l with
  | [] => match_
  | i :: rest =>
      let match_' :=
        match h !! i with
        | Some item =>
            if replace_patterns h replace pars item patterns
            then Some i else match_
        | None => match_
        end in
      replace_scan h replace pars patterns rest match_'
  end.

(** The sources of [patterns]: [regex], or [['^%s$' % text]] when
    [not regex]. *)
Definition pattern_sources (text_ : option string) (regex_ : pyarg)
  : list string :=
  to_list (if py_not regex_
           then AList [String.append "^" (String.append (py_str text_) "$")]
           else regex_).

(** The assignments to [match.text] and [match.raw]. *)
Definition rewrite_line (replace : string) (o : ConfigLine) : ConfigLine :=
  let ind := (String.length (raw o) - String.length (PyStr.lstrip (raw o)))%nat in
  mkConfigLine replace
               (PyStr.rjust replace (String.length replace + ind))
               (parents o) (children o).

Definition replace (h : heap) (c : CustomNetworkConfig) (replace : string)
    (text_ : option string) (regex_ : pyarg) (pars : list string)
    (add_if_missing ignore_whitespace : bool)
  : result (heap * CustomNetworkConfig) :=
  match text_, regex_ with
  | None, ANone => Raise (ValueError "missing required arguments")
  | _, _ =>
      let* patterns := compile_all (pattern_sources text_ regex_) in
      match replace_scan h replace pars patterns (items c) None with
      | Some m =>
          match h !! m with
          | Some o => Ok (<[m := rewrite_line replace o]> h, c)
          | None => Ok (h, c)
          end
      | None =>
          if add_if_missing then add h c (AStr replace) pars
          else Ok (h, c)
      end
  end.

End Replace.

(** A small instance of the pattern interface, used to run [replace] on
    examples: patterns [^w] and [^w$] where [w] is made of letters, digits,
    spaces and [/.-] taken literally ([.] only ever meets [.] in the
    examples), compared without regard to case. *)
Module LiteralRe.

Definition lower (c : ascii) : ascii :=
  let n := nat_of_ascii c in
  if (65 <=? n)%nat && (n <=? 90)%nat then ascii_of_nat (n + 32) else c.

Fixpoint lower_str (s : string) : string :=
  match s with
  | EmptyString => EmptyString
  | String c r => String (lower c) (lower_str r)
  end.

Definition plain (c : ascii) : bool :=
  let n := nat_of_ascii c in
  ((48 <=? n)%nat && (n <=? 57)%nat) || ((65 <=? n)%nat && (n <=? 90)%nat)
  || ((97 <=? n)%nat && (n <=? 122)%nat) || (n =? 32)%nat || (n =? 47)%nat
  || (n =? 45)%nat || (n =? 46)%nat.

Fixpoint all_plain (s : string) : bool :=
  match s with
  | EmptyString => true
  | String c r => plain c && all_plain r
  end.

(** A compiled pattern: the literal and whether it is closed by [$]. *)
Definition regex : Type := (string * bool)%type.

Fixpoint split_dollar (s : string) : string * bool :=
  match s with
  | EmptyString => (EmptyString, false)
  | String c EmptyString =>
      if (nat_of_ascii c =? 36)%nat then (EmptyString, true)
      else (String c EmptyString, false)
  | String c r => let '(w, d) := split_dollar r in (String c w, d)
  end.

Definition re_compile (r : string) : option regex :=
  match r with
  | String c body =>
      if (nat_of_ascii c =? 94)%nat then
        let '(w, d) := split_dollar body in
        if all_plain w then Some (lower_str w, d) else None
      else None
  | EmptyString => None
  end.

Definition re_search (p : regex) (s : string) : bool :=
  let '(w, d) := p in
  if d then String.eqb w (lower_str s)
  else String.prefix w (lower_str s).

End LiteralRe.

(** ** Example configurations *)

Definition acl_parent : string := "ip access-list ANSIBLE".
Definition acl_child : string := "10 permit tcp 1.1.1.1/24 any".

(** ["ip access-list ANSIBLE\n  10 permit tcp 1.1.1.1/24 any\n"] *)
Definition acl_text : string :=
  String.append acl_parent
    (String.append PyStr.nl
       (String.append "  10 permit tcp 1.1.1.1/24 any" PyStr.nl)).

Definition acl_heap : heap :=
  [ mkConfigLine acl_parent acl_parent [] [1];
    mkConfigLine acl_child "  10 permit tcp 1.1.1.1/24 any" [0] [] ].

(** ["ntp server 1\nntp server 2"] and its parse. *)
Definition ntp_text : string :=
  String.append "ntp server 1" (String.append PyStr.nl "ntp server 2").

Definition ntp_heap : heap :=
  [ mkConfigLine "ntp server 1" "ntp server 1" [] [];
    mkConfigLine "ntp server 2" "ntp server 2" [] [] ].

(** The parse of ["vlan 10 {"]. *)
Definition vlan_heap : heap :=
  [ mkConfigLine "vlan 10" "vlan 10 {" [] [] ].

(** ["a\n    b"]: the second line is indented by two levels. *)
Definition orphan_text : string :=
  String.append "a" (String.append PyStr.nl "    b").

(** ** No dangling references

    Every name held in [_config], in a [parents] list or in a [children]
    list denotes an object of the store. *)

Definition bounded (n : nat) (l : list nat) : bool :=
  forallb (fun i => (i <? n)%nat) l.

Definition closed (h : heap) (l : list nat) : bool :=
  bounded (length h) l
  && forallb (fun o => bounded (length h) (parents o)
                       && bounded (length h) (children o)) h.

(** ** Notions used in the statements *)

(** No [ValueError] escapes. *)
Definition not_value_error {A : Type} (r : result A) : Prop :=
  forall msg, r <> Raise (ValueError msg).

(** The result of [difference] is an empty list. *)
Definition diff_empty (r : diff_out) : bool :=
  match r with
  | DObjs [] | DLines [] => true
  | _ => false
  end.

(** [obj.children] for the object named [a]. *)
Definition children_of (h : heap) (a : nat) : list nat :=
  match h !! a with
  | Some o => children o
  | None => []
  end.

(** How many children of [a] have the text [line]; 0 when [a] is not in
    the store. *)
Definition copies_under (h : heap) (a : nat) (line : string) : nat :=
  length (List.filter (fun t => String.eqb t line)
                      (texts_of h (children_of h a))).

(** How many nodes of the tree are equal to a top-level [ConfigLine(line)]. *)
Definition copies_toplevel (h : heap) (c : CustomNetworkConfig)
    (line : string) : nat :=
  length (List.filter
            (fun y => match h !! y with
                      | Some oy => ConfigLine_eq h (mkConfigLine line line [] []) oy
                      | None => false
                      end)
            (items c)).

(** [h'] has every object of [h], with the same text and parents. *)
Definition extends (h h' : heap) : Prop :=
  length h <= length h'
  /\ forall i o, h !! i = Some o ->
       exists o', h' !! i = Some o' /\ text o' = text o /\ parents o' = parents o.

(** [closed] as a proposition on lookups. *)
Definition closedP (h : heap) (l : list nat) : Prop :=
  Forall (fun i => i < length h) l
  /\ forall i o, h !! i = Some o ->
       Forall (fun p => p < length h) (parents o)
       /\ Forall (fun k => k < length h) (children o).

(** The store after a parent has been made and hooked under the last
    ancestor. *)
Definition hook_parent (h : heap) (anc : list nat) (obj : ConfigLine) : heap :=
  match last anc with
  | Some a => append_child (h ++ [obj]) a (length h)
  | None => h ++ [obj]
  end.

(** What holds after [index] rounds of the loop over [parents] started
    from the store [h0]: the ancestors found or made so far are distinct
    objects carrying the texts of the first [index] parents, each of them
    is what [get_object] returns for its prefix of [parents], and only the
    ancestors before the last one have had their [children] touched. *)
Definition add_inv (parents : list string) (h0 : heap) (index : nat)
    (st : list ConfigLine * CustomNetworkConfig * list nat) : Prop :=
  let '(h, c, anc) := st in
  closedP h (items c)
  /\ extends h0 h
  /\ index <= length parents
  /\ length anc = index
  /\ Forall (fun a => a < length h) anc
  /\ texts_of h anc = take index parents
  /\ NoDup anc
  /\ (forall k a, anc !! k = Some a ->
        get_object h c (PList (take (S k) parents)) = Ok (Some a))
  /\ (forall x, ~ In x (removelast anc) -> children_of h x = children_of h0 x).

(** Every parent of a node is an older object, has its place in the
    parents list no later than its name, and has as its own parents the
    parents that come before it.  The parser builds such stores. *)
Definition chained (h : heap) : Prop :=
  forall i o, h !! i = Some o ->
    forall j q, parents o !! j = Some q ->
      j <= q /\ q < length h
      /\ exists oq, h !! q = Some oq /\ parents oq = take j (parents o).

(** The text of the object named [q]. *)
Definition text_at (h : heap) (q : nat) : string :=
  match h !! q with
  | Some o => text o
  | None => EmptyString
  end.

(** What the parser keeps between two lines: a store without dangling
    references whose nodes are chained, and an ancestor stack that is such
    a chain itself. *)
Definition parse_inv (st : pstate) : Prop :=
  closedP (p_heap st) (config st)
  /\ chained (p_heap st)
  /\ forall j q, ancestors st !! j = Some q ->
       j <= q /\ q < length (p_heap st)
       /\ exists oq, p_heap st !! q = Some oq
                     /\ parents oq = take j (ancestors st).

(** What is known of the list [S] during the traversal of
    [expand_section]: distinct names of the store. *)
Definition visited (h : heap) (S0 : list nat) : Prop :=
  NoDup S0 /\ Forall (fun q => q < length h) S0.

(** A line of input that gives a node: its normalized text is not empty
    and does not start with a comment token. *)
Definition kept (tokens : list string) (line : string) : bool :=
  negb (String.eqb (PyStr.strip (PyStr.sub_braces line)) ""
        || ignore_line (PyStr.strip (PyStr.sub_braces line)) tokens).

(** [h'] has every object of [h] with the same text, raw text and parents,
    and with a [children] list that has only been appended to. *)
Definition grows (h h' : heap) : Prop :=
  length h <= length h'
  /\ forall i o, h !! i = Some o ->
       exists o', h' !! i = Some o'
         /\ text o' = text o /\ raw o' = raw o /\ parents o' = parents o
         /\ exists more, children o' = children o ++ more.

(** [c'] is [c] with a node list that has only been appended to. *)
Definition same_settings (c c' : CustomNetworkConfig) : Prop :=
  (exists new, items c' = items c ++ new)
  /\ indent c' = indent c /\ _device_os c' = _device_os c.

(** The normalized text of a line of input. *)
Definition normalize (line : string) : string :=
  PyStr.strip (PyStr.sub_braces line).

(** No character of [s] is one of [{], [}] and [;]. *)
Fixpoint no_braces (s : string) : bool :=
  match s with
  | EmptyString => true
  | String c r =>
      let n := nat_of_ascii c in
      negb ((n =? 123)%nat || (n =? 125)%nat || (n =? 59)%nat) && no_braces r
  end.

(** The object [o] with every reference moved up by [d] places: what a
    second run of the parser, started on a store of [d] objects, builds
    where the first run built [o]. *)
Definition shift_node (d : nat) (o : ConfigLine) : ConfigLine :=
  mkConfigLine (text o) (raw o)
               (Nat.add d <$> parents o) (Nat.add d <$> children o).

(** The parser state [stB] of a run started on the store [h0] mirrors the
    state [stA] of a run started on the empty store. *)
Definition copy_of (h0 : heap) (stA stB : pstate) : Prop :=
  p_heap stB = h0 ++ (shift_node (length h0) <$> p_heap stA)
  /\ ancestors stB = (Nat.add (length h0) <$> ancestors stA)
  /\ config stB = (Nat.add (length h0) <$> config stA).

(** ** custom_get_config and load_config

    What the two functions use of the module object: the parameters they
    read, the check-mode flag and the answer of the device to
    [module.execute]; the calls made on the device are recorded in order.
    [module.configure] and [save_config] are calls whose answer is not
    used. *)

Record NetworkModule : Type := mkModule {
  param_running_config : option string;
  param_include_defaults : bool;
  param_transport : string;
  param_save_config : bool;
  check_mode : bool;
  execute : list string -> option string -> list string
}.

Inductive device_call : Type :=
| Execute (cmds : list string) (command_type : option string)
| Configure (cmds : list string)
| SaveConfig.

(** The command that fetches the running configuration. *)
Definition show_command (module : NetworkModule) : string :=
  String.append "show running-config"
    (if param_include_defaults module then " all" else "").

(** The [command_type] keyword passed to [module.execute]. *)
Definition show_command_type (module : NetworkModule) : option string :=
  if String.eqb (param_transport module) "nxapi" then Some "cli_show_ascii"
  else None.

(** [custom_get_config]: the running configuration is the parameter when
    it is given and not empty, the first answer of the device otherwise
    ([[0]] raises [IndexError] on an empty answer); it is parsed with
    indent 2. *)
Definition custom_get_config (h : heap) (module : NetworkModule)
  : result (heap * CustomNetworkConfig * list device_call) :=
  match param_running_config module with
  | Some (String a s) =>
      let* r := init h (Some 2) (Some (String a s)) None in
      Ok (r, [])
  | _ =>
      let cmd := show_command module in
      let ct := show_command_type module in
      match execute module [cmd] ct with
      | [] => Raise IndexError
      | cfg :: _ =>
          let* r := init h (Some 2) (Some cfg) None in
          Ok (r, [Execute [cmd] ct])
      end
  end.

(** The dict returned by [load_config]; [updates] is absent when nothing
    changes. *)
Record load_result : Type := mkLoadResult {
  changed : bool;
  updates : option (list string)
}.

(** [str(c)] for the elements of what [difference] returns. *)
Definition strs_of (h : heap) (out : diff_out) : list string :=
  match out with
  | DLines l => l
  | DObjs l => raws_of h l
  end.

(** [load_config] *)
Definition load_config (h : heap) (module : NetworkModule)
    (candidate : CustomNetworkConfig)
  : result (heap * load_result * list device_call) :=
  let* r := custom_get_config h module in
  let '(h1, cfg, calls) := r in
  let* out := difference h1 candidate cfg None "line" "line" in
  let commands := map PyStr.strip (strs_of h1 out) in
  match commands with
  | [] => Ok (h1, mkLoadResult false None, calls)
  | _ :: _ =>
      Ok (h1, mkLoadResult true (Some commands),
          calls ++ (if check_mode module then []
                    else Configure commands
                         :: (if param_save_config module then [SaveConfig]
                             else [])))
  end.

(** ** The command of an access-list entry

    [config_core_acl] and [config_acl_options] build the command from
    dicts whose values are strings.  [dict.get] gives [None] for a key
    that is missing, and adding [None] to a string, or joining a list
    that holds [None], raises [TypeError]; it is the only exception of
    these functions. *)

Inductive typed (A : Type) : Type :=
| Val (a : A)
| TypeError.
Arguments Val {A} a.
Arguments TypeError {A}.

Definition typed_bind {A B : Type} (r : typed A) (k : A -> typed B) : typed B :=
  match r with
  | Val a => k a
  | TypeError => TypeError
  end.

(** [a + b] on two values that are a string or [None]. *)
Definition py_add (a b : option string) : typed string :=
  match a, b with
  | Some x, Some y => Val (String.append x y)
  | _, _ => TypeError
  end.

(** [sep.join(l)] on a list of such values. *)
Fixpoint join_values (sep : string) (l : list (option string))
  : typed (list string) :=
  match l with
  | [] => Val []
  | Some x :: rest =>
      typed_bind (join_values sep rest) (fun xs => Val (x :: xs))
  | None :: _ => TypeError
  end.

Definition py_join (sep : string) (l : list (option string)) : typed string :=
  typed_bind (join_values sep l) (fun xs => Val (PyStr.join sep xs)).

(** [if v:] on a value that is a string or [None]. *)
Definition truthy (v : option string) : bool :=
  match v with
  | Some (String _ _) => true
  | _ => false
  end.

Definition _acl_operand (operand : string) (srcp1 sprcp2 : option string)
  : typed string :=
  let sub_entry := String.append " " operand in
  if String.eqb operand "range" then
    typed_bind (py_add (Some " ") srcp1) (fun t1 =>
    typed_bind (py_add (Some (String.append t1 " ")) sprcp2) (fun t2 =>
    Val (String.append sub_entry t2)))
  else
    typed_bind (py_add (Some " ") srcp1) (fun t1 =>
    Val (String.append sub_entry t1)).

(** [ace += _acl_operand(op, p1, p2)] under [if op:]. *)
Definition add_operand (ace : string) (op p1 p2 : option string)
  : typed string :=
  match op with
  | Some (String a s) =>
      typed_bind (_acl_operand (String a s) p1 p2) (fun t =>
      Val (String.append ace t))
  | _ => Val ace
  end.

Definition config_core_acl (proposed : gmap string string) : typed string :=
  let seq := proposed !! "seq" in
  let action := proposed !! "action" in
  let remark := proposed !! "remark" in
  let proto := proposed !! "proto" in
  let src := proposed !! "src" in
  let src_port_op := proposed !! "src_port_op" in
  let src_port1 := proposed !! "src_port1" in
  let src_port2 := proposed !! "src_port2" in
  let dest := proposed !! "dest" in
  let dest_port_op := proposed !! "dest_port_op" in
  let dest_port1 := proposed !! "dest_port1" in
  let dest_port2 := proposed !! "dest_port2" in
  let ace_start_entries := [action; proto; src] in
  if negb (truthy remark) then
    typed_bind (py_add seq (Some " ")) (fun t0 =>
    typed_bind (py_join " " ace_start_entries) (fun j =>
    typed_bind (add_operand (String.append t0 j)
                            src_port_op src_port1 src_port2) (fun ace1 =>
    typed_bind (py_add (Some " ") dest) (fun d =>
    add_operand (String.append ace1 d)
                dest_port_op dest_port1 dest_port2))))
  else
    typed_bind (py_add seq (Some " remark ")) (fun t0 =>
    py_add (Some t0) remark).

Definition ENABLE_ONLY : list string :=
  ["psh"; "urg"; "log"; "ack"; "syn"; "established"; "rst"; "fin";
   "fragments"; "log"].

Definition OTHER : list string := ["dscp"; "precedence"; "time-range"].

Definition str_in (s : string) (l : list string) : bool :=
  existsb (String.eqb s) l.

(** The first statement of [config_acl_options]: a [time_range] that is
    not empty is moved to the key [time-range]. *)
Definition rename_time_range (options : gmap string string)
  : gmap string string :=
  match options !! "time_range" with
  | Some (String a s) =>
      delete "time_range" (<["time-range" := String a s]> options)
  | _ => options
  end.

(** What one round of the loop adds to [command]. *)
Definition option_words (kv : string * string) : string :=
  let '(option, value) := kv in
  if str_in option ENABLE_ONLY then
    (if String.eqb value "enable" then String.append " " option
     else EmptyString)
  else if str_in option OTHER then
    String.append " " (String.append option (String.append " " value))
  else EmptyString.

Section AclOptions.

(** The order in which [iteritems] yields the items of a dict is that of
    its hash table; it is left open here. *)
Variable iteritems : gmap string string -> list (string * string).

(** [config_acl_options]: the dict as it is left, and the value returned
    ([None] when [command] is empty). *)
Definition config_acl_options (options : gmap string string)
  : gmap string string * option string :=
  let options' := rename_time_range options in
  let command :=
    fold_left (fun c kv => String.append c (option_words kv))
              (iteritems options') EmptyString in
  (options',
   match command with
   | EmptyString => None
   | _ => Some (PyStr.strip command)
   end).

End AclOptions.

(** The words of an operand and of an entry, in the order in which they
    are written. *)
Definition operand_words (op p1 p2 : option string) : list (option string) :=
  match op with
  | Some (String a s) =>
      if String.eqb (String a s) "range" then [op; p1; p2] else [op; p1]
  | _ => []
  end.

Definition ace_words (proposed : gmap string string) : list (option string) :=
  [proposed !! "seq"; proposed !! "action"; proposed !! "proto";
   proposed !! "src"]
  ++ operand_words (proposed !! "src_port_op") (proposed !! "src_port1")
                   (proposed !! "src_port2")
  ++ [proposed !! "dest"]
  ++ operand_words (proposed !! "dest_port_op") (proposed !! "dest_port1")
                   (proposed !! "dest_port2").

(** The words [ws], each after one space. *)
Fixpoint spaced (ws : list string) : string :=
  match ws with
  | [] => EmptyString
  | w :: rest => String.append " " (String.append w (spaced rest))
  end.

(** An operator that lacks an operand: the first port is missing, or the
    second when the operator is [range]. *)
Definition operand_missing (op p1 p2 : option string) : bool :=
  match op, p1, p2 with
  | Some (String a s), None, _ => true
  | Some (String a s), Some _, None => String.eqb (String a s) "range"
  | _, _, _ => false
  end.

(** An item that adds words to the command of [config_acl_options]: a
    flag set to [enable], or one of the valued options. *)
Definition selected (kv : string * string) : bool :=
  if str_in (fst kv) ENABLE_ONLY then String.eqb (snd kv) "enable"
  else str_in (fst kv) OTHER.

(** ** The [lines] property

    [get_next] pairs every item with the one that follows it, the last one
    with [None]; an item is listed unless the [line] of the next item
    starts with its own. *)

Definition node_line (h : heap) (i : nat) : string :=
  match h !! i with
  | Some o => line_of h o
  | None => EmptyString
  end.

Fixpoint lines_loop (h : heap) (l : list nat) : list string :=
  match l with
  | [] => []
  | item :: rest =>
      match rest with
      | [] => [node_line h item]
      | next_item :: _ =>
          if PyStr.startswith (node_line h next_item) (node_line h item)
          then lines_loop h rest
          else node_line h item :: lines_loop h rest
      end
  end.

Definition lines (h : heap) (c : CustomNetworkConfig) : list string :=
  lines_loop h (items c).

(** * The parser *)

(** C9.  Parsing the access-list text with indent width 2 gives exactly
    two nodes: the top-level node ["ip access-list ANSIBLE"] without
    parents, and the node ["10 permit tcp 1.1.1.1/24 any"] whose parents
    are exactly the top-level node and which is the only child of that
    node; the empty last line gives no node. *)
Theorem parse_acl_example :
  parse [] acl_text 2 [] = Ok (acl_heap, [0; 1])
  /\ acl_text = String.append "ip access-list ANSIBLE"
       (String (ascii_of_nat 10)
          (String.append "  10 permit tcp 1.1.1.1/24 any"
             (String (ascii_of_nat 10) EmptyString)))
  /\ texts_of acl_heap [0; 1] = [acl_parent; acl_child]
  /\ (parents <$> acl_heap !! 0) = Some []
  /\ (parents <$> acl_heap !! 1) = Some [0]
  /\ (children <$> acl_heap !! 0) = Some [1].
Proof. repeat split; vm_compute; reflexivity. Qed.

Lemma take_all_lt {A : Type} (l : list A) (n : nat) :
  length l < n -> take n l = l.
Proof. intros H. apply take_ge. lia. Qed.

(** C2 (as the code has it).  A child line whose level exceeds the depth
    of the ancestor stack is appended to the node list and the parser goes
    on: no object already in the store is touched (so the node enters no
    [children] list) and the ancestor stack is left as it was.  The node's
    [parents], assigned before the depth test, are the whole ancestor
    stack. *)
Theorem parse_line_orphan (ind : nat) (tokens : list string) (st : pstate)
    (line : string) :
  (String.eqb (PyStr.strip (PyStr.sub_braces line)) ""
   || ignore_line (PyStr.strip (PyStr.sub_braces line)) tokens) = false ->
  toplevel_match line = false ->
  ind <> 0 ->
  length (ancestors st) < PyStr.leading_ws line / ind ->
  parse_line ind tokens st line =
    Ok (mkPstate
          (p_heap st ++
             [mkConfigLine (PyStr.strip (PyStr.sub_braces line)) line
                           (ancestors st) []])
          (ancestors st)
          (config st ++ [length (p_heap st)])).
Proof.
  intros Hskip Htop Hind Hlevel.
  unfold parse_line. rewrite Hskip, Htop.
  destruct ind as [|k]; [congruence|].
  apply Nat.ltb_lt in Hlevel as Hb. rewrite Hb.
  rewrite take_all_lt by exact Hlevel. reflexivity.
Qed.

Lemma parse_line_orphan_witness :
  parse_line 2 [] (mkPstate [mkConfigLine "a" "a" [] []] [0] [0]) "    b" =
    Ok (mkPstate [mkConfigLine "a" "a" [] []; mkConfigLine "b" "    b" [0] []]
                 [0] [0; 1]).
Proof.
  apply (parse_line_orphan 2 [] (mkPstate [mkConfigLine "a" "a" [] []] [0] [0])
           "    b"); [reflexivity | reflexivity | lia | vm_compute; lia].
Defined.

(** C2, counterexample to empty parents: in ["a\n    b"] with indent 2 the
    second line has level 2 over a stack of depth 1, and the node made
    for it has the parents [[0]], the node of ["a"]. *)
Lemma parse_orphan_parents_not_empty :
  toplevel_match "    b" = false
  /\ 1 < PyStr.leading_ws "    b" / 2
  /\ parse [] orphan_text 2 [] =
       Ok ([mkConfigLine "a" "a" [] []; mkConfigLine "b" "    b" [0] []],
           [0; 1])
  /\ parents (mkConfigLine "b" "    b" [0] []) <> [].
Proof.
  split; [reflexivity|]. split; [vm_compute; lia|].
  split; [vm_compute; reflexivity | discriminate].
Qed.

(** * Navigation *)

(** C1 (as the code has it).  For a path that resolves to no node,
    [get_section_objects] raises [ValueError], and [get_section] catches
    it and returns an empty list. *)
Theorem get_section_unresolved (h : heap) (c : CustomNetworkConfig)
    (path : pypath) :
  get_object h c (as_list_path path) = Ok None ->
  get_section_objects h c path
    = Raise (ValueError "path does not exist in config")
  /\ get_section h c path = Ok (SLines []).
Proof.
  intros H. unfold get_section, get_section_objects. rewrite H. simpl.
  split; reflexivity.
Qed.

Lemma get_section_unresolved_witness :
  get_section_objects acl_heap (mkConfig 2 [0; 1] None) (PStr "ip access-list X")
    = Raise (ValueError "path does not exist in config")
  /\ get_section acl_heap (mkConfig 2 [0; 1] None) (PStr "ip access-list X")
    = Ok (SLines []).
Proof.
  apply (get_section_unresolved acl_heap (mkConfig 2 [0; 1] None)
           (PStr "ip access-list X")).
  vm_compute; reflexivity.
Defined.

(** C1, counterexample to a failure of [get_section]: on the parsed
    access list the path
    ["ip access-list X"] resolves to no node and [get_section] returns
    normally, with an empty list. *)
Lemma get_section_defaults_to_empty :
  get_object acl_heap (mkConfig 2 [0; 1] None) (PList ["ip access-list X"])
    = Ok None
  /\ get_section acl_heap (mkConfig 2 [0; 1] None) (PStr "ip access-list X")
    = Ok (SLines [])
  /\ get_section acl_heap (mkConfig 2 [0; 1] None) (PList ["ip access-list X"])
    = Ok (SLines []).
Proof. repeat split; vm_compute; reflexivity. Qed.

Lemma last_char_some (s : string) :
  s <> EmptyString -> exists c, PyStr.last_char s = Some c.
Proof.
  induction s as [|a s IH]; [congruence|]. intros _.
  destruct s as [|b s]; [eexists; reflexivity|].
  destruct IH as [c Hc]; [discriminate|]. exists c. exact Hc.
Qed.

(** With a bare string as path the test [parents == path[:-1]] compares a
    list with a string, so the loop of [get_object] never returns a
    node. *)
Lemma get_object_loop_bare_string (h : heap) (s : string) (l : list nat) :
  s <> EmptyString -> get_object_loop h (PStr s) l = Ok None.
Proof.
  intros Hs. destruct (last_char_some s Hs) as [c Hc].
  induction l as [|i l IH]; simpl; [reflexivity|].
  destruct (h !! i); [|exact IH].
  rewrite Hc, andb_false_r. exact IH.
Qed.

(** The loop of [get] returns the first node of the list that has the
    text and the parent texts of the path. *)
Lemma get_object_loop_finds (h : heap) (t : string) (ps : list string)
    (l : list nat) (i : nat) (o : ConfigLine) :
  In i l -> h !! i = Some o -> text o = t -> texts_of h (parents o) = ps ->
  exists j oj,
    get_object_loop h (PList (ps ++ [t])) l = Ok (Some j)
    /\ In j l /\ h !! j = Some oj
    /\ text oj = t /\ texts_of h (parents oj) = ps.
Proof.
  intros Hin Hi Ht Hp.
  induction l as [|k l IH]; [destruct Hin|].
  simpl. rewrite last_snoc, removelast_last.
  destruct (h !! k) as [ok|] eqn:Hk.
  - destruct (String.eqb (text ok) t
              && bool_decide (texts_of h (parents ok) = ps)) eqn:E.
    + apply andb_prop in E as [E1 E2].
      apply String.eqb_eq in E1. apply bool_decide_eq_true in E2.
      exists k, ok. repeat split; auto.
    + destruct Hin as [->|Hin].
      * rewrite Hi in Hk. injection Hk as <-.
        rewrite Ht, String.eqb_refl, Hp, bool_decide_eq_true_2 in E by reflexivity.
        discriminate.
      * destruct (IH Hin) as (j & oj & H1 & H2 & H3).
        exists j, oj. split; [exact H1|]. split; [right; exact H2 | exact H3].
  - destruct Hin as [->|Hin]; [congruence|].
    destruct (IH Hin) as (j & oj & H1 & H2 & H3).
    exists j, oj. split; [exact H1|]. split; [right; exact H2 | exact H3].
Qed.

(** C10.  [get] turns a bare string into a one element path, [get_object]
    and [get_children] do not: they index the string itself.  For every
    top-level node whose text has more than one character, [get_children]
    with that text as a bare string gives the not-found signal, while
    [get] with the same string finds a top-level node with that text. *)
Theorem get_children_bare_string (h : heap) (c : CustomNetworkConfig)
    (i : nat) (o : ConfigLine) :
  In i (items c) -> h !! i = Some o -> parents o = [] ->
  1 < String.length (text o) ->
  get_object h c (PStr (text o)) = Ok None
  /\ get_children h c (PStr (text o)) = Ok None
  /\ exists j oj,
       get h c (PStr (text o)) = Ok (Some j)
       /\ In j (items c) /\ h !! j = Some oj
       /\ text oj = text o /\ texts_of h (parents oj) = [].
Proof.
  intros Hin Hi Hp Hlen.
  assert (Hne : text o <> EmptyString).
  { intros E. rewrite E in Hlen. simpl in Hlen. lia. }
  assert (Hobj : get_object h c (PStr (text o)) = Ok None).
  { apply get_object_loop_bare_string. exact Hne. }
  split; [exact Hobj|]. split.
  - unfold get_children. rewrite Hobj. reflexivity.
  - unfold get.
    apply (get_object_loop_finds h (text o) [] (items c) i o); auto.
    rewrite Hp. reflexivity.
Qed.

Lemma get_children_bare_string_witness :
  get_object acl_heap (mkConfig 2 [0; 1] None) (PStr acl_parent) = Ok None
  /\ get_children acl_heap (mkConfig 2 [0; 1] None) (PStr acl_parent) = Ok None
  /\ exists j oj,
       get acl_heap (mkConfig 2 [0; 1] None) (PStr acl_parent) = Ok (Some j)
       /\ In j [0; 1] /\ acl_heap !! j = Some oj
       /\ text oj = acl_parent /\ texts_of acl_heap (parents oj) = [].
Proof.
  apply (get_children_bare_string acl_heap (mkConfig 2 [0; 1] None) 0
           (mkConfigLine acl_parent acl_parent [] [1]));
    [left; reflexivity | reflexivity | reflexivity | vm_compute; lia].
Defined.

(** * add never lets a [ValueError] escape *)

Lemma add_parent_not_value_error (parents : list string) (index : nat)
    (p : string) (st : heap * CustomNetworkConfig * list nat) :
  not_value_error (add_parent parents index p st).
Proof.
  intros msg. destruct st as [[h c] anc]. unfold add_parent.
  destruct (get_section_objects h c (PList (take (index + 1) parents)))
    as [[|obj sec]|[m| | |]]; discriminate.
Qed.

Lemma add_parents_not_value_error (parents todo : list string) :
  forall index st, not_value_error (add_parents parents index todo st).
Proof.
  induction todo as [|p todo IH]; intros index st msg; simpl; [discriminate|].
  destruct (add_parent parents index p st) as [st'|e] eqn:E; simpl.
  - apply IH.
  - intros H. apply (add_parent_not_value_error parents index p st msg).
    rewrite E. exact H.
Qed.

Lemma add_children_not_value_error (n : nat) (anc : list nat)
    (lines : list string) :
  forall st, not_value_error st ->
    not_value_error (fold_left (add_child n anc) lines st).
Proof.
  induction lines as [|l lines IH]; intros st Hst; simpl; [exact Hst|].
  apply IH. intros msg. destruct st as [[h c]|e]; simpl.
  - destruct (last anc); [|discriminate].
    destruct (existsb _ _); discriminate.
  - apply Hst.
Qed.

Lemma add_not_value_error (h : heap) (c : CustomNetworkConfig)
    (lines : pyarg) (parents : list string) :
  not_value_error (add h c lines parents).
Proof.
  intros msg. unfold add. destruct parents as [|p ps]; [discriminate|].
  destruct (add_parents (p :: ps) 0 (p :: ps) (h, c, [])) as [[[h1 c1] anc]|e] eqn:E.
  - cbn [bind]. apply add_children_not_value_error. intros m; discriminate.
  - cbn [bind]. intros H. injection H as ->.
    exact (add_parents_not_value_error (p :: ps) (p :: ps) 0 (h, c, []) msg E).
Qed.

(** * replace *)

Section ReplaceFacts.

Context {regex : Type}.
Variable re_compile : string -> option regex.
Variable re_search : regex -> string -> bool.

Lemma compile_all_not_value_error (rs : list string) :
  not_value_error (compile_all regex re_compile rs).
Proof.
  induction rs as [|r rs IH]; intros msg; simpl; [discriminate|].
  destruct (re_compile r); [|discriminate].
  destruct (compile_all regex re_compile rs) eqn:E; simpl; [discriminate|].
  intros H. injection H as ->. exact (IH msg eq_refl).
Qed.

(** C8.  [replace] raises the [ValueError] for missing arguments when
    neither a text nor a pattern is given, whatever the other arguments
    are, and it raises no [ValueError] at all when one of them is
    given. *)
Theorem replace_invalid_argument (h : heap) (c : CustomNetworkConfig)
    (rep : string) (text_ : option string) (regex_ : pyarg)
    (pars : list string) (add_if_missing ignore_whitespace : bool) :
  (replace regex re_compile re_search h c rep None ANone pars
           add_if_missing ignore_whitespace
     = Raise (ValueError "missing required arguments"))
  /\ (forall msg,
        replace regex re_compile re_search h c rep text_ regex_ pars
                add_if_missing ignore_whitespace = Raise (ValueError msg) ->
        text_ = None /\ regex_ = ANone).
Proof.
  split; [reflexivity|].
  intros msg H.
  assert (Hbody : forall ps,
    match replace_scan regex re_search h rep pars ps (items c) None with
    | Some m =>
        match h !! m with
        | Some o => Ok (<[m := rewrite_line rep o]> h, c)
        | None => Ok (h, c)
        end
    | None => if add_if_missing then add h c (AStr rep) pars else Ok (h, c)
    end <> Raise (ValueError msg)).
  { intros ps. destruct (replace_scan _ _ _ _ _ _ _ _) as [m|].
    - destruct (h !! m); discriminate.
    - destruct add_if_missing; [apply add_not_value_error | discriminate]. }
  assert (Hrest :
    bind (compile_all regex re_compile (pattern_sources text_ regex_))
      (fun patterns =>
         match replace_scan regex re_search h rep pars patterns (items c) None with
         | Some m =>
             match h !! m with
             | Some o => Ok (<[m := rewrite_line rep o]> h, c)
             | None => Ok (h, c)
             end
         | None =>
             if add_if_missing then add h c (AStr rep) pars else Ok (h, c)
         end) <> Raise (ValueError msg)).
  { destruct (compile_all regex re_compile (pattern_sources text_ regex_))
      as [ps|e] eqn:E; simpl.
    - apply Hbody.
    - intros H'. injection H' as ->.
      exact (compile_all_not_value_error (pattern_sources text_ regex_) msg E). }
  unfold replace in H.
  destruct text_ as [t|]; [exfalso; exact (Hrest H)|].
  destruct regex_ as [|s|l]; [split; reflexivity | |]; exfalso; exact (Hrest H).
Qed.

Lemma replace_patterns_no_match (h : heap) (rep : string)
    (pars : list string) (item : ConfigLine) (patterns : list regex) :
  (forall p, In p patterns -> re_search p (text item) = false) ->
  replace_patterns regex re_search h rep pars item patterns = false.
Proof.
  induction patterns as [|p ps IH]; intros H; simpl; [reflexivity|].
  rewrite (H p) by (left; reflexivity). simpl.
  apply IH. intros q Hq. apply H. right. exact Hq.
Qed.

Lemma replace_scan_no_match (h : heap) (rep : string) (pars : list string)
    (patterns : list regex) (l : list nat) :
  (forall i o p, In i l -> h !! i = Some o -> In p patterns ->
                 re_search p (text o) = false) ->
  forall m, replace_scan regex re_search h rep pars patterns l m = m.
Proof.
  induction l as [|i l IH]; intros H m; simpl; [reflexivity|].
  rewrite IH by (intros j o p Hj; apply H; right; exact Hj).
  destruct (h !! i) as [o|] eqn:Hi; [|reflexivity].
  rewrite replace_patterns_no_match; [reflexivity|].
  intros p Hp. apply (H i o p); auto. left; reflexivity.
Qed.

(** C7.  When a text or a pattern is given, the patterns compile and
    none of them matches the text of any node, [replace] without
    [add_if_missing] returns with the store and the node list exactly
    as they were. *)
Theorem replace_no_match_unchanged (h : heap) (c : CustomNetworkConfig)
    (rep : string) (text_ : option string) (regex_ : pyarg)
    (pars : list string) (ignore_whitespace : bool)
    (patterns : list regex) :
  text_ <> None \/ regex_ <> ANone ->
  compile_all regex re_compile (pattern_sources text_ regex_) = Ok patterns ->
  (forall i o p, In i (items c) -> h !! i = Some o -> In p patterns ->
                 re_search p (text o) = false) ->
  replace regex re_compile re_search h c rep text_ regex_ pars
          false ignore_whitespace = Ok (h, c).
Proof.
  intros Hargs Hcomp Hno.
  assert (Hrest :
    bind (compile_all regex re_compile (pattern_sources text_ regex_))
      (fun patterns =>
         match replace_scan regex re_search h rep pars patterns (items c) None with
         | Some m =>
             match h !! m with
             | Some o => Ok (<[m := rewrite_line rep o]> h, c)
             | None => Ok (h, c)
             end
         | None => if false then add h c (AStr rep) pars else Ok (h, c)
         end) = Ok (h, c)).
  { rewrite Hcomp. simpl. rewrite replace_scan_no_match by exact Hno.
    reflexivity. }
  unfold replace.
  destruct text_ as [t|]; [exact Hrest|].
  destruct regex_ as [|s|l]; [|exact Hrest|exact Hrest].
  destruct Hargs as [Ha|Ha]; congruence.
Qed.

End ReplaceFacts.

Lemma replace_no_match_unchanged_witness :
  replace LiteralRe.regex LiteralRe.re_compile LiteralRe.re_search
          acl_heap (mkConfig 2 [0; 1] None) "20 permit tcp any any"
          (Some "30 deny ip any any") ANone [acl_parent] false false
    = Ok (acl_heap, mkConfig 2 [0; 1] None).
Proof.
  apply (replace_no_match_unchanged LiteralRe.re_compile LiteralRe.re_search
           acl_heap (mkConfig 2 [0; 1] None) "20 permit tcp any any"
           (Some "30 deny ip any any") ANone [acl_parent] false
           [("30 deny ip any any", true)]).
  - left; discriminate.
  - vm_compute; reflexivity.
  - intros i o p Hi Ho Hp.
    destruct Hp as [<-|[]].
    destruct Hi as [<-|[<-|[]]]; vm_compute in Ho; injection Ho as <-;
      vm_compute; reflexivity.
Defined.

(** * Facts about stores without dangling references *)

Lemma bounded_In (n : nat) (l : list nat) (i : nat) :
  bounded n l = true -> In i l -> i < n.
Proof.
  unfold bounded. rewrite forallb_forall. intros H Hi.
  apply Nat.ltb_lt. apply H. exact Hi.
Qed.

Lemma lookup_In {A : Type} (l : list A) (i : nat) (x : A) :
  l !! i = Some x -> In x l.
Proof.
  revert i. induction l as [|y l IH]; intros [|i] H; simpl in *;
    try discriminate.
  - injection H as ->. left; reflexivity.
  - right. apply (IH i). exact H.
Qed.

Lemma closed_items (h : heap) (l : list nat) (i : nat) :
  closed h l = true -> In i l -> exists o, h !! i = Some o.
Proof.
  unfold closed. intros H Hi. apply andb_prop in H as [H _].
  apply lookup_lt_is_Some. apply (bounded_In _ l); assumption.
Qed.

Lemma closed_parents (h : heap) (l : list nat) (i : nat) (o : ConfigLine)
    (p : nat) :
  closed h l = true -> h !! i = Some o -> In p (parents o) ->
  exists op, h !! p = Some op.
Proof.
  unfold closed. intros H Hi Hp. apply andb_prop in H as [_ H].
  rewrite forallb_forall in H. specialize (H o (lookup_In _ _ _ Hi)).
  apply andb_prop in H as [H _].
  apply lookup_lt_is_Some. apply (bounded_In _ (parents o)); assumption.
Qed.

Lemma last_In {A : Type} (l : list A) (x : A) : last l = Some x -> In x l.
Proof.
  induction l as [|y l IH]; simpl; [discriminate|].
  destruct l as [|z l]; intros H.
  - injection H as ->. left; reflexivity.
  - right. apply IH. exact H.
Qed.

(** * difference *)

Lemma od_update_not_nil (k : string) (f : odict -> odict)
    (l : list (string * odict)) : od_update k f l <> [].
Proof.
  destruct l as [|[k' v] l]; simpl; [discriminate|].
  destruct (String.eqb k' k); discriminate.
Qed.

Lemma od_add_key_not_empty (d : odict) (k : string) : od_add_key d k <> OD [].
Proof.
  destruct d as [l]. simpl. intros H. injection H as H.
  exact (od_update_not_nil _ _ _ H).
Qed.

Lemma fold_add_key_not_empty (kids : list string) :
  forall d, d <> OD [] -> fold_left od_add_key kids d <> OD [].
Proof.
  induction kids as [|k kids IH]; intros d Hd; simpl; [exact Hd|].
  apply IH. apply od_add_key_not_empty.
Qed.

Lemma expand_block_not_empty (block kids : list string) (d : odict) :
  block <> [] \/ d <> OD [] -> expand_block block kids d <> OD [].
Proof.
  destruct block as [|b bs]; simpl.
  - intros [H|H]; [congruence|]. apply fold_add_key_not_empty. exact H.
  - intros _. destruct d as [l]. intros H. injection H as H.
    exact (od_update_not_nil _ _ _ H).
Qed.

Lemma expand_not_empty (h : heap) (u : nat) (d : odict) :
  is_Some (h !! u) \/ d <> OD [] -> expand h u d <> OD [].
Proof.
  unfold expand. intros H. destruct (h !! u) as [o|] eqn:E.
  - apply expand_block_not_empty. left.
    destruct (raws_of h (parents o)); discriminate.
  - destruct H as [[x Hx]|H]; [discriminate | exact H].
Qed.

Lemma fold_expand_not_empty (h : heap) (f : nat -> nat) (us : list nat) :
  forall d, d <> OD [] ->
    fold_left (fun diffs update => expand h (f update) diffs) us d <> OD [].
Proof.
  induction us as [|u us IH]; intros d Hd; simpl; [exact Hd|].
  apply IH. apply expand_not_empty. right. exact Hd.
Qed.

Lemma flatten_nil (d : odict) : flatten d = [] -> d = OD [].
Proof.
  destruct d as [[|[k v] l]]; simpl; [reflexivity | discriminate].
Qed.

Lemma block_target_valid (h : heap) (l : list nat) (rep : string) (u : nat) :
  closed h l = true -> is_Some (h !! u) -> is_Some (h !! block_target h rep u).
Proof.
  intros Hc [o Ho]. unfold block_target.
  destruct (String.eqb rep "block"); [|exists o; exact Ho].
  rewrite Ho. destruct (last (parents o)) as [p|] eqn:E; [|exists o; exact Ho].
  destruct (closed_parents h l u o p Hc Ho (last_In _ _ E)) as [op Hop].
  exists op. exact Hop.
Qed.

(** The flattened lines are empty only when there is no update. *)
Lemma flatten_updates_nil (h : heap) (l : list nat) (rep : string)
    (updates : list nat) :
  closed h l = true ->
  (forall u, In u updates -> In u l) ->
  flatten (fold_left (fun diffs update => expand h (block_target h rep update) diffs)
                     updates (OD [])) = [] ->
  updates = [].
Proof.
  intros Hc Hsub Hf. destruct updates as [|u us]; [reflexivity|].
  exfalso. apply flatten_nil in Hf. simpl in Hf.
  revert Hf. apply fold_expand_not_empty. apply expand_not_empty. left.
  apply (block_target_valid h l); [exact Hc|].
  destruct (closed_items h l u Hc (Hsub u (or_introl eq_refl))) as [o Ho].
  exists o. exact Ho.
Qed.

Lemma izip_differs_false (h : heap) (config : list nat) :
  forall current, length config = length current ->
    (izip_differs h config current = false
     <-> Forall2 (fun a b => obj_eq h a b = true) config current).
Proof.
  induction config as [|a config IH]; intros [|b current] Hlen;
    simpl in *; try discriminate.
  - split; [constructor | reflexivity].
  - injection Hlen as Hlen. unfold obj_ne.
    rewrite orb_false_iff, negb_false_iff, (IH current Hlen).
    split.
    + intros [H1 H2]. constructor; assumption.
    + intros H. inversion H; subst. split; assumption.
Qed.

Lemma match_exact_nil (h : heap) (config current : list nat) :
  match_exact h config current = [] <->
  config = [] \/
  (length config = length current
   /\ Forall2 (fun a b => obj_eq h a b = true) config current).
Proof.
  unfold match_exact.
  destruct (Nat.eqb (length current) (length config)) eqn:E; simpl.
  - apply Nat.eqb_eq in E. symmetry in E.
    destruct (izip_differs h config current) eqn:D.
    + split; [intros H; left; exact H|].
      intros [H|[_ H]]; [exact H|].
      apply (izip_differs_false h config current E) in H. congruence.
    + split; [|reflexivity]. intros _. right. split; [exact E|].
      apply (izip_differs_false h config current E). exact D.
  - apply Nat.eqb_neq in E.
    split; [intros H; left; exact H|].
    intros [H|[H _]]; [exact H | congruence].
Qed.

(** C3 (as the code has it).  With the exact policy and no path,
    [difference] returns an empty list exactly when the candidate has no
    node at all, or the two node lists have the same length and are
    pairwise equal by [__eq__]. *)
Theorem difference_exact_empty_iff (h : heap) (A B : CustomNetworkConfig)
    (rep : string) :
  closed h (items A) = true ->
  exists out,
    difference h A B None "exact" rep = Ok out
    /\ (diff_empty out = true <->
        items A = [] \/
        (length (items A) = length (items B)
         /\ Forall2 (fun a b => obj_eq h a b = true) (items A) (items B))).
Proof.
  intros Hc. unfold difference. cbn [children_or_items path_true bind].
  change (String.eqb "exact" "line") with false.
  change (String.eqb "exact" "strict") with false.
  change (String.eqb "exact" "exact") with true. cbn iota. cbn [bind].
  pose proof (match_exact_nil h (items A) (items B)) as Hex.
  destruct (is_junos A).
  - eexists. split; [reflexivity|]. rewrite <- Hex.
    destruct (match_exact h (items A) (items B)); simpl;
      split; congruence.
  - eexists. split; [reflexivity|]. rewrite <- Hex. simpl.
    split.
    + intros H.
      apply (flatten_updates_nil h (items A) rep); [exact Hc| |].
      * unfold match_exact. intros u.
        destruct (negb _); [auto|]. destruct (izip_differs _ _ _); [auto|].
        intros [].
      * destruct (flatten _); [reflexivity|discriminate].
    + intros ->. reflexivity.
Qed.

Lemma difference_exact_empty_iff_witness :
  exists out,
    difference acl_heap (mkConfig 2 [0; 1] None) (mkConfig 2 [0; 1] None)
               None "exact" "line" = Ok out
    /\ (diff_empty out = true <->
        [0; 1] = [] \/
        (length [0; 1] = length [0; 1]
         /\ Forall2 (fun a b => obj_eq acl_heap a b = true) [0; 1] [0; 1])).
Proof.
  apply (difference_exact_empty_iff acl_heap (mkConfig 2 [0; 1] None)
           (mkConfig 2 [0; 1] None) "line").
  vm_compute; reflexivity.
Defined.

(** C3, counterexample to the equivalence: an empty candidate against the parsed
    access list gives no update although the two node lists differ in
    length. *)
Lemma difference_exact_empty_candidate :
  difference acl_heap (mkConfig 2 [] None) (mkConfig 2 [0; 1] None)
             None "exact" "line" = Ok (DLines [])
  /\ length (items (mkConfig 2 [] None))
       <> length (items (mkConfig 2 [0; 1] None)).
Proof. split; [vm_compute; reflexivity | discriminate]. Qed.

(** C5 (as the code has it).  The candidate holding only the child node of
    the parsed access list, compared with an empty reference under
    [match='line'] and [replace='block'], gives the raw line of the
    parent followed by the raw line of the child, which keeps its two
    leading spaces; so does the candidate built by [add] on an empty tree
    of indent 2.  Stripping the lines gives the two statement texts. *)
Theorem difference_acl_block :
  difference acl_heap (mkConfig 2 [1] None) (mkConfig 2 [] None)
             None "line" "block"
    = Ok (DLines ["ip access-list ANSIBLE"; "  10 permit tcp 1.1.1.1/24 any"])
  /\ add [] (mkConfig 2 [] None) (AList [acl_child]) [acl_parent]
    = Ok (acl_heap, mkConfig 2 [0; 1] None)
  /\ difference acl_heap (mkConfig 2 [0; 1] None) (mkConfig 2 [] None)
                None "line" "block"
    = Ok (DLines ["ip access-list ANSIBLE"; "  10 permit tcp 1.1.1.1/24 any"])
  /\ map PyStr.strip ["ip access-list ANSIBLE"; "  10 permit tcp 1.1.1.1/24 any"]
    = ["ip access-list ANSIBLE"; "10 permit tcp 1.1.1.1/24 any"].
Proof. repeat split; vm_compute; reflexivity. Qed.

(** C5, counterexample to the unindented output: the second line is the
    raw child line, not the statement text. *)
Lemma difference_acl_block_keeps_indent :
  difference acl_heap (mkConfig 2 [1] None) (mkConfig 2 [] None)
             None "line" "block"
    = Ok (DLines ["ip access-list ANSIBLE"; "  10 permit tcp 1.1.1.1/24 any"])
  /\ ["ip access-list ANSIBLE"; "  10 permit tcp 1.1.1.1/24 any"]
       <> ["ip access-list ANSIBLE"; "10 permit tcp 1.1.1.1/24 any"].
Proof. split; [vm_compute; reflexivity | discriminate]. Qed.

(** * replace: which node is rewritten *)

Lemma spaces_length (n : nat) : String.length (PyStr.spaces n) = n.
Proof. induction n as [|n IH]; simpl; [reflexivity | rewrite IH; reflexivity]. Qed.

Lemma lstrip_length (s : string) :
  String.length s = PyStr.leading_ws s + String.length (PyStr.lstrip s).
Proof.
  induction s as [|c s IH]; simpl; [reflexivity|].
  destruct (PyStr.is_space c); simpl; [rewrite IH; reflexivity | reflexivity].
Qed.

(** The rewritten node has the replacement as text and, as raw text, the
    replacement behind as many spaces as the old raw text had leading
    white space characters. *)
Lemma rewrite_line_keeps_indent (rep : string) (o : ConfigLine) :
  rewrite_line rep o =
    mkConfigLine rep
      (String.append (PyStr.spaces (PyStr.leading_ws (raw o))) rep)
      (parents o) (children o).
Proof.
  unfold rewrite_line, PyStr.rjust. f_equal.
  rewrite (lstrip_length (raw o)) at 1.
  replace (String.length rep
           + (PyStr.leading_ws (raw o) + String.length (PyStr.lstrip (raw o))
              - String.length (PyStr.lstrip (raw o)))
           - String.length rep)
    with (PyStr.leading_ws (raw o)) by lia.
  reflexivity.
Qed.

Section ReplaceWhich.

Context {regex : Type}.
Variable re_compile : string -> option regex.
Variable re_search : regex -> string -> bool.

(** C4, the node that is rewritten is the last match.  On the tree parsed
    from ["ntp server 1\nntp server 2"], [replace] with a pattern that
    matches both texts rewrites the second node and leaves the first:
    [break] only leaves the loop over the patterns, and the loop over
    the nodes goes on to overwrite [match]. *)
Theorem replace_rewrites_last_match (p : regex) :
  re_compile "^ntp" = Some p ->
  re_search p "ntp server 1" = true ->
  re_search p "ntp server 2" = true ->
  parse [] ntp_text 2 [] = Ok (ntp_heap, [0; 1])
  /\ replace regex re_compile re_search ntp_heap (mkConfig 2 [0; 1] None)
             "ntp server 3" None (AStr "^ntp") [] false false
     = Ok ([ mkConfigLine "ntp server 1" "ntp server 1" [] [];
             mkConfigLine "ntp server 3" "ntp server 3" [] [] ],
           mkConfig 2 [0; 1] None).
Proof.
  intros Hp Hp1 Hp2.
  split; [vm_compute; reflexivity|].
  unfold replace. cbn [pattern_sources py_not to_list compile_all].
  rewrite Hp. cbn [bind items _config]. unfold ntp_heap.
  cbn [replace_scan lookup list_lookup replace_patterns text parents].
  rewrite Hp1, Hp2. vm_compute. reflexivity.
Qed.

(** Only the normalized text is searched: on the tree parsed from
    ["vlan 10 {"], a pattern that matches the raw text but not the text
    finds no node. *)
Lemma replace_does_not_search_raw (q : regex) :
  re_compile "\{$" = Some q ->
  re_search q "vlan 10" = false ->
  re_search q "vlan 10 {" = true ->
  parse [] "vlan 10 {" 2 [] = Ok (vlan_heap, [0])
  /\ replace regex re_compile re_search vlan_heap (mkConfig 2 [0] None)
             "vlan 20 {" None (AStr "\{$") [] false false
     = Ok (vlan_heap, mkConfig 2 [0] None).
Proof.
  intros Hq Hq1 _.
  split; [vm_compute; reflexivity|].
  unfold replace. cbn [pattern_sources py_not to_list compile_all].
  rewrite Hq. cbn [bind items _config]. unfold vlan_heap.
  cbn [replace_scan lookup list_lookup replace_patterns text parents].
  rewrite Hq1. reflexivity.
Qed.

End ReplaceWhich.

Lemma replace_rewrites_last_match_witness :
  parse [] ntp_text 2 [] = Ok (ntp_heap, [0; 1])
  /\ replace LiteralRe.regex LiteralRe.re_compile LiteralRe.re_search
             ntp_heap (mkConfig 2 [0; 1] None)
             "ntp server 3" None (AStr "^ntp") [] false false
     = Ok ([ mkConfigLine "ntp server 1" "ntp server 1" [] [];
             mkConfigLine "ntp server 3" "ntp server 3" [] [] ],
           mkConfig 2 [0; 1] None).
Proof.
  apply (replace_rewrites_last_match LiteralRe.re_compile LiteralRe.re_search
           ("ntp", false)); vm_compute; reflexivity.
Defined.

(** * Growing the store *)

Lemma extends_refl (h : heap) : extends h h.
Proof. split; [lia|]. intros i o H. exists o. auto. Qed.

Lemma extends_trans (h1 h2 h3 : heap) :
  extends h1 h2 -> extends h2 h3 -> extends h1 h3.
Proof.
  intros [L1 H1] [L2 H2]. split; [lia|]. intros i o Hi.
  destruct (H1 i o Hi) as (o' & Ho' & Ht & Hp).
  destruct (H2 i o' Ho') as (o'' & Ho'' & Ht' & Hp').
  exists o''. split; [exact Ho''|]. split; congruence.
Qed.

Lemma extends_snoc (h : heap) (x : ConfigLine) : extends h (h ++ [x]).
Proof.
  split; [rewrite length_app; lia|]. intros i o Hi. exists o.
  split; [apply lookup_app_l_Some; exact Hi | auto].
Qed.

Lemma append_child_lookup (h : heap) (a c i : nat) :
  append_child h a c !! i =
    if Nat.eqb i a
    then (fun o => set_children o (children o ++ [c])) <$> h !! i
    else h !! i.
Proof.
  unfold append_child. destruct (Nat.eqb i a) eqn:E.
  - apply Nat.eqb_eq in E. subst i. destruct (h !! a) as [o|] eqn:Ha.
    + simpl. apply list_lookup_insert_eq. apply (lookup_lt_Some _ _ _ Ha).
    + rewrite Ha. reflexivity.
  - apply Nat.eqb_neq in E. destruct (h !! a) as [o|]; [|reflexivity].
    apply list_lookup_insert_ne. congruence.
Qed.

Lemma append_child_length (h : heap) (a c : nat) :
  length (append_child h a c) = length h.
Proof.
  unfold append_child. destruct (h !! a); [apply length_insert | reflexivity].
Qed.

Lemma extends_append_child (h : heap) (a c : nat) :
  extends h (append_child h a c).
Proof.
  split; [rewrite append_child_length; lia|]. intros i o Hi.
  rewrite append_child_lookup, Hi. destruct (Nat.eqb i a); simpl.
  - eexists. split; [reflexivity|]. split; reflexivity.
  - exists o. auto.
Qed.

Lemma texts_of_cons (h : heap) (i : nat) (l : list nat) :
  texts_of h (i :: l) =
    match h !! i with
    | Some o => text o :: texts_of h l
    | None => texts_of h l
    end.
Proof. unfold texts_of. simpl. destruct (h !! i); reflexivity. Qed.

Lemma texts_of_app (h : heap) (l1 l2 : list nat) :
  texts_of h (l1 ++ l2) = texts_of h l1 ++ texts_of h l2.
Proof. unfold texts_of. apply omap_app. Qed.

Lemma texts_of_extends (h h' : heap) (l : list nat) :
  extends h h' -> bounded (length h) l = true ->
  texts_of h' l = texts_of h l.
Proof.
  intros [_ He]. induction l as [|i l IH]; intros Hb; [reflexivity|].
  simpl in Hb. apply andb_prop in Hb as [Hi Hl].
  apply Nat.ltb_lt in Hi. apply lookup_lt_is_Some in Hi as [o Ho].
  destruct (He i o Ho) as (o' & Ho' & Ht & _).
  rewrite !texts_of_cons, Ho, Ho', Ht, (IH Hl). reflexivity.
Qed.

Lemma closed_node_parents (h : heap) (l : list nat) (i : nat) (o : ConfigLine) :
  closed h l = true -> h !! i = Some o -> bounded (length h) (parents o) = true.
Proof.
  unfold closed. intros H Hi. apply andb_prop in H as [_ H].
  rewrite forallb_forall in H. specialize (H o (lookup_In _ _ _ Hi)).
  apply andb_prop in H as [H _]. exact H.
Qed.

Lemma closed_node_children (h : heap) (l : list nat) (i : nat) (o : ConfigLine) :
  closed h l = true -> h !! i = Some o -> bounded (length h) (children o) = true.
Proof.
  unfold closed. intros H Hi. apply andb_prop in H as [_ H].
  rewrite forallb_forall in H. specialize (H o (lookup_In _ _ _ Hi)).
  apply andb_prop in H as [_ H]. exact H.
Qed.

Lemma closed_sub (h : heap) (l l' : list nat) :
  closed h l = true -> bounded (length h) l' = true -> closed h l' = true.
Proof.
  unfold closed. intros H Hb. apply andb_prop in H as [_ H].
  rewrite Hb, H. reflexivity.
Qed.

Lemma bounded_cons_inv (n i : nat) (l : list nat) :
  bounded n (i :: l) = true -> i < n /\ bounded n l = true.
Proof.
  simpl. intros H. apply andb_prop in H as [H1 H2].
  apply Nat.ltb_lt in H1. auto.
Qed.

(** The loop of [get_object] sees the same thing in a larger store. *)
Lemma get_object_loop_extends (h h' : heap) (path : pypath) (l l0 : list nat) :
  extends h h' -> closed h l0 = true -> bounded (length h) l = true ->
  get_object_loop h' path l = get_object_loop h path l.
Proof.
  intros He Hc. induction l as [|i l IH]; intros Hb; [reflexivity|].
  apply bounded_cons_inv in Hb as [Hi Hl]. simpl.
  apply lookup_lt_is_Some in Hi as [o Ho].
  destruct He as [HL He'].
  destruct (He' i o Ho) as (o' & Ho' & Ht & Hp).
  rewrite Ho, Ho', Ht, Hp.
  rewrite (texts_of_extends h h' (parents o) (conj HL He')
             (closed_node_parents h l0 i o Hc Ho)).
  rewrite (IH Hl). reflexivity.
Qed.

Lemma get_object_loop_app (h : heap) (path : pypath) (l1 l2 : list nat) :
  get_object_loop h path (l1 ++ l2) =
    match get_object_loop h path l1 with
    | Ok None => get_object_loop h path l2
    | r => r
    end.
Proof.
  induction l1 as [|i l1 IH]; simpl; [reflexivity|].
  destruct (h !! i) as [o|]; [|exact IH].
  destruct (path_last path); [|reflexivity].
  destruct (_ && _); [reflexivity | exact IH].
Qed.

(** What a successful lookup tells about the node found. *)
Lemma get_object_loop_Some (h : heap) (path : pypath) (l : list nat) (a : nat) :
  get_object_loop h path l = Ok (Some a) ->
  In a l /\ exists o, h !! a = Some o
    /\ path_last path = Some (text o)
    /\ path_init_eq (texts_of h (parents o)) path = true.
Proof.
  induction l as [|i l IH]; simpl; [discriminate|].
  destruct (h !! i) as [o|] eqn:Hi.
  - destruct (path_last path) as [lp|] eqn:Hl; [|discriminate].
    destruct (String.eqb (text o) lp
              && path_init_eq (texts_of h (parents o)) path) eqn:E.
    + intros H. injection H as <-. apply andb_prop in E as [E1 E2].
      apply String.eqb_eq in E1. split; [left; reflexivity|].
      exists o. rewrite E1. auto.
    + intros H. destruct (IH H) as [H1 H2]. split; [right; exact H1 | exact H2].
  - intros H. destruct (IH H) as [H1 H2]. split; [right; exact H1 | exact H2].
Qed.

(** A path that ends in some element never makes the loop fail. *)
Lemma get_object_loop_total (h : heap) (ps : list string) (p : string)
    (l : list nat) :
  exists r, get_object_loop h (PList (ps ++ [p])) l = Ok r.
Proof.
  induction l as [|i l IH]; simpl; [eexists; reflexivity|].
  destruct (h !! i) as [o|]; [|exact IH].
  rewrite last_snoc. destruct (_ && _); [eexists; reflexivity | exact IH].
Qed.

(** [expand_section] starts with the object it is called on. *)
Lemma expand_section_fuel_head (h : heap) (n : nat) :
  forall o S0, exists T, expand_section_fuel n h o S0 = S0 ++ o :: T.
Proof.
  induction n as [|n IH]; intros o S0; simpl.
  - exists []. reflexivity.
  - generalize (match h !! o with Some x => children x | None => [] end).
    intros kids.
    assert (H : forall acc, (exists T, acc = S0 ++ o :: T) ->
              exists T, fold_left
                (fun acc child => if obj_in h child acc then acc
                                  else expand_section_fuel n h child acc)
                kids acc = S0 ++ o :: T).
    { induction kids as [|k kids IHk]; intros acc [T HT]; simpl.
      - exists T. exact HT.
      - apply IHk. destruct (obj_in h k acc); [exists T; exact HT|].
        destruct (IH k acc) as [T' HT']. rewrite HT', HT.
        exists (T ++ k :: T'). rewrite <- app_assoc. reflexivity. }
    apply H. exists []. reflexivity.
Qed.

Lemma get_section_objects_found (h : heap) (c : CustomNetworkConfig)
    (l : list string) (a : nat) :
  get_object h c (PList l) = Ok (Some a) ->
  exists T, get_section_objects h c (PList l) = Ok (a :: T).
Proof.
  intros H. unfold get_section_objects. simpl. rewrite H. simpl.
  destruct (expand_section_fuel_head h (length h) a []) as [T HT].
  exists T. unfold expand_section. rewrite HT. reflexivity.
Qed.

Lemma bounded_Forall (n : nat) (l : list nat) :
  bounded n l = true <-> Forall (fun i => i < n) l.
Proof.
  unfold bounded. rewrite forallb_forall, List.Forall_forall.
  split; intros H x Hx; specialize (H x Hx); apply Nat.ltb_lt; exact H.
Qed.

Lemma In_lookup {A : Type} (l : list A) (x : A) :
  In x l -> exists i, l !! i = Some x.
Proof.
  induction l as [|y l IH]; intros H; [destruct H|].
  destruct H as [->|H]; [exists 0; reflexivity|].
  destruct (IH H) as [i Hi]. exists (S i). exact Hi.
Qed.

Lemma closed_spec (h : heap) (l : list nat) :
  closed h l = true <-> closedP h l.
Proof.
  unfold closed, closedP. rewrite andb_true_iff, bounded_Forall, forallb_forall.
  split; intros [H1 H2]; (split; [exact H1|]).
  - intros i o Hi. specialize (H2 o (lookup_In _ _ _ Hi)).
    apply andb_prop in H2 as [Ha Hb].
    split; apply bounded_Forall; assumption.
  - intros o Ho. destruct (In_lookup _ _ Ho) as [i Hi].
    destruct (H2 i o Hi) as [Ha Hb].
    apply andb_true_intro. split; apply bounded_Forall; assumption.
Qed.

Lemma Forall_lt_mono (n m : nat) (l : list nat) :
  n <= m -> Forall (fun i => i < n) l -> Forall (fun i => i < m) l.
Proof.
  intros Hnm H. eapply List.Forall_impl; [|exact H]. simpl. intros; lia.
Qed.

Lemma closedP_snoc (h : heap) (l : list nat) (obj : ConfigLine) :
  closedP h l ->
  Forall (fun p => p < length h) (parents obj) ->
  children obj = [] ->
  closedP (h ++ [obj]) (l ++ [length h]).
Proof.
  intros [H1 H2] Hp Hc. unfold closedP. rewrite length_app. simpl. split.
  - apply List.Forall_app. split.
    + apply (Forall_lt_mono (length h)); [lia | exact H1].
    + constructor; [lia | constructor].
  - intros i o Hi. apply lookup_app_Some in Hi as [Hi|[_ Hi]].
    + destruct (H2 i o Hi) as [Ha Hb].
      split; apply (Forall_lt_mono (length h)); (lia || assumption).
    + destruct (i - length h) as [|k]; [|destruct k; discriminate].
      injection Hi as <-. rewrite Hc. split; [|constructor].
      apply (Forall_lt_mono (length h)); [lia | exact Hp].
Qed.

Lemma closedP_append_child (h : heap) (l : list nat) (a c : nat) :
  closedP h l -> c < length h -> closedP (append_child h a c) l.
Proof.
  intros [H1 H2] Hc. unfold closedP. rewrite append_child_length.
  split; [exact H1|]. intros i o Hi. rewrite append_child_lookup in Hi.
  destruct (Nat.eqb i a).
  - destruct (h !! i) as [o0|] eqn:E; [|discriminate]. simpl in Hi.
    injection Hi as <-. destruct (H2 i o0 E) as [Ha Hb]. simpl.
    split; [exact Ha|]. apply List.Forall_app. split; [exact Hb|].
    constructor; [exact Hc | constructor].
  - exact (H2 i o Hi).
Qed.

(** * add: the loop over the parents *)

Lemma In_removelast {A : Type} (l : list A) (x : A) :
  In x (removelast l) -> In x l.
Proof.
  induction l as [|y l IH]; simpl; [auto|].
  destruct l as [|z l]; [intros []|].
  intros [->|H]; [left; reflexivity | right; apply IH; exact H].
Qed.

Lemma texts_of_length (h : heap) (l : list nat) :
  Forall (fun i => i < length h) l -> length (texts_of h l) = length l.
Proof.
  induction 1 as [|i l Hi _ IH]; [reflexivity|].
  rewrite texts_of_cons. apply lookup_lt_is_Some in Hi as [o Ho].
  rewrite Ho. simpl. rewrite IH. reflexivity.
Qed.

Lemma take_snoc_lookup (pars : list string) (k : nat) (p : string) :
  pars !! k = Some p -> take (S k) pars = take k pars ++ [p].
Proof. apply take_S_r. Qed.

(** The node found for a prefix of the parents has the text of the last
    parent of the prefix and carries the texts of the parents before it. *)
Lemma resolved_node (h : heap) (c : CustomNetworkConfig)
    (pars : list string) (k : nat) (p : string) (a : nat) :
  pars !! k = Some p ->
  get_object h c (PList (take (S k) pars)) = Ok (Some a) ->
  In a (items c)
  /\ exists o, h !! a = Some o /\ text o = p
       /\ texts_of h (parents o) = take k pars.
Proof.
  intros Hk H. rewrite (take_snoc_lookup pars k p Hk) in H.
  apply get_object_loop_Some in H as (Hin & o & Ho & Hl & Hi).
  split; [exact Hin|]. exists o. split; [exact Ho|].
  simpl in Hl. rewrite last_snoc in Hl. injection Hl as Hl.
  simpl in Hi. apply bool_decide_eq_true in Hi.
  rewrite removelast_last in Hi. auto.
Qed.

(** Two prefixes of different lengths never lead to the same object. *)
Lemma resolved_distinct (h : heap) (c : CustomNetworkConfig)
    (pars : list string) (j k : nat) (a : nat) :
  closedP h (items c) -> j < length pars -> k < length pars ->
  get_object h c (PList (take (S j) pars)) = Ok (Some a) ->
  get_object h c (PList (take (S k) pars)) = Ok (Some a) ->
  j = k.
Proof.
  intros Hc Hj Hk Gj Gk.
  apply lookup_lt_is_Some in Hj as [pj Hpj].
  apply lookup_lt_is_Some in Hk as [pk Hpk].
  destruct (resolved_node h c pars j pj a Hpj Gj) as (_ & o & Ho & _ & Tj).
  destruct (resolved_node h c pars k pk a Hpk Gk) as (_ & o' & Ho' & _ & Tk).
  rewrite Ho in Ho'. injection Ho' as <-.
  assert (E : length (take j pars) = length (take k pars)) by congruence.
  rewrite !length_take in E.
  apply lookup_lt_Some in Hpj. apply lookup_lt_Some in Hpk. lia.
Qed.

Lemma In_lookup_lt {A : Type} (l : list A) (x : A) :
  In x l -> exists k, k < length l /\ l !! k = Some x.
Proof.
  intros H. destruct (In_lookup l x H) as [k Hk].
  exists k. split; [apply (lookup_lt_Some _ _ _ Hk) | exact Hk].
Qed.

(** One round of the loop where the parent is found. *)
Lemma add_parent_found (pars : list string) (h0 : heap) (index : nat)
    (p : string) (h : heap) (c : CustomNetworkConfig) (anc : list nat)
    (a : nat) :
  add_inv pars h0 index (h, c, anc) ->
  pars !! index = Some p ->
  get_object h c (PList (take (S index) pars)) = Ok (Some a) ->
  add_parent pars index p (h, c, anc) = Ok (h, c, anc ++ [a])
  /\ add_inv pars h0 (S index) (h, c, anc ++ [a]).
Proof.
  intros (Hc & He & Hle & Hlen & Hb & Ht & Hnd & Hres & Hch) Hp Hg.
  split.
  - unfold add_parent. rewrite Nat.add_1_r.
    destruct (get_section_objects_found h c _ a Hg) as [T HT].
    rewrite HT. reflexivity.
  - destruct (resolved_node h c pars index p a Hp Hg) as (Hin & o & Ho & Hto & Hpo).
    pose proof (lookup_lt_Some _ _ _ Hp) as Hidx.
    pose proof (lookup_lt_Some _ _ _ Ho) as Ha.
    unfold add_inv.
    split; [exact Hc|]. split; [exact He|]. split; [lia|].
    split; [rewrite length_app; simpl; lia|].
    split; [apply List.Forall_app; split; [exact Hb|];
            constructor; [exact Ha|constructor]|].
    split; [rewrite texts_of_app, Ht, texts_of_cons, Ho, Hto;
            symmetry; apply take_S_r; exact Hp|].
    split; [|split].
    + apply NoDup_app. split; [exact Hnd|]. split; [|apply NoDup_singleton].
      intros x Hx Hx'. apply list_elem_of_In in Hx.
      apply list_elem_of_In in Hx'. destruct Hx' as [<-|[]].
      destruct (In_lookup_lt _ _ Hx) as (k & Hk & Hka).
      assert (k = index).
      { apply (resolved_distinct h c pars k index a Hc); [lia | lia | | exact Hg].
        apply Hres. exact Hka. }
      lia.
    + intros k x Hk. apply lookup_app_Some in Hk as [Hk|[Hge Hk]].
      * apply Hres. exact Hk.
      * rewrite Hlen in Hge, Hk.
        destruct (k - index) as [|m] eqn:E; [|destruct m; discriminate].
        injection Hk as <-. assert (k = index) as -> by lia. exact Hg.
    + intros x Hx. apply Hch. intros Hx'. apply Hx.
      rewrite removelast_last. apply In_removelast. exact Hx'.
Qed.

Lemma get_object_loop_grow (h h' : heap) (path : pypath) (l : list nat) :
  extends h h' -> closedP h l ->
  get_object_loop h' path l = get_object_loop h path l.
Proof.
  intros He Hc. apply (get_object_loop_extends h h' path l l He).
  - apply closed_spec. exact Hc.
  - apply bounded_Forall. exact (proj1 Hc).
Qed.

Lemma texts_of_grow (h h' : heap) (l : list nat) :
  extends h h' -> Forall (fun i => i < length h) l ->
  texts_of h' l = texts_of h l.
Proof.
  intros He Hl. apply texts_of_extends; [exact He|].
  apply bounded_Forall. exact Hl.
Qed.

Lemma children_of_append_child_other (h : heap) (a c x : nat) :
  x <> a -> children_of (append_child h a c) x = children_of h x.
Proof.
  intros Hx. unfold children_of. rewrite append_child_lookup.
  apply Nat.eqb_neq in Hx. rewrite Hx. reflexivity.
Qed.

Lemma children_of_snoc (h : heap) (obj : ConfigLine) (x : nat) :
  children obj = [] -> children_of (h ++ [obj]) x = children_of h x.
Proof.
  intros Hobj. unfold children_of.
  destruct (h !! x) as [o|] eqn:E.
  - rewrite (lookup_app_l_Some _ _ _ _ E). reflexivity.
  - destruct ((h ++ [obj]) !! x) as [o|] eqn:E'; [|reflexivity].
    apply lookup_app_Some in E' as [E'|[_ E']]; [congruence|].
    destruct (x - length h) as [|k]; [|destruct k; discriminate].
    injection E' as <-. exact Hobj.
Qed.

Lemma hook_parent_length (h : heap) (anc : list nat) (obj : ConfigLine) :
  length (hook_parent h anc obj) = S (length h).
Proof.
  unfold hook_parent. destruct (last anc).
  - rewrite append_child_length, length_app. simpl. lia.
  - rewrite length_app. simpl. lia.
Qed.

Lemma hook_parent_extends (h : heap) (anc : list nat) (obj : ConfigLine) :
  extends h (hook_parent h anc obj).
Proof.
  unfold hook_parent. destruct (last anc).
  - eapply extends_trans; [apply extends_snoc | apply extends_append_child].
  - apply extends_snoc.
Qed.

Lemma hook_parent_new (h : heap) (anc : list nat) (obj : ConfigLine) :
  Forall (fun a => a < length h) anc ->
  hook_parent h anc obj !! length h = Some obj.
Proof.
  intros Hb. unfold hook_parent.
  assert (Hnew : (h ++ [obj]) !! length h = Some obj).
  { rewrite lookup_app_r by lia. rewrite Nat.sub_diag. reflexivity. }
  destruct (last anc) as [a|] eqn:E; [|exact Hnew].
  rewrite append_child_lookup.
  assert (a < length h).
  { rewrite List.Forall_forall in Hb. apply Hb. apply last_In. exact E. }
  destruct (Nat.eqb_spec (length h) a); [lia | exact Hnew].
Qed.

Lemma hook_parent_closed (h : heap) (l anc : list nat) (obj : ConfigLine) :
  closedP h l ->
  Forall (fun p => p < length h) (parents obj) ->
  children obj = [] ->
  closedP (hook_parent h anc obj) (l ++ [length h]).
Proof.
  intros Hc Hp Hk. unfold hook_parent.
  pose proof (closedP_snoc h l obj Hc Hp Hk) as H.
  destruct (last anc); [|exact H].
  apply closedP_append_child; [exact H|]. rewrite length_app. simpl. lia.
Qed.

Lemma hook_parent_children (h : heap) (anc : list nat) (obj : ConfigLine)
    (x : nat) :
  children obj = [] -> ~ In x anc ->
  children_of (hook_parent h anc obj) x = children_of h x.
Proof.
  intros Hk Hx. unfold hook_parent.
  destruct (last anc) as [a|] eqn:E.
  - rewrite children_of_append_child_other.
    + apply children_of_snoc. exact Hk.
    + intros ->. apply Hx. apply last_In. exact E.
  - apply children_of_snoc. exact Hk.
Qed.

(** One round of the loop where the parent is missing and is made. *)
Lemma add_parent_created (pars : list string) (h0 : heap) (index : nat)
    (p : string) (h : heap) (c : CustomNetworkConfig) (anc : list nat) :
  add_inv pars h0 index (h, c, anc) ->
  pars !! index = Some p ->
  get_object h c (PList (take (S index) pars)) = Ok None ->
  exists h' c',
    add_parent pars index p (h, c, anc) = Ok (h', c', anc ++ [length h])
    /\ add_inv pars h0 (S index) (h', c', anc ++ [length h]).
Proof.
  intros (Hc & He & Hle & Hlen & Hb & Ht & Hnd & Hres & Hch) Hp Hg.
  set (obj := mkConfigLine p
                (PyStr.rjust p (String.length p + index * indent c)) anc []).
  exists (hook_parent h anc obj),
         (mkConfig (indent c) (items c ++ [length h]) (_device_os c)).
  pose proof (lookup_lt_Some _ _ _ Hp) as Hidx.
  pose proof (hook_parent_extends h anc obj) as Hext.
  pose proof (hook_parent_new h anc obj Hb) as Hnew.
  pose proof (hook_parent_length h anc obj) as Hlength.
  assert (Hfresh : ~ In (length h) anc).
  { intros H. rewrite List.Forall_forall in Hb. specialize (Hb _ H). lia. }
  split.
  - unfold add_parent. rewrite Nat.add_1_r.
    unfold get_section_objects. cbn [as_list_path]. rewrite Hg. cbn [bind].
    unfold hook_parent, obj. destruct anc; reflexivity.
  - unfold add_inv.
    split; [apply hook_parent_closed; [exact Hc | exact Hb | reflexivity]|].
    split; [eapply extends_trans; [exact He | exact Hext]|].
    split; [lia|].
    split; [rewrite length_app; simpl; lia|].
    split.
    { rewrite Hlength. apply List.Forall_app. split.
      - apply (Forall_lt_mono (length h)); [lia | exact Hb].
      - constructor; [lia | constructor]. }
    split.
    { rewrite texts_of_app, (texts_of_grow h _ anc Hext Hb), Ht.
      rewrite texts_of_cons, Hnew. symmetry. apply take_S_r. exact Hp. }
    split; [|split].
    + apply NoDup_app. split; [exact Hnd|]. split; [|apply NoDup_singleton].
      intros x Hx Hx'. apply list_elem_of_In in Hx.
      apply list_elem_of_In in Hx'. destruct Hx' as [<-|[]].
      exact (Hfresh Hx).
    + intros k x Hk. unfold get_object. cbn [items _config].
      rewrite get_object_loop_app.
      rewrite (get_object_loop_grow h _ _ (items c) Hext Hc).
      apply lookup_app_Some in Hk as [Hk|[Hge Hk]].
      * specialize (Hres k x Hk). unfold get_object in Hres.
        rewrite Hres. reflexivity.
      * rewrite Hlen in Hge, Hk.
        destruct (k - index) as [|m] eqn:E; [|destruct m; discriminate].
        injection Hk as <-. assert (k = index) as -> by lia.
        unfold get_object in Hg. rewrite Hg.
        rewrite (take_S_r _ _ _ Hp). cbn [get_object_loop].
        rewrite Hnew. cbn [path_last path_init_eq].
        rewrite last_snoc, removelast_last.
        change (text obj) with p. change (parents obj) with anc.
        rewrite String.eqb_refl.
        rewrite (texts_of_grow h _ anc Hext Hb), Ht.
        rewrite bool_decide_eq_true_2 by reflexivity. reflexivity.
    + intros x Hx. rewrite removelast_last in Hx.
      rewrite hook_parent_children by (reflexivity || exact Hx).
      apply Hch. intros Hx'. apply Hx. apply In_removelast. exact Hx'.
Qed.

Lemma drop_cons_lookup {A : Type} (l : list A) (n : nat) (x : A) (r : list A) :
  drop n l = x :: r -> l !! n = Some x /\ drop (S n) l = r.
Proof.
  intros H. assert (Hx : l !! n = Some x).
  { rewrite <- (Nat.add_0_r n), <- lookup_drop, H. reflexivity. }
  split; [exact Hx|]. rewrite (drop_S l x n Hx) in H. congruence.
Qed.

(** The whole loop over the parents ends normally and keeps [add_inv]. *)
Lemma add_parents_loop (pars : list string) (h0 : heap) (todo : list string) :
  forall index st,
    drop index pars = todo -> add_inv pars h0 index st ->
    exists st', add_parents pars index todo st = Ok st'
                /\ add_inv pars h0 (length pars) st'.
Proof.
  induction todo as [|p todo IH]; intros index [[h c] anc] Hd Hinv.
  - exists (h, c, anc). split; [reflexivity|].
    assert (index = length pars) as ->; [|exact Hinv].
    destruct Hinv as (_ & _ & Hle & _).
    apply (f_equal length) in Hd. rewrite length_drop in Hd. simpl in Hd. lia.
  - destruct (drop_cons_lookup _ _ _ _ Hd) as [Hp Hd'].
    destruct (get_object_loop_total h (take index pars) p (items c)) as [r Hr].
    rewrite <- (take_S_r _ _ _ Hp) in Hr.
    cbn [add_parents]. destruct r as [a|].
    + destruct (add_parent_found pars h0 index p h c anc a Hinv Hp Hr)
        as [Hstep Hinv'].
      rewrite Hstep. cbn [bind]. apply IH; assumption.
    + destruct (add_parent_created pars h0 index p h c anc Hinv Hp Hr)
        as (h' & c' & Hstep & Hinv').
      rewrite Hstep. cbn [bind]. apply IH; assumption.
Qed.

(** When every prefix of the parents already leads to its ancestor, the
    loop changes nothing and collects these ancestors. *)
Lemma add_parents_again (pars : list string) (h : heap)
    (c : CustomNetworkConfig) (anc : list nat) :
  length anc = length pars ->
  (forall k a, anc !! k = Some a ->
     get_object h c (PList (take (S k) pars)) = Ok (Some a)) ->
  forall todo index,
    drop index pars = todo ->
    add_parents pars index todo (h, c, take index anc) = Ok (h, c, anc).
Proof.
  intros Hlen Hres. induction todo as [|p todo IH]; intros index Hd.
  - simpl. rewrite take_ge; [reflexivity|].
    apply (f_equal length) in Hd. rewrite length_drop in Hd. simpl in Hd. lia.
  - destruct (drop_cons_lookup _ _ _ _ Hd) as [Hp Hd'].
    assert (Hi : index < length anc).
    { rewrite Hlen. apply (lookup_lt_Some _ _ _ Hp). }
    apply lookup_lt_is_Some in Hi as [a Ha].
    cbn [add_parents]. unfold add_parent. rewrite Nat.add_1_r.
    destruct (get_section_objects_found h c _ a (Hres index a Ha)) as [T HT].
    rewrite HT. cbn [bind]. rewrite <- (take_S_r _ _ _ Ha). apply IH. exact Hd'.
Qed.

Lemma existsb_filter_nil {A : Type} (f : A -> bool) (l : list A) :
  existsb f l = false -> List.filter f l = [].
Proof.
  induction l as [|x l IH]; simpl; [reflexivity|].
  destruct (f x); simpl; [discriminate | exact IH].
Qed.

Lemma existsb_filter_pos {A : Type} (f : A -> bool) (l : list A) :
  existsb f l = true -> 1 <= length (List.filter f l).
Proof.
  induction l as [|x l IH]; simpl; [discriminate|].
  destruct (f x); simpl; [lia | exact IH].
Qed.

Lemma children_of_bounded (h : heap) (l : list nat) (a : nat) :
  closedP h l -> Forall (fun k => k < length h) (children_of h a).
Proof.
  intros [_ H]. unfold children_of. destruct (h !! a) as [o|] eqn:E.
  - exact (proj2 (H a o E)).
  - constructor.
Qed.

(** The step that adds the line under the last ancestor [a]. *)
Lemma add_child_step (h : heap) (c : CustomNetworkConfig) (n : nat)
    (anc : list nat) (a : nat) (line : string) :
  closedP h (items c) -> Forall (fun q => q < length h) anc ->
  last anc = Some a -> a < length h ->
  exists h' c',
    add_child n anc (Ok (h, c)) line = Ok (h', c')
    /\ closedP h' (items c')
    /\ extends h h'
    /\ (exists new, items c' = items c ++ new)
    /\ existsb (fun t => String.eqb t line) (texts_of h' (children_of h' a)) = true
    /\ copies_under h' a line = Nat.max 1 (copies_under h a line).
Proof.
  intros Hc Hanc Hlast Ha. unfold add_child. cbn [bind]. rewrite Hlast.
  fold (children_of h a).
  destruct (existsb (fun t => String.eqb t line) (texts_of h (children_of h a)))
    eqn:E.
  - exists h, c. split; [reflexivity|]. split; [exact Hc|].
    split; [apply extends_refl|].
    split; [exists []; rewrite app_nil_r; reflexivity|]. split; [exact E|].
    unfold copies_under. pose proof (existsb_filter_pos _ _ E). lia.
  - set (item := mkConfigLine line
                   (PyStr.rjust line (String.length line + n * indent c)) anc []).
    exists (append_child (h ++ [item]) a (length h)),
           (mkConfig (indent c) (items c ++ [length h]) (_device_os c)).
    assert (Hext : extends h (append_child (h ++ [item]) a (length h))).
    { eapply extends_trans; [apply extends_snoc | apply extends_append_child]. }
    assert (Hkids : children_of (append_child (h ++ [item]) a (length h)) a
                    = children_of h a ++ [length h]).
    { unfold children_of. rewrite append_child_lookup, Nat.eqb_refl.
      apply lookup_lt_is_Some in Ha as [oa Hoa].
      rewrite (lookup_app_l_Some _ _ _ _ Hoa), Hoa. reflexivity. }
    assert (Hnew : append_child (h ++ [item]) a (length h) !! length h = Some item).
    { rewrite append_child_lookup.
      destruct (Nat.eqb_spec (length h) a); [lia|].
      rewrite lookup_app_r by lia. rewrite Nat.sub_diag. reflexivity. }
    assert (Htexts : texts_of (append_child (h ++ [item]) a (length h))
                       (children_of h a ++ [length h])
                     = texts_of h (children_of h a) ++ [line]).
    { rewrite texts_of_app, texts_of_cons, Hnew.
      rewrite (texts_of_grow h _ _ Hext (children_of_bounded h _ a Hc)).
      reflexivity. }
    split; [reflexivity|].
    split.
    { apply closedP_append_child.
      - apply (closedP_snoc h (items c) item Hc Hanc eq_refl).
      - rewrite length_app. simpl. lia. }
    split; [exact Hext|].
    split; [exists [length h]; reflexivity|].
    rewrite Hkids, Htexts. split.
    + rewrite existsb_app. simpl. rewrite String.eqb_refl.
      rewrite orb_true_r. reflexivity.
    + unfold copies_under. rewrite Hkids, Htexts, List.filter_app.
      rewrite (existsb_filter_nil _ _ E). simpl.
      rewrite String.eqb_refl. reflexivity.
Qed.

Lemma NoDup_last_not_in_removelast (l : list nat) (a : nat) :
  NoDup l -> last l = Some a -> ~ In a (removelast l).
Proof.
  intros Hnd Hl Hin.
  assert (E : l = removelast l ++ [a]).
  { destruct l as [|x l]; [discriminate|].
    rewrite (app_removelast_last a) at 1 by discriminate.
    f_equal. f_equal.
    clear -Hl. revert x Hl. induction l as [|y l IH]; intros x Hl; simpl in *.
    - congruence.
    - apply (IH y). exact Hl. }
  rewrite E in Hnd. apply NoDup_app in Hnd as (_ & Hd & _).
  apply (Hd a); [apply list_elem_of_In; exact Hin|].
  apply list_elem_of_In. left. reflexivity.
Qed.

(** add under a non-empty chain of parents: the call ends normally, a
    second call with the same arguments changes nothing, and the deepest
    parent ends with one child of that text if it had none, with the
    children it had otherwise. *)
Lemma add_under_parents (h : heap) (c : CustomNetworkConfig) (line p : string)
    (ps : list string) :
  closedP h (items c) ->
  exists h1 c1 a,
    add h c (AStr line) (p :: ps) = Ok (h1, c1)
    /\ closedP h1 (items c1)
    /\ add h1 c1 (AStr line) (p :: ps) = Ok (h1, c1)
    /\ get_object h1 c1 (PList (p :: ps)) = Ok (Some a)
    /\ copies_under h1 a line = Nat.max 1 (copies_under h a line).
Proof.
  intros Hc. set (pars := p :: ps).
  assert (Hinit : add_inv pars h 0 (h, c, [])).
  { unfold add_inv. split; [exact Hc|]. split; [apply extends_refl|].
    split; [lia|]. split; [reflexivity|]. split; [constructor|].
    split; [reflexivity|]. split; [constructor|].
    split; [intros k a Hk; destruct k; discriminate | reflexivity]. }
  destruct (add_parents_loop pars h pars 0 (h, c, []) eq_refl Hinit)
    as ([[h1 c1] anc] & Hloop & Hinv).
  destruct Hinv as (Hc1 & He1 & _ & Hlen & Hb & Ht & Hnd & Hres & Hch).
  assert (Hlast : exists a, last anc = Some a) .
  { destruct anc as [|x anc]; [discriminate|].
    rewrite last_lookup. apply lookup_lt_is_Some. simpl. lia. }
  destruct Hlast as [a Hlast].
  assert (Ha : a < length h1).
  { rewrite List.Forall_forall in Hb. apply Hb. apply last_In. exact Hlast. }
  assert (Hkids : children_of h1 a = children_of h a).
  { apply Hch. apply NoDup_last_not_in_removelast; assumption. }
  assert (Hcopies : copies_under h1 a line = copies_under h a line).
  { unfold copies_under. rewrite Hkids.
    rewrite (texts_of_grow h h1 _ He1 (children_of_bounded h _ a Hc)).
    reflexivity. }
  destruct (add_child_step h1 c1 (length pars) anc a line Hc1 Hb Hlast Ha)
    as (h2 & c2 & Hstep & Hc2 & He2 & [new Hnew] & Hex & Hcount).
  assert (Hres2 : forall k x, anc !! k = Some x ->
            get_object h2 c2 (PList (take (S k) pars)) = Ok (Some x)).
  { intros k x Hk. specialize (Hres k x Hk). unfold get_object in *.
    rewrite Hnew, get_object_loop_app.
    rewrite (get_object_loop_grow h1 h2 _ (items c1) He2 Hc1), Hres.
    reflexivity. }
  exists h2, c2, a.
  split; [|split; [exact Hc2|split; [|split]]].
  - unfold add. fold pars. rewrite Hloop. cbn [bind to_list fold_left].
    exact Hstep.
  - unfold add. fold pars.
    change (add_parents pars 0 pars (h2, c2, []))
      with (add_parents pars 0 pars (h2, c2, take 0 anc)).
    rewrite (add_parents_again pars h2 c2 anc Hlen Hres2 pars 0 eq_refl).
    cbn [bind to_list fold_left]. unfold add_child. cbn [bind].
    rewrite Hlast. fold (children_of h2 a). rewrite Hex. reflexivity.
  - rewrite last_lookup in Hlast.
    specialize (Hres2 _ _ Hlast). rewrite Hlen in Hres2.
    rewrite take_ge in Hres2 by (simpl; lia). exact Hres2.
  - rewrite Hcount, Hcopies. reflexivity.
Qed.

(** A new top-level [ConfigLine(line)] equals a node exactly when the
    node has that text and no parents. *)
Lemma ConfigLine_eq_fresh (h : heap) (line r : string) (o : ConfigLine) :
  ConfigLine_eq h (mkConfigLine line r [] []) o =
    String.eqb line (text o)
    && match parents o with [] => true | _ :: _ => false end.
Proof.
  unfold ConfigLine_eq. cbn [ConfigLine_eq_fuel text parents].
  destruct (String.eqb line (text o)); [|reflexivity].
  destruct (parents o); reflexivity.
Qed.

Lemma fresh_test_snoc (h : heap) (item x : ConfigLine) (y : nat) :
  y < length h ->
  match (h ++ [x]) !! y with
  | Some oy => ConfigLine_eq (h ++ [x]) (mkConfigLine (text item) (text item) [] []) oy
  | None => false
  end =
  match h !! y with
  | Some oy => ConfigLine_eq h (mkConfigLine (text item) (text item) [] []) oy
  | None => false
  end.
Proof.
  intros Hy. rewrite lookup_app_l by exact Hy.
  destruct (h !! y); [|reflexivity]. rewrite !ConfigLine_eq_fresh. reflexivity.
Qed.

(** add without parents. *)
Lemma add_toplevel (h : heap) (c : CustomNetworkConfig) (line : string) :
  closedP h (items c) ->
  exists h1 c1,
    add h c (AStr line) [] = Ok (h1, c1)
    /\ closedP h1 (items c1)
    /\ add h1 c1 (AStr line) [] = Ok (h1, c1)
    /\ copies_toplevel h1 c1 line = Nat.max 1 (copies_toplevel h c line).
Proof.
  intros Hc. pose proof (proj1 Hc) as Hb. unfold add. cbn [to_list fold_left].
  destruct (fresh_in h (mkConfigLine line line [] []) (items c)) eqn:E.
  - assert (Hg : add_global (h, c) line = (h, c)).
    { unfold add_global. rewrite E. reflexivity. }
    exists h, c. rewrite !Hg. split; [reflexivity|]. split; [exact Hc|].
    split; [reflexivity|].
    unfold copies_toplevel. pose proof (existsb_filter_pos _ _ E). lia.
  - set (item := mkConfigLine line line [] []).
    set (c1 := mkConfig (indent c) (items c ++ [length h]) (_device_os c)).
    assert (Hg : add_global (h, c) line = (h ++ [item], c1)).
    { unfold add_global. rewrite E. reflexivity. }
    assert (Hold : forall y, In y (items c) ->
      match (h ++ [item]) !! y with
      | Some oy => ConfigLine_eq (h ++ [item]) item oy
      | None => false
      end =
      match h !! y with
      | Some oy => ConfigLine_eq h item oy
      | None => false
      end).
    { intros y Hy. apply (fresh_test_snoc h item item y).
      rewrite List.Forall_forall in Hb. apply Hb. exact Hy. }
    assert (Hnew :
      match (h ++ [item]) !! length h with
      | Some oy => ConfigLine_eq (h ++ [item]) item oy
      | None => false
      end = true).
    { rewrite lookup_app_r by lia. rewrite Nat.sub_diag. cbn [lookup list_lookup].
      unfold item. rewrite ConfigLine_eq_fresh. cbn [text parents].
      rewrite String.eqb_refl. reflexivity. }
    assert (Hin : fresh_in (h ++ [item]) item (items c1) = true).
    { unfold fresh_in, c1. cbn [items _config].
      rewrite existsb_app. cbn [existsb]. rewrite Hnew.
      rewrite !orb_true_r. reflexivity. }
    exists (h ++ [item]), c1. rewrite Hg.
    split; [reflexivity|].
    split; [apply (closedP_snoc h (items c) item Hc); [constructor | reflexivity]|].
    split.
    + unfold add_global. fold item. rewrite Hin. reflexivity.
    + unfold copies_toplevel. fold item. unfold c1 at 1. cbn [items _config].
      rewrite List.filter_app. cbn [List.filter]. rewrite Hnew.
      rewrite (List.filter_ext_in _ _ _ Hold).
      unfold fresh_in in E. fold item in E.
      rewrite (existsb_filter_nil _ _ E). reflexivity.
Qed.

(** C6.  On a store without dangling references, [add] with one line
    ends normally, leaves such a store, and calling it again with the same
    line and the same parents changes nothing.  The deepest parent (the
    node that the parents resolve to afterwards) has exactly one child
    with that text when it had none before; without parents, the tree has
    exactly one node equal to a top-level node of that text when it had
    none before.  A node that was there before is kept and none is
    added. *)
Theorem add_idempotent (h : heap) (c : CustomNetworkConfig) (line : string)
    (pars : list string) :
  closed h (items c) = true ->
  exists h1 c1,
    add h c (AStr line) pars = Ok (h1, c1)
    /\ closed h1 (items c1) = true
    /\ add h1 c1 (AStr line) pars = Ok (h1, c1)
    /\ match pars with
       | [] => copies_toplevel h1 c1 line = Nat.max 1 (copies_toplevel h c line)
       | _ :: _ =>
           exists a, get_object h1 c1 (PList pars) = Ok (Some a)
                     /\ copies_under h1 a line = Nat.max 1 (copies_under h a line)
       end.
Proof.
  intros Hc. apply closed_spec in Hc. destruct pars as [|p ps].
  - destruct (add_toplevel h c line Hc) as (h1 & c1 & H1 & H2 & H3 & H4).
    exists h1, c1. split; [exact H1|]. split; [apply closed_spec; exact H2|].
    split; assumption.
  - destruct (add_under_parents h c line p ps Hc)
      as (h1 & c1 & a & H1 & H2 & H3 & H4 & H5).
    exists h1, c1. split; [exact H1|]. split; [apply closed_spec; exact H2|].
    split; [exact H3|]. exists a. split; assumption.
Qed.

Lemma add_idempotent_witness :
  exists h1 c1,
    add acl_heap (mkConfig 2 [0; 1] None) (AStr "20 permit tcp any any")
        [acl_parent] = Ok (h1, c1)
    /\ closed h1 (items c1) = true
    /\ add h1 c1 (AStr "20 permit tcp any any") [acl_parent] = Ok (h1, c1)
    /\ exists a, get_object h1 c1 (PList [acl_parent]) = Ok (Some a)
         /\ copies_under h1 a "20 permit tcp any any"
            = Nat.max 1 (copies_under acl_heap a "20 permit tcp any any").
Proof.
  apply (add_idempotent acl_heap (mkConfig 2 [0; 1] None)
           "20 permit tcp any any" [acl_parent]).
  vm_compute; reflexivity.
Defined.


(** * ConfigLine.__eq__ on chained stores *)

Lemma py_list_eq_Forall2 {A : Type} (f : A -> A -> bool) (l1 l2 : list A) :
  py_list_eq f l1 l2 = true <-> Forall2 (fun x y => f x y = true) l1 l2.
Proof.
  revert l2. induction l1 as [|x l1 IH]; intros [|y l2]; simpl.
  - split; [constructor | reflexivity].
  - split; [discriminate | intros H; inversion H].
  - split; [discriminate | intros H; inversion H].
  - rewrite andb_true_iff, IH. split.
    + intros [H1 H2]. constructor; assumption.
    + intros H. inversion H; subst. split; assumption.
Qed.

Lemma texts_of_map (h : heap) (l : list nat) :
  Forall (fun q => q < length h) l -> texts_of h l = map (text_at h) l.
Proof.
  induction 1 as [|q l Hq _ IH]; [reflexivity|].
  apply lookup_lt_is_Some in Hq as [o Ho].
  rewrite texts_of_cons, Ho, IH. simpl. f_equal.
  unfold text_at. rewrite Ho. reflexivity.
Qed.

Lemma chained_parents_valid (h : heap) (i : nat) (o : ConfigLine) :
  chained h -> h !! i = Some o -> Forall (fun q => q < length h) (parents o).
Proof.
  intros Hch Hi. apply List.Forall_forall. intros q Hq.
  destruct (In_lookup _ _ Hq) as [j Hj].
  exact (proj1 (proj2 (Hch i o Hi j q Hj))).
Qed.

Lemma chained_length (h : heap) (i : nat) (o : ConfigLine) :
  chained h -> h !! i = Some o -> length (parents o) <= length h.
Proof.
  intros Hch Hi. destruct (parents o) as [|x l] eqn:E; [simpl; lia|].
  assert (Hl : is_Some (parents o !! (length (parents o) - 1))).
  { apply lookup_lt_is_Some. rewrite E. simpl. lia. }
  destruct Hl as [q Hq]. destruct (Hch i o Hi _ q Hq) as (H1 & H2 & _).
  rewrite <- E. lia.
Qed.

Lemma map_eq_lookup {A B : Type} (f : A -> B) (l1 l2 : list A) :
  map f l1 = map f l2 <->
  length l1 = length l2
  /\ forall j x y, l1 !! j = Some x -> l2 !! j = Some y -> f x = f y.
Proof.
  revert l2. induction l1 as [|a l1 IH]; intros [|b l2]; simpl.
  - split; [|reflexivity]. intros _. split; [reflexivity|].
    intros j x y H. destruct j; discriminate.
  - split; [discriminate | intros [H _]; discriminate].
  - split; [discriminate | intros [H _]; discriminate].
  - split.
    + intros H. injection H as Hab Hl. apply IH in Hl as [Hlen Hpt].
      split; [lia|]. intros [|j] x y Hx Hy; simpl in *.
      * congruence.
      * exact (Hpt j x y Hx Hy).
    + intros [Hlen Hpt]. f_equal.
      * exact (Hpt 0 a b eq_refl eq_refl).
      * apply IH. split; [lia|]. intros j x y Hx Hy.
        exact (Hpt (S j) x y Hx Hy).
Qed.

(** With fuel above the number of parents, [__eq__] on a chained store
    holds exactly when the texts and the parent texts are equal. *)
Lemma ConfigLine_eq_fuel_chain (h : heap) :
  chained h ->
  forall n ia ib oa ob,
    h !! ia = Some oa -> h !! ib = Some ob ->
    length (parents oa) < n ->
    (ConfigLine_eq_fuel n h oa ob = true <->
     text oa = text ob
     /\ texts_of h (parents oa) = texts_of h (parents ob)).
Proof.
  intros Hch. induction n as [|n IH]; intros ia ib oa ob Ha Hb Hn; [lia|].
  pose proof (chained_parents_valid h ia oa Hch Ha) as Hva.
  pose proof (chained_parents_valid h ib ob Hch Hb) as Hvb.
  rewrite (texts_of_map h _ Hva), (texts_of_map h _ Hvb), map_eq_lookup.
  cbn [ConfigLine_eq_fuel].
  destruct (String.eqb_spec (text oa) (text ob)) as [Et|Et];
    [|split; [discriminate | intros [H _]; contradiction]].
  rewrite py_list_eq_Forall2, Forall2_same_length_lookup.
  assert (Hstep : forall j x y,
            parents oa !! j = Some x -> parents ob !! j = Some y ->
            length (parents oa) = length (parents ob) ->
            (forall k x' y', k < j -> parents oa !! k = Some x' ->
               parents ob !! k = Some y' -> text_at h x' = text_at h y') ->
            ((Nat.eqb x y
              || match h !! x, h !! y with
                 | Some ox, Some oy => ConfigLine_eq_fuel n h ox oy
                 | _, _ => false
                 end) = true
             <-> text_at h x = text_at h y)).
  { intros j x y Hx Hy Hlen Hbelow.
    destruct (Hch ia oa Ha j x Hx) as (_ & _ & ox & Hox & Hpx).
    destruct (Hch ib ob Hb j y Hy) as (_ & _ & oy & Hoy & Hpy).
    unfold text_at. rewrite Hox, Hoy.
    pose proof (lookup_lt_Some _ _ _ Hx) as Hj.
    assert (Hfuel : length (parents ox) < n).
    { rewrite Hpx, length_take. lia. }
    rewrite orb_true_iff, (IH x y ox oy Hox Hoy Hfuel), Nat.eqb_eq.
    split.
    - intros [->|[H _]]; [congruence | exact H].
    - intros Htxt. right. split; [exact Htxt|].
      pose proof (chained_parents_valid h x ox Hch Hox) as Hvx.
      pose proof (chained_parents_valid h y oy Hch Hoy) as Hvy.
      rewrite (texts_of_map h _ Hvx), (texts_of_map h _ Hvy), Hpx, Hpy.
      apply map_eq_lookup. split; [rewrite !length_take; lia|].
      intros k x' y' Hx' Hy'.
      apply lookup_take_Some in Hx' as [Hx' Hk].
      apply lookup_take_Some in Hy' as [Hy' _].
      exact (Hbelow k x' y' Hk Hx' Hy'). }
  split.
  - intros [Hlen Hall]. split; [exact Et|]. split; [exact Hlen|].
    intros j. induction j as [j IHj] using lt_wf_ind. intros x y Hx Hy.
    apply (Hstep j x y Hx Hy Hlen); [|exact (Hall j x y Hx Hy)].
    intros k x' y' Hk Hx' Hy'. exact (IHj k Hk x' y' Hx' Hy').
  - intros [_ [Hlen Hpt]]. split; [exact Hlen|].
    intros j x y Hx Hy. apply (Hstep j x y Hx Hy Hlen).
    + intros k x' y' _ Hx' Hy'. exact (Hpt k x' y' Hx' Hy').
    + exact (Hpt j x y Hx Hy).
Qed.

(** On a chained store two nodes are equal by [__eq__] exactly when they
    have the same text and the same chain of parent texts. *)
Lemma obj_eq_text_chain (h : heap) (a b : nat) (oa ob : ConfigLine) :
  chained h -> h !! a = Some oa -> h !! b = Some ob ->
  (obj_eq h a b = true <->
   text oa = text ob /\ texts_of h (parents oa) = texts_of h (parents ob)).
Proof.
  intros Hch Ha Hb. unfold obj_eq, ConfigLine_eq. rewrite Ha, Hb.
  apply (ConfigLine_eq_fuel_chain h Hch _ a b oa ob Ha Hb).
  pose proof (chained_length h a oa Hch Ha). lia.
Qed.

(** * The parser keeps the store closed and chained *)

Lemma extends_chain_step (h h' : heap) (l : list nat) :
  extends h h' ->
  (forall j q, l !! j = Some q ->
     j <= q /\ q < length h /\ exists oq, h !! q = Some oq /\ parents oq = take j l) ->
  forall j q, l !! j = Some q ->
    j <= q /\ q < length h' /\ exists oq, h' !! q = Some oq /\ parents oq = take j l.
Proof.
  intros [Hlen He] H j q Hj. destruct (H j q Hj) as (H1 & H2 & oq & Hoq & Hp).
  split; [exact H1|]. split; [lia|].
  destruct (He q oq Hoq) as (o' & Ho' & _ & Hp'). exists o'.
  split; [exact Ho' | congruence].
Qed.

Lemma chained_snoc (h : heap) (node : ConfigLine) :
  chained h ->
  (forall j q, parents node !! j = Some q ->
     j <= q /\ q < length h
     /\ exists oq, h !! q = Some oq /\ parents oq = take j (parents node)) ->
  chained (h ++ [node]).
Proof.
  intros Hch Hnode i o Hi.
  apply lookup_app_Some in Hi as [Hi|[_ Hi]].
  - apply (extends_chain_step h _ (parents o) (extends_snoc h node)).
    exact (Hch i o Hi).
  - destruct (i - length h) as [|k]; [|destruct k; discriminate].
    injection Hi as <-.
    apply (extends_chain_step h _ (parents node) (extends_snoc h node)).
    exact Hnode.
Qed.

Lemma chained_append_child (h : heap) (a c : nat) :
  chained h -> chained (append_child h a c).
Proof.
  intros Hch i o Hi.
  assert (Hold : exists o0, h !! i = Some o0 /\ parents o = parents o0).
  { rewrite append_child_lookup in Hi. destruct (Nat.eqb i a).
    - destruct (h !! i) as [o0|]; [|discriminate]. injection Hi as <-.
      exists o0. split; reflexivity.
    - exists o. split; [exact Hi | reflexivity]. }
  destruct Hold as (o0 & Ho0 & ->).
  apply (extends_chain_step h _ (parents o0) (extends_append_child h a c)).
  exact (Hch i o0 Ho0).
Qed.

Lemma chain_length_le (n : nat) (l : list nat) :
  (forall j q, l !! j = Some q -> j <= q /\ q < n) -> length l <= n.
Proof.
  intros H. destruct (Nat.eq_dec (length l) 0) as [E|E]; [lia|].
  assert (Hl : is_Some (l !! (length l - 1))).
  { apply lookup_lt_is_Some. lia. }
  destruct Hl as [q Hq]. destruct (H _ q Hq). lia.
Qed.

(** [ancestors[parent_level]] after the push: the index is in range, also
    when it is -1. *)
Lemma py_index_parent (anc : list nat) (cfg : nat) :
  exists p, py_index (anc ++ [cfg]) (Z.of_nat (length anc) - 1) = Some p.
Proof.
  unfold py_index. rewrite length_app. simpl.
  destruct (length anc) as [|m] eqn:E.
  - destruct anc; [|discriminate]. simpl. exists cfg. reflexivity.
  - replace (Z.of_nat (S m) - 1 <? 0)%Z with false by (symmetry; apply Z.ltb_ge; lia).
    replace (Z.to_nat (Z.of_nat (S m) - 1)) with m by lia.
    assert (Hm : m < length anc) by lia.
    apply lookup_lt_is_Some in Hm as [p Hp]. exists p.
    apply lookup_app_l_Some. exact Hp.
Qed.

(** One line of input keeps [parse_inv], and the only exception is the
    division by an indent of zero. *)
Lemma parse_line_inv (ind : nat) (tokens : list string) (st : pstate)
    (line : string) :
  ind <> 0 -> parse_inv st ->
  exists st', parse_line ind tokens st line = Ok st' /\ parse_inv st'.
Proof.
  intros Hind (Hc & Hch & Hanc). unfold parse_line.
  destruct (String.eqb _ "" || ignore_line _ tokens).
  { exists st. split; [reflexivity|]. split; [exact Hc|]. split; assumption. }
  set (txt := PyStr.strip (PyStr.sub_braces line)).
  set (h := p_heap st) in *. set (anc := ancestors st) in *.
  destruct (toplevel_match line).
  - eexists. split; [reflexivity|]. unfold parse_inv. cbn [p_heap config ancestors].
    split; [apply closedP_snoc; [exact Hc | constructor | reflexivity]|].
    split; [apply chained_snoc; [exact Hch|]; intros j q Hj; destruct j; discriminate|].
    intros j q Hj. destruct j as [|j]; [|destruct j; discriminate].
    injection Hj as <-. split; [lia|]. rewrite length_app. simpl. split; [lia|].
    exists (mkConfigLine txt line [] []). split; [|reflexivity].
    rewrite lookup_app_r by lia. rewrite Nat.sub_diag. reflexivity.
  - destruct ind as [|k]; [congruence|].
    set (level := PyStr.leading_ws line / S k).
    set (node := mkConfigLine txt line (take level anc) []).
    assert (Hnode : forall j q, parents node !! j = Some q ->
              j <= q /\ q < length h
              /\ exists oq, h !! q = Some oq /\ parents oq = take j (parents node)).
    { intros j q Hj. cbn [node parents] in *.
      apply lookup_take_Some in Hj as [Hj Hlt].
      destruct (Hanc j q Hj) as (H1 & H2 & oq & Hoq & Hp).
      split; [exact H1|]. split; [exact H2|]. exists oq. split; [exact Hoq|].
      rewrite take_take, Hp. f_equal. lia. }
    assert (Hvalid : Forall (fun q => q < length h) (parents node)).
    { apply List.Forall_forall. intros q Hq. destruct (In_lookup _ _ Hq) as [j Hj].
      exact (proj1 (proj2 (Hnode j q Hj))). }
    pose proof (closedP_snoc h (config st) node Hc Hvalid eq_refl) as Hc1.
    pose proof (chained_snoc h node Hch Hnode) as Hch1.
    destruct (length anc <? level)%nat eqn:Hlev.
    + eexists. split; [reflexivity|]. unfold parse_inv. cbn [p_heap config ancestors].
      split; [exact Hc1|]. split; [exact Hch1|].
      apply (extends_chain_step h _ anc (extends_snoc h node)). exact Hanc.
    + apply Nat.ltb_ge in Hlev.
      assert (Hlt : length (take level anc) = level) by (apply length_take_le; exact Hlev).
      destruct (py_index_parent (take level anc) (length h)) as [p Hp].
      rewrite Hlt in Hp. rewrite Hp.
      eexists. split; [reflexivity|]. unfold parse_inv. cbn [p_heap config ancestors].
      split; [apply closedP_append_child; [exact Hc1|]; rewrite length_app; simpl; lia|].
      split; [apply chained_append_child; exact Hch1|].
      apply (extends_chain_step (h ++ [node]) _ _ (extends_append_child _ p (length h))).
      intros j q Hj. apply lookup_app_Some in Hj as [Hj|[Hge Hj]].
      * apply lookup_take_Some in Hj as [Hj Hjl].
        destruct (Hanc j q Hj) as (H1 & H2 & oq & Hoq & Hpq).
        split; [exact H1|]. rewrite length_app. simpl. split; [lia|].
        exists oq. split; [apply lookup_app_l_Some; exact Hoq|].
        rewrite Hpq, take_app_le by lia. rewrite take_take. f_equal. lia.
      * rewrite Hlt in Hge, Hj.
        destruct (j - level) as [|m] eqn:E; [|destruct m; discriminate].
        injection Hj as <-. assert (j = level) as -> by lia.
        pose proof (chain_length_le (length h) anc
                      (fun j q Hj => conj (proj1 (Hanc j q Hj))
                                          (proj1 (proj2 (Hanc j q Hj))))) as Hle.
        split; [lia|]. rewrite length_app. simpl. split; [lia|].
        exists node. split.
        -- rewrite lookup_app_r by lia. rewrite Nat.sub_diag. reflexivity.
        -- cbn [node parents]. rewrite take_app_length' by exact (eq_sym Hlt).
           reflexivity.
Qed.

Lemma parse_lines_inv (ind : nat) (tokens : list string) (ls : list string) :
  ind <> 0 ->
  forall st, parse_inv st ->
    exists st', parse_lines ind tokens st ls = Ok st' /\ parse_inv st'.
Proof.
  intros Hind. induction ls as [|l ls IH]; intros st Hst; simpl.
  - exists st. split; [reflexivity | exact Hst].
  - destruct (parse_line_inv ind tokens st l Hind Hst) as (st1 & H1 & Hst1).
    rewrite H1. cbn [bind]. apply IH. exact Hst1.
Qed.

(** With a non-zero indent [parse] always returns normally, whatever the
    indentation of the text is, and the store it returns has no dangling
    reference and is chained. *)
Lemma parse_total (h : heap) (lines : string) (ind : nat)
    (tokens : list string) :
  ind <> 0 -> closedP h [] -> chained h ->
  exists h' l, parse h lines ind tokens = Ok (h', l)
               /\ closedP h' l /\ chained h'.
Proof.
  intros Hind Hc Hch. unfold parse.
  assert (Hinit : parse_inv (mkPstate h [] [])).
  { split; [exact Hc|]. split; [exact Hch|].
    intros j q Hj. destruct j; discriminate. }
  destruct (parse_lines_inv ind tokens (PyStr.split_nl lines) Hind _ Hinit)
    as (st' & Hp & Hc' & Hch' & _).
  rewrite Hp. cbn [bind]. exists (p_heap st'), (config st').
  split; [reflexivity|]. split; assumption.
Qed.

(** * expand_section has fuel enough *)

(** A duplicate-free list of names of the store that is as long as the
    store holds every name of the store. *)
Lemma all_names_listed (n : nat) (l : list nat) (i : nat) :
  NoDup l -> Forall (fun q => q < n) l -> n <= length l -> i < n -> In i l.
Proof.
  intros Hnd Hb Hlen Hi.
  assert (Hsub : l ⊆+ seq 0 n).
  { apply NoDup_submseteq; [exact Hnd|]. intros x Hx.
    apply elem_of_seq. rewrite List.Forall_forall in Hb.
    apply list_elem_of_In in Hx. specialize (Hb x Hx). lia. }
  assert (Hperm : l ≡ₚ seq 0 n).
  { apply submseteq_length_Permutation; [exact Hsub|]. rewrite length_seq. exact Hlen. }
  apply list_elem_of_In. rewrite Hperm. apply elem_of_seq. lia.
Qed.

Lemma obj_in_identity (h : heap) (x : nat) (l : list nat) :
  In x l -> obj_in h x l = true.
Proof.
  intros H. unfold obj_in. apply existsb_exists. exists x.
  split; [exact H|]. rewrite Nat.eqb_refl. reflexivity.
Qed.

Lemma obj_in_false_not_In (h : heap) (x : nat) (l : list nat) :
  obj_in h x l = false -> ~ In x l.
Proof.
  intros H Hin. rewrite (obj_in_identity h x l Hin) in H. discriminate.
Qed.

Lemma visited_snoc (h : heap) (S0 : list nat) (c : nat) :
  visited h S0 -> c < length h -> ~ In c S0 -> visited h (S0 ++ [c]).
Proof.
  intros [Hnd Hb] Hc Hin. split.
  - apply NoDup_app. split; [exact Hnd|]. split; [|apply NoDup_singleton].
    intros x Hx Hx'. apply list_elem_of_In in Hx.
    apply list_elem_of_In in Hx'. destruct Hx' as [<-|[]]. exact (Hin Hx).
  - apply List.Forall_app. split; [exact Hb|]. constructor; [exact Hc|constructor].
Qed.

(** Once the fuel covers the objects that are not yet in [S], more fuel
    gives the same traversal. *)
Lemma expand_section_fuel_stable (h : heap) (l : list nat) :
  closedP h l ->
  forall n o S0,
    visited h (S0 ++ [o]) -> length h <= length (S0 ++ [o]) + n ->
    (forall m, n <= m ->
       expand_section_fuel m h o S0 = expand_section_fuel n h o S0)
    /\ visited h (expand_section_fuel n h o S0)
    /\ exists T, expand_section_fuel n h o S0 = S0 ++ o :: T.
Proof.
  intros Hc. induction n as [|n IH]; intros o S0 Hv Hlen.
  - split; [|split; [exact Hv | exists []; reflexivity]].
    intros [|m] _; [reflexivity|]. cbn [expand_section_fuel].
    fold (children_of h o).
    pose proof (children_of_bounded h l o Hc) as Hkids.
    induction Hkids as [|c kids Hcv _ IHk]; [reflexivity|].
    cbn [fold_left]. rewrite obj_in_identity; [exact IHk|].
    destruct Hv as [Hnd Hb].
    apply (all_names_listed (length h)); [exact Hnd | exact Hb | lia | exact Hcv].
  - cbn [expand_section_fuel]. fold (children_of h o).
    pose proof (children_of_bounded h l o Hc) as Hkids.
    assert (Hfold : forall kids acc,
      Forall (fun k => k < length h) kids ->
      visited h acc -> length (S0 ++ [o]) <= length acc ->
      (exists T, acc = S0 ++ o :: T) ->
      (forall m, n <= m ->
         fold_left (fun acc child => if obj_in h child acc then acc
                                     else expand_section_fuel m h child acc) kids acc
         = fold_left (fun acc child => if obj_in h child acc then acc
                                       else expand_section_fuel n h child acc) kids acc)
      /\ visited h (fold_left (fun acc child => if obj_in h child acc then acc
                                 else expand_section_fuel n h child acc) kids acc)
      /\ exists T, fold_left (fun acc child => if obj_in h child acc then acc
                                else expand_section_fuel n h child acc) kids acc
                   = S0 ++ o :: T).
    { induction kids as [|c kids IHk]; intros acc Hk Hacc Hl Hpre.
      - split; [reflexivity|]. split; assumption.
      - inversion Hk as [|? ? Hcv Hk']; subst. cbn [fold_left].
        destruct (obj_in h c acc) eqn:E; [apply IHk; assumption|].
        assert (Hv' : visited h (acc ++ [c])).
        { apply visited_snoc; [exact Hacc | exact Hcv |].
          apply (obj_in_false_not_In h). exact E. }
        assert (Hl' : length h <= length (acc ++ [c]) + n).
        { rewrite length_app. simpl. lia. }
        destruct (IH c acc Hv' Hl') as (Hsame & Hvis & T & HT).
        assert (Hnext : (forall m, n <= m ->
           fold_left (fun acc child => if obj_in h child acc then acc
                        else expand_section_fuel m h child acc) kids
                     (expand_section_fuel n h c acc)
           = fold_left (fun acc child => if obj_in h child acc then acc
                          else expand_section_fuel n h child acc) kids
                       (expand_section_fuel n h c acc))
          /\ visited h (fold_left (fun acc child => if obj_in h child acc then acc
                          else expand_section_fuel n h child acc) kids
                          (expand_section_fuel n h c acc))
          /\ exists T0, fold_left (fun acc child => if obj_in h child acc then acc
                          else expand_section_fuel n h child acc) kids
                          (expand_section_fuel n h c acc) = S0 ++ o :: T0).
        { apply IHk; [exact Hk' | exact Hvis | |].
          - rewrite HT. rewrite !length_app in *. simpl in *. lia.
          - destruct Hpre as [T1 ->]. rewrite HT. exists (T1 ++ c :: T).
            rewrite <- app_assoc. reflexivity. }
        destruct Hnext as (N1 & N2 & N3).
        split; [|split; assumption].
        intros m Hm. rewrite (Hsame m Hm). apply N1. exact Hm. }
    destruct (Hfold (children_of h o) (S0 ++ [o]) Hkids Hv (Nat.le_refl _))
      as (F1 & F2 & F3).
    { exists []. reflexivity. }
    split; [|split; assumption].
    intros [|m] Hm; [lia|]. cbn [expand_section_fuel]. fold (children_of h o).
    apply F1. lia.
Qed.

(** The traversal made by [expand_section] does not depend on the fuel,
    as soon as there is as much of it as objects in the store. *)
Lemma expand_section_fuel_enough (h : heap) (l : list nat) (o m : nat) :
  closedP h l -> o < length h -> length h <= m ->
  expand_section_fuel m h o [] = expand_section h o.
Proof.
  intros Hc Ho Hm. unfold expand_section.
  apply (expand_section_fuel_stable h l Hc (length h) o []); [| |exact Hm].
  - split; [apply NoDup_singleton | constructor; [exact Ho | constructor]].
  - simpl. lia.
Qed.


(** * Further properties of the parser *)

Lemma parse_line_ok (ind : nat) (tokens : list string) (st : pstate)
    (line : string) :
  ind <> 0 -> exists st', parse_line ind tokens st line = Ok st'.
Proof.
  intros Hind. unfold parse_line.
  destruct (String.eqb _ "" || ignore_line _ tokens); [eexists; reflexivity|].
  destruct (toplevel_match line); [eexists; reflexivity|].
  destruct ind as [|k]; [congruence|].
  destruct (length (ancestors st) <? PyStr.leading_ws line / S k)%nat eqn:E;
    [eexists; reflexivity|].
  apply Nat.ltb_ge in E.
  destruct (py_index_parent (take (PyStr.leading_ws line / S k) (ancestors st))
              (length (p_heap st))) as [p Hp].
  rewrite length_take_le in Hp by exact E. rewrite Hp. eexists; reflexivity.
Qed.





Lemma parse_line_zero_indent (tokens : list string) (st : pstate)
    (line : string) :
  parse_line 0 tokens st line =
    if kept tokens line && negb (toplevel_match line)
    then Raise ZeroDivisionError
    else parse_line 1 tokens st line.
Proof.
  unfold parse_line, kept.
  destruct (String.eqb _ "" || ignore_line _ tokens); [reflexivity|].
  destruct (toplevel_match line); reflexivity.
Qed.

(** X3.  With an indent of zero [parse] raises [ZeroDivisionError] exactly
    when some line that gives a node starts with white space; a text made
    of first-column lines, blank lines and comments parses normally. *)
Theorem parse_zero_indent (h : heap) (lines : string) (tokens : list string) :
  (existsb (fun l => kept tokens l && negb (toplevel_match l))
           (PyStr.split_nl lines) = true
   /\ parse h lines 0 tokens = Raise ZeroDivisionError)
  \/ (existsb (fun l => kept tokens l && negb (toplevel_match l))
              (PyStr.split_nl lines) = false
      /\ exists r, parse h lines 0 tokens = Ok r).
Proof.
  unfold parse. generalize (mkPstate h [] []).
  induction (PyStr.split_nl lines) as [|l ls IH]; intros st.
  - right. split; [reflexivity|]. eexists; reflexivity.
  - cbn [existsb parse_lines]. rewrite parse_line_zero_indent.
    destruct (kept tokens l && negb (toplevel_match l)).
    + left. split; reflexivity.
    + destruct (parse_line_ok 1 tokens st l) as [st1 H1]; [discriminate|].
      rewrite H1. cbn [bind orb]. exact (IH st1).
Qed.

(** * Further properties of ConfigLine.__eq__ *)

Lemma py_list_eq_refl {A : Type} (f : A -> A -> bool) (l : list A) :
  (forall x, f x x = true) -> py_list_eq f l l = true.
Proof.
  intros H. induction l as [|x l IH]; simpl; [reflexivity|].
  rewrite H, IH. reflexivity.
Qed.

Lemma py_list_eq_sym {A : Type} (f g : A -> A -> bool) (l1 l2 : list A) :
  (forall x y, f x y = g y x) -> py_list_eq f l1 l2 = py_list_eq g l2 l1.
Proof.
  intros H. revert l2. induction l1 as [|x l1 IH]; intros [|y l2]; simpl;
    try reflexivity.
  rewrite H, IH. reflexivity.
Qed.

Lemma ConfigLine_eq_fuel_sym (h : heap) (n : nat) :
  forall a b, ConfigLine_eq_fuel n h a b = ConfigLine_eq_fuel n h b a.
Proof.
  induction n as [|n IH]; intros a b; [reflexivity|].
  cbn [ConfigLine_eq_fuel]. rewrite (String.eqb_sym (text a) (text b)).
  destruct (String.eqb (text b) (text a)); [|reflexivity].
  apply py_list_eq_sym. intros x y. rewrite (Nat.eqb_sym x y). f_equal.
  destruct (h !! x), (h !! y); try reflexivity. apply IH.
Qed.

(** X4.  [__eq__] is reflexive and symmetric on every store, whatever the
    raw texts and the children are: it reads the texts and the parents
    only.  [!=] is its negation. *)
Theorem ConfigLine_eq_refl_sym (h : heap) (a b : ConfigLine) (r r' : string)
    (k k' : list nat) :
  ConfigLine_eq h a a = true
  /\ ConfigLine_eq h a b = ConfigLine_eq h b a
  /\ ConfigLine_eq h (mkConfigLine (text a) r (parents a) k)
                     (mkConfigLine (text b) r' (parents b) k')
     = ConfigLine_eq h a b.
Proof.
  split; [|split].
  - unfold ConfigLine_eq. cbn [ConfigLine_eq_fuel]. rewrite String.eqb_refl.
    apply py_list_eq_refl. intros x. rewrite Nat.eqb_refl. reflexivity.
  - apply ConfigLine_eq_fuel_sym.
  - reflexivity.
Qed.

(** X5.  In a store built by [parse], two nodes are equal by [__eq__]
    exactly when they have the same text and the same list of parent
    texts. *)
Theorem parsed_eq_is_text_and_parent_texts (lines : string) (ind : nat)
    (tokens : list string) (h : heap) (l : list nat) (a b : nat)
    (oa ob : ConfigLine) :
  ind <> 0 ->
  parse [] lines ind tokens = Ok (h, l) ->
  h !! a = Some oa -> h !! b = Some ob ->
  (obj_eq h a b = true <->
   text oa = text ob /\ texts_of h (parents oa) = texts_of h (parents ob)).
Proof.
  intros Hind Hp Ha Hb.
  destruct (parse_total [] lines ind tokens Hind) as (h' & l' & Hp' & _ & Hch).
  - split; [constructor|]. intros i o Hi. destruct i; discriminate.
  - intros i o Hi. destruct i; discriminate.
  - rewrite Hp in Hp'. injection Hp' as <- <-.
    apply obj_eq_text_chain; assumption.
Qed.

Lemma parsed_eq_is_text_and_parent_texts_witness :
  obj_eq acl_heap 0 1 = true <->
  text (mkConfigLine acl_parent acl_parent [] [1])
    = text (mkConfigLine acl_child "  10 permit tcp 1.1.1.1/24 any" [0] [])
  /\ texts_of acl_heap (parents (mkConfigLine acl_parent acl_parent [] [1]))
     = texts_of acl_heap
         (parents (mkConfigLine acl_child "  10 permit tcp 1.1.1.1/24 any" [0] [])).
Proof.
  apply (parsed_eq_is_text_and_parent_texts acl_text 2 [] acl_heap [0; 1] 0 1);
    [lia | vm_compute; reflexivity | reflexivity | reflexivity].
Defined.

(** * Further properties of difference *)

Lemma obj_eq_refl (h : heap) (i : nat) :
  is_Some (h !! i) -> obj_eq h i i = true.
Proof.
  intros [o Ho]. unfold obj_eq. rewrite Ho.
  unfold ConfigLine_eq. cbn [ConfigLine_eq_fuel]. rewrite String.eqb_refl.
  apply py_list_eq_refl. intros x. rewrite Nat.eqb_refl. reflexivity.
Qed.

Lemma match_line_self (h : heap) (l other : list nat) :
  (forall i, In i l -> In i other) -> match_line h l other = [].
Proof.
  intros H. unfold match_line. induction l as [|i l IH]; [reflexivity|].
  simpl. rewrite obj_in_identity by (apply H; left; reflexivity). simpl.
  apply IH. intros j Hj. apply H. right. exact Hj.
Qed.

Lemma match_strict_self (h : heap) (l : list nat) :
  Forall (fun i => i < length h) l -> match_strict h l l = [].
Proof.
  induction 1 as [|i l Hi _ IH]; [reflexivity|]. simpl.
  unfold obj_ne. rewrite obj_eq_refl by (apply lookup_lt_is_Some; exact Hi).
  exact IH.
Qed.

Lemma izip_differs_self (h : heap) (l : list nat) :
  Forall (fun i => i < length h) l -> izip_differs h l l = false.
Proof.
  induction 1 as [|i l Hi _ IH]; [reflexivity|]. simpl.
  unfold obj_ne. rewrite obj_eq_refl by (apply lookup_lt_is_Some; exact Hi).
  exact IH.
Qed.

(** X6.  A tree compared with itself gives no update, under every match
    policy and every replace mode. *)
Theorem difference_self_empty (h : heap) (T : CustomNetworkConfig)
    (match_ rep : string) :
  closed h (items T) = true ->
  exists out, difference h T T None match_ rep = Ok out
              /\ diff_empty out = true.
Proof.
  intros Hc. apply closed_spec in Hc. destruct Hc as [Hb _].
  assert (Hupd : (if String.eqb match_ "line"
                  then Ok (match_line h (items T) (items T))
                  else if String.eqb match_ "strict"
                  then Ok (match_strict h (items T) (items T))
                  else if String.eqb match_ "exact"
                  then Ok (match_exact h (items T) (items T))
                  else Ok []) = Ok ([] : list nat)).
  { destruct (String.eqb match_ "line").
    - rewrite match_line_self by auto. reflexivity.
    - destruct (String.eqb match_ "strict").
      + rewrite match_strict_self by exact Hb. reflexivity.
      + destruct (String.eqb match_ "exact"); [|reflexivity].
        unfold match_exact. rewrite Nat.eqb_refl. simpl.
        rewrite izip_differs_self by exact Hb. reflexivity. }
  unfold difference. cbn [children_or_items path_true bind].
  destruct (String.eqb match_ "line").
  - injection Hupd as ->. cbn [bind]. destruct (is_junos T); eexists; split; reflexivity.
  - destruct (String.eqb match_ "strict").
    + cbn [bind]. injection Hupd as ->.
      destruct (is_junos T); eexists; split; reflexivity.
    + destruct (String.eqb match_ "exact").
      * cbn [bind]. injection Hupd as ->.
        destruct (is_junos T); eexists; split; reflexivity.
      * cbn [bind]. destruct (is_junos T); eexists; split; reflexivity.
Qed.

Lemma difference_self_empty_witness :
  exists out,
    difference acl_heap (mkConfig 2 [0; 1] None) (mkConfig 2 [0; 1] None)
               None "strict" "block" = Ok out
    /\ diff_empty out = true.
Proof.
  apply (difference_self_empty acl_heap (mkConfig 2 [0; 1] None) "strict" "block").
  vm_compute; reflexivity.
Defined.

Lemma match_strict_incl (h : heap) (config : list nat) :
  forall current i, In i (match_strict h config current) -> In i config.
Proof.
  induction config as [|x config IH]; intros current i; simpl; [auto|].
  destruct current as [|cur current].
  - intros [->|H]; [left; reflexivity | right; exact (IH [] i H)].
  - destruct (obj_ne h x cur).
    + intros [->|H]; [left; reflexivity | right; exact (IH current i H)].
    + intros H. right. exact (IH current i H).
Qed.

Lemma match_line_in_strict (h : heap) (other : list nat) (config : list nat) :
  forall current i,
    (forall y, In y current -> In y other) ->
    In i (match_line h config other) -> In i (match_strict h config current).
Proof.
  unfold match_line.
  induction config as [|x config IH]; intros current i Hsub; simpl; [auto|].
  destruct (obj_in h x other) eqn:E; simpl.
  - intros H. destruct current as [|cur current].
    + right. exact (IH [] i (fun y (F : In y []) => match F with end) H).
    + assert (Hrest : In i (match_strict h config current)).
      { apply IH; [|exact H]. intros y Hy. apply Hsub. right. exact Hy. }
      destruct (obj_ne h x cur); [right|]; exact Hrest.
  - destruct current as [|cur current].
    + intros [->|H]; [left; reflexivity|].
      right. exact (IH [] i (fun y (F : In y []) => match F with end) H).
    + assert (Hne : obj_ne h x cur = true).
      { unfold obj_ne. apply negb_true_iff.
        unfold obj_in in E.
        assert (Hcur : In cur other) by (apply Hsub; left; reflexivity).
        destruct (obj_eq h x cur) eqn:Q; [|reflexivity].
        assert (existsb (fun y => Nat.eqb x y || obj_eq h x y) other = true).
        { apply existsb_exists. exists cur. split; [exact Hcur|].
          rewrite Q. apply orb_true_r. }
        congruence. }
      rewrite Hne.
      intros [->|H]; [left; reflexivity|]. right.
      apply IH; [|exact H]. intros y Hy. apply Hsub. right. exact Hy.
Qed.

Lemma match_strict_nil_izip (h : heap) (config : list nat) :
  forall current, length config = length current ->
    izip_differs h config current = false -> match_strict h config current = [].
Proof.
  induction config as [|x config IH]; intros [|cur current] Hlen;
    simpl in *; try discriminate; [reflexivity|].
  intros H. apply orb_false_iff in H as [H1 H2]. rewrite H1.
  apply IH; [lia | exact H2].
Qed.

(** X7.  The three match policies are nested: with no path, every update
    of the line policy is an update of the strict policy, and every update
    of the strict policy is an update of the exact policy. *)
Theorem match_policies_nested (h : heap) (config other : list nat) (i : nat) :
  (In i (match_line h config other) -> In i (match_strict h config other))
  /\ (In i (match_strict h config other) -> In i (match_exact h config other)).
Proof.
  split.
  - apply match_line_in_strict. auto.
  - intros H. unfold match_exact.
    destruct (Nat.eqb (length other) (length config)) eqn:E; simpl.
    + apply Nat.eqb_eq in E.
      destruct (izip_differs h config other) eqn:D.
      * exact (match_strict_incl h config other i H).
      * rewrite (match_strict_nil_izip h config other (eq_sym E) D) in H.
        destruct H.
    + exact (match_strict_incl h config other i H).
Qed.

(** * Further properties of navigation *)

(** X8.  [expand_section] on a store without dangling references returns
    a list that starts with the node it is called on, holds only objects
    of the store and holds none twice, also when a node is among its own
    descendants; the result is the same with any larger bound on the
    depth of the recursion. *)
Theorem expand_section_once (h : heap) (l : list nat) (o : nat) :
  closed h l = true -> o < length h ->
  (exists T, expand_section h o = o :: T)
  /\ NoDup (expand_section h o)
  /\ Forall (fun q => q < length h) (expand_section h o)
  /\ forall m, length h <= m ->
       expand_section_fuel m h o [] = expand_section h o.
Proof.
  intros Hc Ho. apply closed_spec in Hc.
  destruct (expand_section_fuel_stable h l Hc (length h) o [])
    as (Hsame & [Hnd Hb] & HT).
  - split; [apply NoDup_singleton | constructor; [exact Ho | constructor]].
  - simpl. lia.
  - split; [exact HT|]. split; [exact Hnd|]. split; [exact Hb|]. exact Hsame.
Qed.

Lemma expand_section_once_witness :
  (exists T, expand_section [mkConfigLine "c" " c" [] [0]] 0 = 0 :: T)
  /\ NoDup (expand_section [mkConfigLine "c" " c" [] [0]] 0)
  /\ Forall (fun q => q < 1) (expand_section [mkConfigLine "c" " c" [] [0]] 0)
  /\ forall m, 1 <= m ->
       expand_section_fuel m [mkConfigLine "c" " c" [] [0]] 0 []
       = expand_section [mkConfigLine "c" " c" [] [0]] 0.
Proof.
  apply (expand_section_once [mkConfigLine "c" " c" [] [0]] [0] 0);
    [vm_compute; reflexivity | simpl; lia].
Defined.

(** The test made on one node by the loop of [get_object]. *)
Lemma get_object_loop_None (h : heap) (path : list string) (l : list nat) :
  path <> [] ->
  (get_object_loop h (PList path) l = Ok None <->
   forall i o, In i l -> h !! i = Some o ->
     ~ (last path = Some (text o)
        /\ texts_of h (parents o) = removelast path)).
Proof.
  intros Hne. destruct (last path) as [lp|] eqn:Hl;
    [|destruct path; [congruence | apply last_None in Hl; discriminate]].
  induction l as [|k l IH]; simpl.
  - split; [intros _ i o [] | reflexivity].
  - destruct (h !! k) as [ok|] eqn:Hk.
    + rewrite Hl.
      destruct (String.eqb_spec (text ok) lp) as [Et|Et]; simpl.
      * destruct (bool_decide_reflect (texts_of h (parents ok) = removelast path))
          as [Ep|Ep].
        -- split; [discriminate|]. intros H. exfalso.
           apply (H k ok); [left; reflexivity | exact Hk |].
           split; [congruence | exact Ep].
        -- rewrite IH. split.
           ++ intros H i o [<-|Hi] Ho; [|exact (H i o Hi Ho)].
              rewrite Hk in Ho. injection Ho as <-. intros [_ E]. exact (Ep E).
           ++ intros H i o Hi. apply H. right. exact Hi.
      * rewrite IH. split.
        -- intros H i o [<-|Hi] Ho; [|exact (H i o Hi Ho)].
           rewrite Hk in Ho. injection Ho as <-. intros [E _]. congruence.
        -- intros H i o Hi. apply H. right. exact Hi.
    + rewrite IH. split.
      * intros H i o [<-|Hi] Ho; [congruence | exact (H i o Hi Ho)].
      * intros H i o Hi. apply H. right. exact Hi.
Qed.

(** X9.  With a list as path, [get_object] returns the first node of the
    tree, in list order, whose text is the last element of the path and
    whose parents carry the texts of the elements before it; it returns
    [None] when no node does. *)
Theorem get_object_first_match (h : heap) (c : CustomNetworkConfig)
    (path : list string) (a : nat) :
  path <> [] ->
  (get_object h c (PList path) = Ok (Some a) <->
   exists l1 l2 o,
     items c = l1 ++ a :: l2 /\ h !! a = Some o
     /\ last path = Some (text o)
     /\ texts_of h (parents o) = removelast path
     /\ get_object_loop h (PList path) l1 = Ok None)
  /\ (get_object h c (PList path) = Ok None <->
      forall i o, In i (items c) -> h !! i = Some o ->
        ~ (last path = Some (text o)
           /\ texts_of h (parents o) = removelast path)).
Proof.
  intros Hne. split; [|apply get_object_loop_None; exact Hne].
  unfold get_object. generalize (items c). intros l. split.
  - induction l as [|k l IH]; simpl; [discriminate|].
    destruct (h !! k) as [ok|] eqn:Hk.
    + destruct (last path) as [lp|] eqn:Hl; [|discriminate].
      destruct (String.eqb (text ok) lp
                && bool_decide (texts_of h (parents ok) = removelast path)) eqn:E.
      * intros H. injection H as <-. apply andb_prop in E as [E1 E2].
        apply String.eqb_eq in E1. apply bool_decide_eq_true in E2.
        exists [], l, ok. repeat split; auto. congruence.
      * intros H. destruct (IH H) as (l1 & l2 & o & H1 & H2 & H3 & H4 & H5).
        exists (k :: l1), l2, o. rewrite H1. repeat split; auto.
        simpl. rewrite Hk, Hl. simpl in E. rewrite E. exact H5.
    + intros H. destruct (IH H) as (l1 & l2 & o & H1 & H2 & H3 & H4 & H5).
      exists (k :: l1), l2, o. rewrite H1. repeat split; auto.
      simpl. rewrite Hk. exact H5.
  - intros (l1 & l2 & o & -> & Ho & Hl & Hp & Hnone).
    rewrite get_object_loop_app, Hnone. simpl. rewrite Ho, Hl.
    rewrite String.eqb_refl, bool_decide_eq_true_2 by exact Hp. reflexivity.
Qed.

Lemma get_object_first_match_witness :
  (get_object acl_heap (mkConfig 2 [0; 1] None) (PList [acl_parent; acl_child])
     = Ok (Some 1) <->
   exists l1 l2 o,
     items (mkConfig 2 [0; 1] None) = l1 ++ 1 :: l2 /\ acl_heap !! 1 = Some o
     /\ last [acl_parent; acl_child] = Some (text o)
     /\ texts_of acl_heap (parents o) = removelast [acl_parent; acl_child]
     /\ get_object_loop acl_heap (PList [acl_parent; acl_child]) l1 = Ok None)
  /\ (get_object acl_heap (mkConfig 2 [0; 1] None) (PList [acl_parent; acl_child])
        = Ok None <->
      forall i o, In i (items (mkConfig 2 [0; 1] None)) -> acl_heap !! i = Some o ->
        ~ (last [acl_parent; acl_child] = Some (text o)
           /\ texts_of acl_heap (parents o) = removelast [acl_parent; acl_child])).
Proof.
  apply (get_object_first_match acl_heap (mkConfig 2 [0; 1] None)
           [acl_parent; acl_child] 1).
  discriminate.
Defined.

(** X10.  With an empty list as path, [get_object], [get] and
    [get_section_objects] raise [IndexError] as soon as the tree has a
    node, and [get_section], which only catches [ValueError], lets it
    through; on an empty tree the path is simply not found. *)
Theorem empty_path_index_error (h : heap) (c : CustomNetworkConfig)
    (i : nat) (rest : list nat) :
  i < length h -> items c = i :: rest ->
  get_object h c (PList []) = Raise IndexError
  /\ get h c (PList []) = Raise IndexError
  /\ get_children h c (PList []) = Raise IndexError
  /\ get_section_objects h c (PList []) = Raise IndexError
  /\ get_section h c (PList []) = Raise IndexError
  /\ get_object h (mkConfig (indent c) [] (_device_os c)) (PList []) = Ok None
  /\ get_section h (mkConfig (indent c) [] (_device_os c)) (PList [])
     = Ok (SLines []).
Proof.
  intros Hi Hitems. apply lookup_lt_is_Some in Hi as [o Ho].
  assert (H : get_object h c (PList []) = Raise IndexError).
  { unfold get_object. rewrite Hitems. simpl. rewrite Ho. reflexivity. }
  split; [exact H|]. split; [exact H|].
  split; [unfold get_children; rewrite H; reflexivity|].
  assert (H' : get_section_objects h c (PList []) = Raise IndexError).
  { unfold get_section_objects. cbn [as_list_path]. rewrite H. reflexivity. }
  split; [exact H'|]. split; [unfold get_section; rewrite H'; reflexivity|].
  split; reflexivity.
Qed.

Lemma empty_path_index_error_witness :
  get_object acl_heap (mkConfig 2 [0; 1] None) (PList []) = Raise IndexError
  /\ get acl_heap (mkConfig 2 [0; 1] None) (PList []) = Raise IndexError
  /\ get_children acl_heap (mkConfig 2 [0; 1] None) (PList []) = Raise IndexError
  /\ get_section_objects acl_heap (mkConfig 2 [0; 1] None) (PList [])
     = Raise IndexError
  /\ get_section acl_heap (mkConfig 2 [0; 1] None) (PList []) = Raise IndexError
  /\ get_object acl_heap (mkConfig 2 [] None) (PList []) = Ok None
  /\ get_section acl_heap (mkConfig 2 [] None) (PList []) = Ok (SLines []).
Proof.
  apply (empty_path_index_error acl_heap (mkConfig 2 [0; 1] None) 0 [1]);
    [simpl; lia | reflexivity].
Defined.

(** * Further properties of add *)

Lemma grows_refl (h : heap) : grows h h.
Proof.
  split; [lia|]. intros i o H. exists o. repeat split; auto.
  exists []. rewrite app_nil_r. reflexivity.
Qed.

Lemma grows_trans (h1 h2 h3 : heap) : grows h1 h2 -> grows h2 h3 -> grows h1 h3.
Proof.
  intros [L1 H1] [L2 H2]. split; [lia|]. intros i o Hi.
  destruct (H1 i o Hi) as (o' & Ho' & Ht & Hr & Hp & m1 & Hk).
  destruct (H2 i o' Ho') as (o'' & Ho'' & Ht' & Hr' & Hp' & m2 & Hk').
  exists o''. split; [exact Ho''|].
  split; [congruence|]. split; [congruence|]. split; [congruence|].
  exists (m1 ++ m2). rewrite Hk', Hk, app_assoc. reflexivity.
Qed.

Lemma grows_snoc (h : heap) (x : ConfigLine) : grows h (h ++ [x]).
Proof.
  split; [rewrite length_app; lia|]. intros i o Hi. exists o.
  split; [apply lookup_app_l_Some; exact Hi|]. repeat split; auto.
  exists []. rewrite app_nil_r. reflexivity.
Qed.

Lemma grows_append_child (h : heap) (a c : nat) : grows h (append_child h a c).
Proof.
  split; [rewrite append_child_length; lia|]. intros i o Hi.
  rewrite append_child_lookup, Hi. destruct (Nat.eqb i a); simpl.
  - eexists. split; [reflexivity|]. repeat split. exists [c]. reflexivity.
  - exists o. repeat split; auto. exists []. rewrite app_nil_r. reflexivity.
Qed.

Lemma grows_extends (h h' : heap) : grows h h' -> extends h h'.
Proof.
  intros [L H]. split; [exact L|]. intros i o Hi.
  destruct (H i o Hi) as (o' & Ho' & Ht & _ & Hp & _). exists o'. auto.
Qed.

Lemma same_settings_refl (c : CustomNetworkConfig) : same_settings c c.
Proof. split; [exists []; rewrite app_nil_r; reflexivity | auto]. Qed.

Lemma same_settings_trans (c1 c2 c3 : CustomNetworkConfig) :
  same_settings c1 c2 -> same_settings c2 c3 -> same_settings c1 c3.
Proof.
  intros ([n1 H1] & I1 & D1) ([n2 H2] & I2 & D2).
  split; [exists (n1 ++ n2); rewrite H2, H1, app_assoc; reflexivity|].
  split; congruence.
Qed.

Lemma same_settings_snoc (c : CustomNetworkConfig) (i : nat) :
  same_settings c (mkConfig (indent c) (items c ++ [i]) (_device_os c)).
Proof. split; [exists [i]; reflexivity | auto]. Qed.

Lemma add_parent_grows (pars : list string) (index : nat) (p : string)
    (h h' : heap) (c c' : CustomNetworkConfig) (anc anc' : list nat) :
  add_parent pars index p (h, c, anc) = Ok (h', c', anc') ->
  grows h h' /\ same_settings c c'.
Proof.
  unfold add_parent.
  destruct (get_section_objects h c (PList (take (index + 1) pars)))
    as [[|obj sec]|[m| | |]]; try discriminate.
  - intros H. injection H as <- <- _. split; [apply grows_refl | apply same_settings_refl].
  - intros H. injection H as <- <- _. split; [|apply same_settings_snoc].
    destruct (last anc).
    + eapply grows_trans; [apply grows_snoc | apply grows_append_child].
    + apply grows_snoc.
Qed.

Lemma add_parents_grows (pars : list string) (todo : list string) :
  forall index h c anc h' c' anc',
    add_parents pars index todo (h, c, anc) = Ok (h', c', anc') ->
    grows h h' /\ same_settings c c'.
Proof.
  induction todo as [|p todo IH]; intros index h c anc h' c' anc';
    cbn [add_parents].
  - intros H. injection H as <- <- _.
    split; [apply grows_refl | apply same_settings_refl].
  - destruct (add_parent pars index p (h, c, anc)) as [[[h1 c1] anc1]|e] eqn:E;
      [|cbn [bind]; discriminate].
    cbn [bind]. intros H.
    destruct (add_parent_grows _ _ _ _ _ _ _ _ _ E) as [G1 S1].
    destruct (IH _ _ _ _ _ _ _ H) as [G2 S2].
    split; [eapply grows_trans | eapply same_settings_trans]; eassumption.
Qed.

Lemma add_child_grows (n : nat) (anc : list nat) (line : string)
    (h h' : heap) (c c' : CustomNetworkConfig) :
  add_child n anc (Ok (h, c)) line = Ok (h', c') ->
  grows h h' /\ same_settings c c'.
Proof.
  unfold add_child. cbn [bind]. destruct (last anc) as [a|]; [|discriminate].
  destruct (existsb _ _).
  - intros H. injection H as <- <-.
    split; [apply grows_refl | apply same_settings_refl].
  - intros H. injection H as <- <-. split; [|apply same_settings_snoc].
    eapply grows_trans; [apply grows_snoc | apply grows_append_child].
Qed.

Lemma add_children_raise (n : nat) (anc : list nat) (lines : list string)
    (e : exn) :
  fold_left (add_child n anc) lines (Raise e) = Raise e.
Proof. induction lines as [|l lines IH]; simpl; [reflexivity | exact IH]. Qed.

Lemma add_children_grows (n : nat) (anc : list nat) (lines : list string) :
  forall h c h' c',
    fold_left (add_child n anc) lines (Ok (h, c)) = Ok (h', c') ->
    grows h h' /\ same_settings c c'.
Proof.
  induction lines as [|l lines IH]; intros h c h' c'; cbn [fold_left].
  - intros H. injection H as <- <-.
    split; [apply grows_refl | apply same_settings_refl].
  - destruct (add_child n anc (Ok (h, c)) l) as [[h1 c1]|e] eqn:E.
    + intros H. destruct (add_child_grows _ _ _ _ _ _ _ E) as [G1 S1].
      destruct (IH _ _ _ _ H) as [G2 S2].
      split; [eapply grows_trans | eapply same_settings_trans]; eassumption.
    + rewrite add_children_raise. discriminate.
Qed.

Lemma add_globals_grows (lines : list string) :
  forall h c h' c',
    fold_left add_global lines (h, c) = (h', c') ->
    grows h h' /\ same_settings c c'
    /\ (closedP h (items c) -> closedP h' (items c')).
Proof.
  induction lines as [|l lines IH]; intros h c h' c'; cbn [fold_left].
  - intros H. injection H as <- <-.
    split; [apply grows_refl|]. split; [apply same_settings_refl | auto].
  - unfold add_global at 2.
    destruct (negb (fresh_in h (mkConfigLine l l [] []) (items c))).
    + intros H. destruct (IH _ _ _ _ H) as (G & S & C).
      split; [eapply grows_trans; [apply grows_snoc | exact G]|].
      split; [eapply same_settings_trans; [apply same_settings_snoc | exact S]|].
      intros Hc. apply C. cbn [items _config].
      apply (closedP_snoc h (items c) (mkConfigLine l l [] []) Hc);
        [constructor | reflexivity].
    + apply IH.
Qed.

Lemma add_children_total (n : nat) (anc : list nat) (a : nat)
    (lines : list string) :
  last anc = Some a ->
  forall h c,
    closedP h (items c) -> Forall (fun q => q < length h) anc ->
    exists h' c',
      fold_left (add_child n anc) lines (Ok (h, c)) = Ok (h', c')
      /\ closedP h' (items c').
Proof.
  intros Hlast. induction lines as [|l lines IH]; intros h c Hc Hb;
    cbn [fold_left].
  - exists h, c. split; [reflexivity | exact Hc].
  - assert (Ha : a < length h).
    { rewrite List.Forall_forall in Hb. apply Hb. apply last_In. exact Hlast. }
    destruct (add_child_step h c n anc a l Hc Hb Hlast Ha)
      as (h1 & c1 & Hstep & Hc1 & [Hlen _] & _).
    rewrite Hstep. apply IH; [exact Hc1|].
    apply (Forall_lt_mono (length h)); [exact Hlen | exact Hb].
Qed.

(** X11.  On a store without dangling references [add] ends normally for
    every list of lines and every list of parents, and only adds: the
    objects that were there keep their text, raw text and parents, their
    [children] lists are only appended to, the node list is only appended
    to, and every path that led to a node still leads to the same node. *)
Theorem add_only_adds (h : heap) (c : CustomNetworkConfig) (lines : pyarg)
    (pars : list string) :
  closed h (items c) = true ->
  exists h1 c1,
    add h c lines pars = Ok (h1, c1)
    /\ closed h1 (items c1) = true
    /\ grows h h1
    /\ (exists new, items c1 = items c ++ new)
    /\ indent c1 = indent c /\ _device_os c1 = _device_os c
    /\ forall path a,
         get_object h c (PList path) = Ok (Some a) ->
         get_object h1 c1 (PList path) = Ok (Some a).
Proof.
  intros Hc. apply closed_spec in Hc.
  assert (Hmain : exists h1 c1,
            add h c lines pars = Ok (h1, c1) /\ closedP h1 (items c1)
            /\ grows h h1 /\ same_settings c c1).
  { unfold add. destruct pars as [|p ps].
    - destruct (fold_left add_global (to_list lines) (h, c)) as [h1 c1] eqn:E.
      destruct (add_globals_grows _ _ _ _ _ E) as (G & S & C).
      exists h1, c1. split; [reflexivity|]. split; [exact (C Hc)|]. split; assumption.
    - set (pars := p :: ps).
      assert (Hinit : add_inv pars h 0 (h, c, [])).
      { unfold add_inv. split; [exact Hc|]. split; [apply extends_refl|].
        split; [lia|]. split; [reflexivity|]. split; [constructor|].
        split; [reflexivity|]. split; [constructor|].
        split; [intros k a Hk; destruct k; discriminate | reflexivity]. }
      destruct (add_parents_loop pars h pars 0 (h, c, []) eq_refl Hinit)
        as ([[h1 c1] anc] & Hloop & Hinv).
      destruct (add_parents_grows _ _ _ _ _ _ _ _ _ Hloop) as [G1 S1].
      destruct Hinv as (Hc1 & _ & _ & Hlen & Hb & _).
      assert (Hlast : exists a, last anc = Some a).
      { destruct anc as [|x anc]; [discriminate|].
        rewrite last_lookup. apply lookup_lt_is_Some. simpl. lia. }
      destruct Hlast as [a Hlast].
      destruct (add_children_total (length pars) anc a (to_list lines) Hlast
                  h1 c1 Hc1 Hb) as (h2 & c2 & Hfold & Hc2).
      destruct (add_children_grows _ _ _ _ _ _ _ Hfold) as [G2 S2].
      exists h2, c2. rewrite Hloop. cbn [bind].
      split; [exact Hfold|]. split; [exact Hc2|].
      split; [eapply grows_trans | eapply same_settings_trans]; eassumption. }
  destruct Hmain as (h1 & c1 & Hadd & Hc1 & G & [new Hnew] & Hi & Hd).
  exists h1, c1. split; [exact Hadd|]. split; [apply closed_spec; exact Hc1|].
  split; [exact G|]. split; [exists new; exact Hnew|].
  split; [exact Hi|]. split; [exact Hd|].
  intros path a Hg. unfold get_object in *. rewrite Hnew, get_object_loop_app.
  rewrite (get_object_loop_grow h h1 _ (items c) (grows_extends _ _ G) Hc), Hg.
  reflexivity.
Qed.

Lemma add_only_adds_witness :
  exists h1 c1,
    add acl_heap (mkConfig 2 [0; 1] None)
        (AList ["20 permit tcp any any"; "30 deny ip any any"])
        ["ip access-list OTHER"] = Ok (h1, c1)
    /\ closed h1 (items c1) = true
    /\ grows acl_heap h1
    /\ (exists new, items c1 = items (mkConfig 2 [0; 1] None) ++ new)
    /\ indent c1 = 2 /\ _device_os c1 = None
    /\ forall path a,
         get_object acl_heap (mkConfig 2 [0; 1] None) (PList path) = Ok (Some a) ->
         get_object h1 c1 (PList path) = Ok (Some a).
Proof.
  apply (add_only_adds acl_heap (mkConfig 2 [0; 1] None)
           (AList ["20 permit tcp any any"; "30 deny ip any any"])
           ["ip access-list OTHER"]).
  vm_compute; reflexivity.
Defined.

(** * Further properties of replace *)

Section ReplaceEffect.

Context {regex : Type}.
Variable re_compile : string -> option regex.
Variable re_search : regex -> string -> bool.

Lemma replace_patterns_true (h : heap) (rep : string) (pars : list string)
    (item : ConfigLine) (patterns : list regex) :
  replace_patterns regex re_search h rep pars item patterns = true ->
  exists p, In p patterns /\ re_search p (text item) = true
            /\ text item <> rep /\ texts_of h (parents item) = pars.
Proof.
  induction patterns as [|p ps IH]; simpl; [discriminate|].
  destruct (re_search p (text item) && negb (String.eqb (text item) rep)
            && bool_decide (pars = texts_of h (parents item))) eqn:E.
  - intros _. apply andb_prop in E as [E E3]. apply andb_prop in E as [E1 E2].
    apply bool_decide_eq_true in E3. apply negb_true_iff in E2.
    apply String.eqb_neq in E2. exists p. repeat split; auto.
  - intros H. destruct (IH H) as (q & Hq & R). exists q. split; [right; exact Hq | exact R].
Qed.

Lemma replace_patterns_false (h : heap) (rep : string) (pars : list string)
    (item : ConfigLine) (patterns : list regex) :
  (forall p, In p patterns ->
     re_search p (text item) && negb (String.eqb (text item) rep)
     && bool_decide (pars = texts_of h (parents item)) = false) ->
  replace_patterns regex re_search h rep pars item patterns = false.
Proof.
  induction patterns as [|p ps IH]; intros H; simpl; [reflexivity|].
  rewrite (H p) by (left; reflexivity).
  apply IH. intros q Hq. apply H. right. exact Hq.
Qed.

Lemma replace_scan_Some (h : heap) (rep : string) (pars : list string)
    (patterns : list regex) (l : list nat) :
  forall m0 m,
    replace_scan regex re_search h rep pars patterns l m0 = Some m ->
    m0 = Some m
    \/ (In m l /\ exists o, h !! m = Some o
          /\ replace_patterns regex re_search h rep pars o patterns = true).
Proof.
  induction l as [|i l IH]; intros m0 m; simpl; [auto|].
  intros H. apply IH in H as [H|[H1 H2]]; [|right; split; [right; exact H1 | exact H2]].
  destruct (h !! i) as [o|] eqn:Hi; [|left; exact H].
  destruct (replace_patterns regex re_search h rep pars o patterns) eqn:E;
    [|left; exact H].
  injection H as <-. right. split; [left; reflexivity|]. exists o. auto.
Qed.

Lemma leading_ws_spaces (n : nat) (s : string) :
  PyStr.leading_ws (String.append (PyStr.spaces n) s) = n + PyStr.leading_ws s.
Proof. induction n as [|n IH]; simpl; [reflexivity | rewrite IH; reflexivity]. Qed.

(** X12.  Without [add_if_missing], a call of [replace] that returns
    leaves the node list and the number of objects as they were and
    changes at most one node: a node of the tree whose text is matched by
    one of the patterns, differs from the replacement and whose parents
    carry the given texts.  That node gets the replacement as text and, as
    raw text, the replacement behind as many spaces as its old raw text
    had leading white space characters; its parents and children stay. *)
Theorem replace_changes_one_node (h h' : heap) (c c' : CustomNetworkConfig)
    (rep : string) (text_ : option string) (regex_ : pyarg)
    (pars : list string) (ignore_whitespace : bool) :
  replace regex re_compile re_search h c rep text_ regex_ pars
          false ignore_whitespace = Ok (h', c') ->
  c' = c /\ length h' = length h
  /\ (h' = h
      \/ exists m o p patterns,
           compile_all regex re_compile (pattern_sources text_ regex_) = Ok patterns
           /\ In p patterns /\ re_search p (text o) = true
           /\ In m (items c) /\ h !! m = Some o
           /\ text o <> rep /\ texts_of h (parents o) = pars
           /\ h' = <[m := mkConfigLine rep
                            (String.append (PyStr.spaces (PyStr.leading_ws (raw o))) rep)
                            (parents o) (children o)]> h
           /\ PyStr.leading_ws
                (String.append (PyStr.spaces (PyStr.leading_ws (raw o))) rep)
              = PyStr.leading_ws (raw o) + PyStr.leading_ws rep).
Proof.
  intros H.
  assert (Hbody :
    bind (compile_all regex re_compile (pattern_sources text_ regex_))
      (fun patterns =>
         match replace_scan regex re_search h rep pars patterns (items c) None with
         | Some m =>
             match h !! m with
             | Some o => Ok (<[m := rewrite_line rep o]> h, c)
             | None => Ok (h, c)
             end
         | None => Ok (h, c)
         end) = Ok (h', c')).
  { unfold replace in H. destruct text_ as [t|]; [exact H|].
    destruct regex_ as [|s|l]; [discriminate | exact H | exact H]. }
  clear H.
  destruct (compile_all regex re_compile (pattern_sources text_ regex_))
    as [patterns|e] eqn:Hcomp; [|discriminate].
  cbn [bind] in Hbody.
  destruct (replace_scan regex re_search h rep pars patterns (items c) None)
    as [m|] eqn:Hscan.
  - apply replace_scan_Some in Hscan as [Hscan|(Hin & o & Ho & Hpat)];
      [discriminate|].
    rewrite Ho in Hbody. injection Hbody as <- <-.
    split; [reflexivity|]. split; [apply length_insert|]. right.
    destruct (replace_patterns_true h rep pars o patterns Hpat)
      as (p & Hp & Hs & Hne & Hpars).
    exists m, o, p, patterns. rewrite rewrite_line_keeps_indent.
    repeat split; auto. apply leading_ws_spaces.
  - injection Hbody as <- <-. split; [reflexivity|]. split; [reflexivity|].
    left. reflexivity.
Qed.

(** X13.  With [add_if_missing], when the patterns compile and no node of
    the tree passes the three tests of the search (matched by a pattern,
    text other than the replacement, parents with the given texts),
    [replace] does what [add] does with the replacement as line under the
    same parents. *)
Theorem replace_missing_is_add (h : heap) (c : CustomNetworkConfig)
    (rep : string) (text_ : option string) (regex_ : pyarg)
    (pars : list string) (ignore_whitespace : bool) (patterns : list regex) :
  text_ <> None \/ regex_ <> ANone ->
  compile_all regex re_compile (pattern_sources text_ regex_) = Ok patterns ->
  (forall i o p, In i (items c) -> h !! i = Some o -> In p patterns ->
     re_search p (text o) && negb (String.eqb (text o) rep)
     && bool_decide (pars = texts_of h (parents o)) = false) ->
  replace regex re_compile re_search h c rep text_ regex_ pars
          true ignore_whitespace = add h c (AStr rep) pars.
Proof.
  intros Hargs Hcomp Hno.
  assert (Hscan : forall l m0,
            (forall i, In i l -> In i (items c)) ->
            replace_scan regex re_search h rep pars patterns l m0 = m0).
  { induction l as [|i l IH]; intros m0 Hsub; simpl; [reflexivity|].
    rewrite IH by (intros j Hj; apply Hsub; right; exact Hj).
    destruct (h !! i) as [o|] eqn:Hi; [|reflexivity].
    rewrite replace_patterns_false; [reflexivity|].
    intros p Hp. apply (Hno i o p); auto. apply Hsub. left. reflexivity. }
  assert (Hrest :
    bind (compile_all regex re_compile (pattern_sources text_ regex_))
      (fun patterns =>
         match replace_scan regex re_search h rep pars patterns (items c) None with
         | Some m =>
             match h !! m with
             | Some o => Ok (<[m := rewrite_line rep o]> h, c)
             | None => Ok (h, c)
             end
         | None => if true then add h c (AStr rep) pars else Ok (h, c)
         end) = add h c (AStr rep) pars).
  { rewrite Hcomp. cbn [bind]. rewrite Hscan by auto. reflexivity. }
  unfold replace. destruct text_ as [t|]; [exact Hrest|].
  destruct regex_ as [|s|l]; [|exact Hrest|exact Hrest].
  destruct Hargs as [Ha|Ha]; congruence.
Qed.

End ReplaceEffect.

Lemma replace_changes_one_node_witness :
  mkConfig 2 [0; 1] None = mkConfig 2 [0; 1] None
  /\ length [ mkConfigLine acl_parent acl_parent [] [1];
              mkConfigLine "20 permit tcp any any" "  20 permit tcp any any" [0] [] ]
     = length acl_heap
  /\ ([ mkConfigLine acl_parent acl_parent [] [1];
        mkConfigLine "20 permit tcp any any" "  20 permit tcp any any" [0] [] ]
      = acl_heap
      \/ exists m o p patterns,
           compile_all LiteralRe.regex LiteralRe.re_compile
             (pattern_sources (Some acl_child) ANone) = Ok patterns
           /\ In p patterns /\ LiteralRe.re_search p (text o) = true
           /\ In m (items (mkConfig 2 [0; 1] None)) /\ acl_heap !! m = Some o
           /\ text o <> "20 permit tcp any any"
           /\ texts_of acl_heap (parents o) = [acl_parent]
           /\ [ mkConfigLine acl_parent acl_parent [] [1];
                mkConfigLine "20 permit tcp any any" "  20 permit tcp any any" [0] [] ]
              = <[m := mkConfigLine "20 permit tcp any any"
                         (String.append (PyStr.spaces (PyStr.leading_ws (raw o)))
                                        "20 permit tcp any any")
                         (parents o) (children o)]> acl_heap
           /\ PyStr.leading_ws
                (String.append (PyStr.spaces (PyStr.leading_ws (raw o)))
                               "20 permit tcp any any")
              = PyStr.leading_ws (raw o) + PyStr.leading_ws "20 permit tcp any any").
Proof.
  apply (replace_changes_one_node LiteralRe.re_compile LiteralRe.re_search
           acl_heap _ (mkConfig 2 [0; 1] None) _ "20 permit tcp any any"
           (Some acl_child) ANone [acl_parent] false).
  vm_compute; reflexivity.
Defined.

Lemma replace_missing_is_add_witness :
  replace LiteralRe.regex LiteralRe.re_compile LiteralRe.re_search
          acl_heap (mkConfig 2 [0; 1] None) "20 permit tcp any any"
          (Some "30 deny ip any any") ANone [acl_parent] true false
  = add acl_heap (mkConfig 2 [0; 1] None) (AStr "20 permit tcp any any")
        [acl_parent].
Proof.
  apply (replace_missing_is_add LiteralRe.re_compile LiteralRe.re_search
           acl_heap (mkConfig 2 [0; 1] None) "20 permit tcp any any"
           (Some "30 deny ip any any") ANone [acl_parent] false
           [("30 deny ip any any", true)]).
  - left; discriminate.
  - vm_compute; reflexivity.
  - intros i o p Hi Ho Hp.
    destruct Hp as [<-|[]].
    destruct Hi as [<-|[<-|[]]]; vm_compute in Ho; injection Ho as <-;
      vm_compute; reflexivity.
Defined.

(** * The nodes of a parse are the lines that are kept *)

Lemma map_append_child {B : Type} (f : ConfigLine -> B) (h : heap) (a c : nat) :
  (forall o l, f (set_children o l) = f o) ->
  map f (append_child h a c) = map f h.
Proof.
  intros Hf. unfold append_child. destruct (h !! a) as [o|] eqn:E; [|reflexivity].
  change (map f) with (fmap (M := list) f).
  rewrite list_fmap_insert, Hf. apply list_insert_id.
  rewrite list_lookup_fmap, E. reflexivity.
Qed.

Lemma parse_line_listing (ind : nat) (tokens : list string) (st st1 : pstate)
    (line : string) :
  parse_line ind tokens st line = Ok st1 ->
  map raw (p_heap st1)
    = map raw (p_heap st) ++ (if kept tokens line then [line] else [])
  /\ map text (p_heap st1)
     = map text (p_heap st)
       ++ map normalize (if kept tokens line then [line] else [])
  /\ config st1
     = config st ++ seq (length (p_heap st))
                        (length (if kept tokens line then [line] else [])).
Proof.
  unfold parse_line, kept, normalize.
  destruct (String.eqb _ "" || ignore_line _ tokens); cbn [negb].
  { intros H. injection H as <-. cbn. rewrite !app_nil_r. auto. }
  destruct (toplevel_match line).
  { intros H. injection H as <-. cbn [p_heap config]. rewrite !map_app. auto. }
  destruct ind as [|k]; [discriminate|].
  destruct (length (ancestors st) <? _)%nat.
  { intros H. injection H as <-. cbn [p_heap config]. rewrite !map_app. auto. }
  destruct (py_index _ _) as [p|]; [|discriminate].
  intros H. injection H as <-. cbn [p_heap config].
  rewrite !map_append_child by reflexivity. rewrite !map_app. auto.
Qed.

Lemma parse_lines_listing (ind : nat) (tokens : list string) (ls : list string) :
  forall st st1,
    parse_lines ind tokens st ls = Ok st1 ->
    map raw (p_heap st1) = map raw (p_heap st) ++ List.filter (kept tokens) ls
    /\ map text (p_heap st1)
       = map text (p_heap st) ++ map normalize (List.filter (kept tokens) ls)
    /\ config st1
       = config st ++ seq (length (p_heap st))
                          (length (List.filter (kept tokens) ls)).
Proof.
  induction ls as [|l ls IH]; intros st st1; cbn [parse_lines List.filter].
  - intros H. injection H as <-. cbn. rewrite !app_nil_r. auto.
  - destruct (parse_line ind tokens st l) as [st2|e] eqn:E;
      [|cbn [bind]; discriminate].
    cbn [bind]. intros H.
    destruct (parse_line_listing _ _ _ _ _ E) as (R1 & T1 & C1).
    destruct (IH _ _ H) as (R2 & T2 & C2).
    assert (Hlen : length (p_heap st2)
                   = length (p_heap st) + length (if kept tokens l then [l] else [])).
    { rewrite <- (length_map raw (p_heap st2)), R1, length_app, length_map.
      reflexivity. }
    rewrite R2, R1, T2, T1, C2, C1, Hlen.
    destruct (kept tokens l); cbn [map length app List.filter].
    + rewrite <- !app_assoc. cbn [app]. split; [reflexivity|].
      split; [reflexivity|].
      rewrite Nat.add_1_r. reflexivity.
    + rewrite !app_nil_r, Nat.add_0_r. auto.
Qed.

(** X14.  The nodes that [parse] makes are, in the order of the text, the
    lines that are neither blank after normalization nor comments: each
    such line gives one node whose raw text is the line as it stands and
    whose text is the line without [{], [}], [;] and without surrounding
    white space; the node list holds these nodes in that order.  This
    holds whatever the indentation is, orphan lines included. *)
Theorem parse_nodes_are_kept_lines (h0 h : heap) (lines : string) (ind : nat)
    (tokens : list string) (l : list nat) :
  parse h0 lines ind tokens = Ok (h, l) ->
  map raw h = map raw h0 ++ List.filter (kept tokens) (PyStr.split_nl lines)
  /\ map text h
     = map text h0
       ++ map normalize (List.filter (kept tokens) (PyStr.split_nl lines))
  /\ l = seq (length h0)
             (length (List.filter (kept tokens) (PyStr.split_nl lines))).
Proof.
  unfold parse.
  destruct (parse_lines ind tokens (mkPstate h0 [] []) (PyStr.split_nl lines))
    as [st|e] eqn:E; [|cbn [bind]; discriminate].
  cbn [bind]. intros H. injection H as <- <-.
  exact (parse_lines_listing _ _ _ _ _ E).
Qed.

Lemma parse_nodes_are_kept_lines_witness :
  map raw [mkConfigLine "a" "a" [] []; mkConfigLine "b" "    b" [0] []]
    = map raw [] ++ List.filter (kept []) (PyStr.split_nl orphan_text)
  /\ map text [mkConfigLine "a" "a" [] []; mkConfigLine "b" "    b" [0] []]
     = map text []
       ++ map normalize (List.filter (kept []) (PyStr.split_nl orphan_text))
  /\ [0; 1] = seq (length ([] : heap))
                  (length (List.filter (kept []) (PyStr.split_nl orphan_text))).
Proof.
  apply (parse_nodes_are_kept_lines [] _ orphan_text 2 [] [0; 1]).
  vm_compute; reflexivity.
Defined.

(** * The normalized text *)

Lemma lstrip_head (s : string) :
  PyStr.lstrip s = EmptyString
  \/ exists c r, PyStr.lstrip s = String c r /\ PyStr.is_space c = false.
Proof.
  induction s as [|c s IH]; simpl; [left; reflexivity|].
  destruct (PyStr.is_space c) eqn:E; [exact IH|].
  right. exists c, s. auto.
Qed.

Lemma rstrip_head (c : ascii) (r : string) :
  PyStr.is_space c = false -> exists r', PyStr.rstrip (String c r) = String c r'.
Proof.
  intros H. simpl. destruct (PyStr.rstrip r); [rewrite H|]; eexists; reflexivity.
Qed.

Lemma rstrip_cons (c : ascii) (r : string) :
  PyStr.rstrip (String c r) =
    match PyStr.rstrip r with
    | EmptyString =>
        if PyStr.is_space c then EmptyString else String c EmptyString
    | String d t => String c (String d t)
    end.
Proof. reflexivity. Qed.

Lemma rstrip_idem (s : string) : PyStr.rstrip (PyStr.rstrip s) = PyStr.rstrip s.
Proof.
  induction s as [|c s IH]; [reflexivity|]. rewrite (rstrip_cons c s).
  destruct (PyStr.rstrip s) as [|d t] eqn:E.
  - destruct (PyStr.is_space c) eqn:Ec; [reflexivity|].
    rewrite rstrip_cons. simpl. rewrite Ec. reflexivity.
  - rewrite rstrip_cons, IH. reflexivity.
Qed.

Lemma strip_idem (s : string) : PyStr.strip (PyStr.strip s) = PyStr.strip s.
Proof.
  unfold PyStr.strip. destruct (lstrip_head s) as [E|(c & r & E & Hc)]; rewrite E.
  - reflexivity.
  - destruct (rstrip_head c r Hc) as [r' Hr]. rewrite Hr.
    cbn [PyStr.lstrip]. rewrite Hc, <- Hr. apply rstrip_idem.
Qed.

Lemma strip_no_leading_ws (s : string) : PyStr.leading_ws (PyStr.strip s) = 0.
Proof.
  unfold PyStr.strip. destruct (lstrip_head s) as [E|(c & r & E & Hc)]; rewrite E.
  - reflexivity.
  - destruct (rstrip_head c r Hc) as [r' Hr]. rewrite Hr. simpl. rewrite Hc.
    reflexivity.
Qed.

Lemma sub_braces_no_braces (s : string) : no_braces (PyStr.sub_braces s) = true.
Proof.
  induction s as [|c s IH]; [reflexivity|]. simpl.
  destruct ((nat_of_ascii c =? 123)%nat || (nat_of_ascii c =? 125)%nat
            || (nat_of_ascii c =? 59)%nat) eqn:E; [exact IH|].
  simpl. rewrite E, IH. reflexivity.
Qed.

Lemma lstrip_no_braces (s : string) :
  no_braces s = true -> no_braces (PyStr.lstrip s) = true.
Proof.
  induction s as [|c s IH]; [auto|]. intros H. simpl.
  destruct (PyStr.is_space c); [|exact H].
  apply IH. simpl in H. apply andb_prop in H as [_ H]. exact H.
Qed.

Lemma rstrip_no_braces (s : string) :
  no_braces s = true -> no_braces (PyStr.rstrip s) = true.
Proof.
  induction s as [|c s IH]; [auto|]. intros H. simpl in H.
  apply andb_prop in H as [Hc Hs]. specialize (IH Hs). simpl.
  destruct (PyStr.rstrip s) as [|d t].
  - destruct (PyStr.is_space c); [reflexivity|]. simpl. rewrite Hc. reflexivity.
  - cbn [no_braces]. rewrite Hc. exact IH.
Qed.

Lemma no_braces_sub_braces (s : string) :
  no_braces s = true -> PyStr.sub_braces s = s.
Proof.
  induction s as [|c s IH]; [reflexivity|]. intros H. simpl in *.
  apply andb_prop in H as [Hc Hs]. apply negb_true_iff in Hc.
  rewrite Hc, (IH Hs). reflexivity.
Qed.

Lemma normalize_normal (line : string) :
  no_braces (normalize line) = true
  /\ normalize (normalize line) = normalize line
  /\ PyStr.leading_ws (normalize line) = 0.
Proof.
  assert (Hn : no_braces (normalize line) = true).
  { unfold normalize, PyStr.strip.
    apply rstrip_no_braces, lstrip_no_braces, sub_braces_no_braces. }
  split; [exact Hn|]. split; [|apply strip_no_leading_ws].
  unfold normalize at 1. rewrite (no_braces_sub_braces _ Hn).
  unfold normalize. apply strip_idem.
Qed.

Lemma parse_line_texts (ind : nat) (tokens : list string) (st st1 : pstate)
    (line : string) :
  parse_line ind tokens st line = Ok st1 ->
  Forall (fun o => kept tokens (raw o) = true /\ text o = normalize (raw o))
         (p_heap st) ->
  Forall (fun o => kept tokens (raw o) = true /\ text o = normalize (raw o))
         (p_heap st1).
Proof.
  intros H Hall.
  destruct (parse_line_listing _ _ _ _ _ H) as (R & T & _).
  rewrite List.Forall_forall in *. intros o Ho.
  destruct (In_lookup _ _ Ho) as [i Hi].
  assert (Hr : map raw (p_heap st1) !! i = Some (raw o)).
  { change (map raw) with (fmap (M := list) raw).
    rewrite list_lookup_fmap, Hi. reflexivity. }
  assert (Ht : map text (p_heap st1) !! i = Some (text o)).
  { change (map text) with (fmap (M := list) text).
    rewrite list_lookup_fmap, Hi. reflexivity. }
  rewrite R in Hr. rewrite T in Ht.
  destruct (decide (i < length (p_heap st))) as [Hlt|Hge].
  - rewrite lookup_app_l in Hr by (rewrite length_map; exact Hlt).
    rewrite lookup_app_l in Ht by (rewrite length_map; exact Hlt).
    apply lookup_lt_is_Some in Hlt as [o0 Ho0].
    change (map raw) with (fmap (M := list) raw) in Hr.
    change (map text) with (fmap (M := list) text) in Ht.
    rewrite list_lookup_fmap, Ho0 in Hr. rewrite list_lookup_fmap, Ho0 in Ht.
    injection Hr as Hr. injection Ht as Ht.
    destruct (Hall o0 (lookup_In _ _ _ Ho0)) as [K N].
    rewrite <- Hr, <- Ht. split; assumption.
  - rewrite lookup_app_r in Hr by (rewrite length_map; lia).
    rewrite lookup_app_r in Ht by (rewrite length_map; lia).
    rewrite length_map in Hr, Ht.
    destruct (kept tokens line) eqn:K;
      [|destruct (i - length (p_heap st)); discriminate].
    destruct (i - length (p_heap st)) as [|k]; [|destruct k; discriminate].
    injection Hr as <-. injection Ht as <-. split; [exact K | reflexivity].
Qed.

Lemma parse_lines_texts (ind : nat) (tokens : list string) (ls : list string) :
  forall st st1,
    parse_lines ind tokens st ls = Ok st1 ->
    Forall (fun o => kept tokens (raw o) = true /\ text o = normalize (raw o))
           (p_heap st) ->
    Forall (fun o => kept tokens (raw o) = true /\ text o = normalize (raw o))
           (p_heap st1).
Proof.
  induction ls as [|l ls IH]; intros st st1; cbn [parse_lines].
  - intros H. injection H as <-. auto.
  - destruct (parse_line ind tokens st l) as [st2|e] eqn:E;
      [|cbn [bind]; discriminate].
    cbn [bind]. intros H Hall.
    apply (IH st2 st1 H). exact (parse_line_texts _ _ _ _ _ E Hall).
Qed.

(** X15.  In a tree built by [parse], the text of every node is the
    normalization of its raw text: it is not empty, holds none of [{],
    [}], [;], has no white space on either side, normalizing it again
    changes nothing, and it starts with no comment token. *)
Theorem parsed_text_is_normal (lines : string) (ind : nat)
    (tokens : list string) (h : heap) (l : list nat) (i : nat)
    (o : ConfigLine) :
  parse [] lines ind tokens = Ok (h, l) ->
  h !! i = Some o ->
  text o = PyStr.strip (PyStr.sub_braces (raw o))
  /\ text o <> EmptyString
  /\ ignore_line (text o) tokens = false
  /\ no_braces (text o) = true
  /\ PyStr.strip (text o) = text o
  /\ PyStr.leading_ws (text o) = 0.
Proof.
  unfold parse.
  destruct (parse_lines ind tokens (mkPstate [] [] []) (PyStr.split_nl lines))
    as [st|e] eqn:E; [|cbn [bind]; discriminate].
  cbn [bind]. intros H Hi. injection H as <- <-.
  pose proof (parse_lines_texts _ _ _ _ _ E (List.Forall_nil _)) as Hall.
  rewrite List.Forall_forall in Hall.
  destruct (Hall o (lookup_In _ _ _ Hi)) as [K N].
  destruct (normalize_normal (raw o)) as (N1 & N2 & N3).
  unfold kept in K. apply negb_true_iff, orb_false_iff in K as [K1 K2].
  fold (normalize (raw o)) in K1, K2. rewrite <- N in *.
  split; [exact N|]. split; [apply String.eqb_neq; exact K1|].
  split; [exact K2|]. split; [exact N1|]. split; [|exact N3].
  unfold normalize in N2. rewrite (no_braces_sub_braces _ N1) in N2. exact N2.
Qed.

Lemma parsed_text_is_normal_witness :
  text (mkConfigLine "vlan 10" "vlan 10 {" [] [])
    = PyStr.strip (PyStr.sub_braces (raw (mkConfigLine "vlan 10" "vlan 10 {" [] [])))
  /\ text (mkConfigLine "vlan 10" "vlan 10 {" [] []) <> EmptyString
  /\ ignore_line (text (mkConfigLine "vlan 10" "vlan 10 {" [] [])) [] = false
  /\ no_braces (text (mkConfigLine "vlan 10" "vlan 10 {" [] [])) = true
  /\ PyStr.strip (text (mkConfigLine "vlan 10" "vlan 10 {" [] []))
     = text (mkConfigLine "vlan 10" "vlan 10 {" [] [])
  /\ PyStr.leading_ws (text (mkConfigLine "vlan 10" "vlan 10 {" [] [])) = 0.
Proof.
  apply (parsed_text_is_normal "vlan 10 {" 2 [] vlan_heap [0] 0);
    vm_compute; reflexivity.
Defined.

(** * The wiring of a child line *)

Lemma append_child_last (h : heap) (node : ConfigLine) (c : nat) :
  append_child (h ++ [node]) (length h) c
  = h ++ [set_children node (children node ++ [c])].
Proof.
  unfold append_child.
  rewrite lookup_app_r by lia. rewrite Nat.sub_diag. cbn [lookup list_lookup].
  replace (length h) with (length h + 0) at 1 by lia.
  rewrite insert_app_r. reflexivity.
Qed.

(** X16.  A line that gives a node, starts with white space and whose
    level does not exceed the depth of the ancestor stack is wired as
    follows.  At level [k + 1] its parents are the first [k + 1]
    ancestors, it is appended to the children of the ancestor at position
    [k], and the stack becomes these ancestors followed by the node.  At
    level 0 (an indentation narrower than one indent) the index [-1]
    designates the node itself: it has no parents, it is appended to its
    own children and it becomes the only ancestor. *)
Theorem parse_line_child (ind : nat) (tokens : list string) (st : pstate)
    (line : string) :
  kept tokens line = true ->
  toplevel_match line = false ->
  ind <> 0 ->
  (PyStr.leading_ws line / ind = 0 ->
   parse_line ind tokens st line =
     Ok (mkPstate
           (p_heap st ++ [mkConfigLine (normalize line) line []
                                       [length (p_heap st)]])
           [length (p_heap st)]
           (config st ++ [length (p_heap st)])))
  /\ (forall k p,
        PyStr.leading_ws line / ind = S k ->
        ancestors st !! k = Some p ->
        parse_line ind tokens st line =
          Ok (mkPstate
                (append_child
                   (p_heap st ++ [mkConfigLine (normalize line) line
                                               (take (S k) (ancestors st)) []])
                   p (length (p_heap st)))
                (take (S k) (ancestors st) ++ [length (p_heap st)])
                (config st ++ [length (p_heap st)]))).
Proof.
  intros Hk Htop Hind. unfold kept in Hk. apply negb_true_iff in Hk.
  unfold parse_line, normalize. rewrite Hk, Htop.
  destruct ind as [|n]; [congruence|]. split.
  - intros ->. cbn [Nat.ltb Nat.leb take app].
    replace (length (ancestors st) <? 0)%nat with false
      by (symmetry; apply Nat.ltb_ge; lia).
    change (take 0 (ancestors st)) with (@nil nat). cbn [app].
    change (py_index [length (p_heap st)] (Z.of_nat 0 - 1))
      with (Some (length (p_heap st))).
    cbn iota. rewrite append_child_last. reflexivity.
  - intros k p -> Hp.
    pose proof (lookup_lt_Some _ _ _ Hp) as Hlt.
    replace (length (ancestors st) <? S k)%nat with false
      by (symmetry; apply Nat.ltb_ge; lia).
    unfold py_index.
    replace (Z.of_nat (S k) - 1 <? 0)%Z with false
      by (symmetry; apply Z.ltb_ge; lia).
    replace (Z.to_nat (Z.of_nat (S k) - 1)) with k by lia.
    rewrite lookup_app_l by (rewrite length_take; lia).
    rewrite lookup_take_lt by lia. rewrite Hp. reflexivity.
Qed.

Lemma parse_line_child_witness :
  (PyStr.leading_ws " c" / 2 = 0 ->
   parse_line 2 [] (mkPstate [mkConfigLine "a" "a" [] []] [0] [0]) " c" =
     Ok (mkPstate
           ([mkConfigLine "a" "a" [] []]
              ++ [mkConfigLine (normalize " c") " c" [] [1]])
           [1] ([0] ++ [1])))
  /\ (forall k p,
        PyStr.leading_ws " c" / 2 = S k ->
        [0] !! k = Some p ->
        parse_line 2 [] (mkPstate [mkConfigLine "a" "a" [] []] [0] [0]) " c" =
          Ok (mkPstate
                (append_child
                   ([mkConfigLine "a" "a" [] []]
                      ++ [mkConfigLine (normalize " c") " c" (take (S k) [0]) []])
                   p 1)
                (take (S k) [0] ++ [1])
                ([0] ++ [1]))).
Proof.
  apply (parse_line_child 2 [] (mkPstate [mkConfigLine "a" "a" [] []] [0] [0]) " c");
    [reflexivity | reflexivity | lia].
Defined.

(** * What the flattened difference holds *)

Lemma flatten_cons (k : string) (v : odict) (r : list (string * odict)) :
  flatten (OD ((k, v) :: r)) = k :: flatten v ++ flatten (OD r).
Proof. reflexivity. Qed.

Lemma od_update_keeps (k : string) (f : odict -> odict)
    (l : list (string * odict)) (x : string) :
  (forall v, In x (flatten v) -> In x (flatten (f v))) ->
  In x (flatten (OD l)) -> In x (flatten (OD (od_update k f l))).
Proof.
  intros Hf. induction l as [|[k' v] r IH]; [intros []|].
  rewrite flatten_cons. cbn [od_update].
  destruct (String.eqb k' k); rewrite flatten_cons; cbn [In];
    rewrite !in_app_iff; intros [H|[H|H]]; auto.
Qed.

Lemma od_update_reaches (k : string) (f : odict -> odict)
    (l : list (string * odict)) (x : string) :
  (x = k \/ forall v, In x (flatten (f v))) ->
  In x (flatten (OD (od_update k f l))).
Proof.
  intros Hx. induction l as [|[k' v] r IH]; cbn [od_update].
  - rewrite flatten_cons. destruct Hx as [->|Hx]; [left; reflexivity|].
    right. apply in_app_iff. left. apply Hx.
  - destruct (String.eqb_spec k' k) as [->|Hne]; rewrite flatten_cons.
    + destruct Hx as [->|Hx]; [left; reflexivity|].
      right. apply in_app_iff. left. apply Hx.
    + right. apply in_app_iff. right. exact IH.
Qed.

Lemma fold_add_key_keeps (kids : list string) (x : string) :
  forall d, In x (flatten d) -> In x (flatten (fold_left od_add_key kids d)).
Proof.
  induction kids as [|k kids IH]; intros d H; [exact H|].
  cbn [fold_left]. apply IH. destruct d as [l]. cbn [od_add_key].
  apply od_update_keeps; auto.
Qed.

Lemma expand_block_keeps (block kids : list string) (x : string) :
  forall d, In x (flatten d) -> In x (flatten (expand_block block kids d)).
Proof.
  induction block as [|b bs IH]; intros d H; cbn [expand_block].
  - apply fold_add_key_keeps. exact H.
  - destruct d as [l]. apply od_update_keeps; [exact IH | exact H].
Qed.

Lemma expand_block_reaches (block kids : list string) (x : string) :
  In x block -> forall d, In x (flatten (expand_block block kids d)).
Proof.
  induction block as [|b bs IH]; intros Hx d; [destruct Hx|].
  cbn [expand_block]. destruct d as [l]. apply od_update_reaches.
  destruct Hx as [->|Hx]; [left; reflexivity | right; exact (IH Hx)].
Qed.

Lemma expand_keeps (h : heap) (u : nat) (x : string) (d : odict) :
  In x (flatten d) -> In x (flatten (expand h u d)).
Proof.
  unfold expand. destruct (h !! u); [apply expand_block_keeps | auto].
Qed.

Lemma fold_expand_keeps (h : heap) (g : nat -> nat) (us : list nat) (x : string) :
  forall d, In x (flatten d) ->
    In x (flatten (fold_left (fun diffs update => expand h (g update) diffs) us d)).
Proof.
  induction us as [|u us IH]; intros d H; [exact H|].
  cbn [fold_left]. apply IH. apply expand_keeps. exact H.
Qed.

Lemma fold_expand_reaches (h : heap) (g : nat -> nat) (us : list nat)
    (u : nat) (o : ConfigLine) (x : string) :
  In u us -> h !! (g u) = Some o ->
  In x (raws_of h (parents o) ++ [raw o]) ->
  forall d,
    In x (flatten (fold_left (fun diffs update => expand h (g update) diffs) us d)).
Proof.
  intros Hu Ho Hx. induction us as [|v us IH]; intros d; [destruct Hu|].
  cbn [fold_left]. destruct Hu as [->|Hu]; [|apply IH; exact Hu].
  apply fold_expand_keeps. unfold expand. rewrite Ho.
  apply expand_block_reaches. exact Hx.
Qed.

(** X17.  Under the line policy with no path, for a tree that is not
    junos and a replace mode other than ["block"], the list returned by
    [difference] holds the raw line of every node of the candidate that is
    not in the node list of the reference, together with the raw lines of
    all the parents of that node. *)
Theorem difference_line_lists_updates (h : heap) (A B : CustomNetworkConfig)
    (rep : string) :
  is_junos A = false -> String.eqb rep "block" = false ->
  exists out,
    difference h A B None "line" rep = Ok (DLines out)
    /\ forall i o, In i (items A) -> h !! i = Some o ->
         obj_in h i (items B) = false ->
         In (raw o) out
         /\ forall r, In r (raws_of h (parents o)) -> In r out.
Proof.
  intros Hj Hrep. unfold difference. cbn [children_or_items path_true bind].
  change (String.eqb "line" "line") with true. cbn iota. cbn [bind].
  rewrite Hj. eexists. split; [reflexivity|].
  intros i o Hi Ho Hnot.
  assert (Hu : In i (match_line h (items A) (items B))).
  { unfold match_line. apply filter_In. split; [exact Hi|]. rewrite Hnot. reflexivity. }
  assert (Hg : h !! block_target h rep i = Some o).
  { unfold block_target. rewrite Hrep. exact Ho. }
  split.
  - apply (fold_expand_reaches h (block_target h rep) _ i o (raw o) Hu Hg).
    apply in_app_iff. right. left. reflexivity.
  - intros r Hr.
    apply (fold_expand_reaches h (block_target h rep) _ i o r Hu Hg).
    apply in_app_iff. left. exact Hr.
Qed.

Lemma difference_line_lists_updates_witness :
  exists out,
    difference acl_heap (mkConfig 2 [0; 1] None) (mkConfig 2 [0] None)
               None "line" "line" = Ok (DLines out)
    /\ forall i o, In i (items (mkConfig 2 [0; 1] None)) -> acl_heap !! i = Some o ->
         obj_in acl_heap i (items (mkConfig 2 [0] None)) = false ->
         In (raw o) out
         /\ forall r, In r (raws_of acl_heap (parents o)) -> In r out.
Proof.
  apply (difference_line_lists_updates acl_heap (mkConfig 2 [0; 1] None)
           (mkConfig 2 [0] None) "line"); reflexivity.
Defined.

Lemma od_update_only (k : string) (f : odict -> odict)
    (l : list (string * odict)) (x : string) (P : Prop) :
  (forall v, In x (flatten (f v)) -> In x (flatten v) \/ P) ->
  In x (flatten (OD (od_update k f l))) ->
  x = k \/ In x (flatten (OD l)) \/ P.
Proof.
  intros Hf. induction l as [|[k' v] r IH]; cbn [od_update].
  - rewrite flatten_cons. cbn [In]. rewrite in_app_iff.
    intros [H|[H|H]]; [left; auto | | destruct H].
    destruct (Hf _ H) as [[]|HP]. right; right; exact HP.
  - destruct (String.eqb k' k); rewrite !flatten_cons; cbn [In];
      rewrite !in_app_iff.
    + intros [H|[H|H]]; [right; left; auto | | right; left; auto].
      destruct (Hf _ H) as [H'|HP]; [right; left; auto | right; right; exact HP].
    + intros [H|[H|H]]; [right; left; auto | right; left; auto |].
      destruct (IH H) as [E|[H'|HP]]; auto.
Qed.

Lemma fold_add_key_only (kids : list string) (x : string) :
  forall d, In x (flatten (fold_left od_add_key kids d)) ->
    In x (flatten d) \/ In x kids.
Proof.
  induction kids as [|k kids IH]; intros d H; [left; exact H|].
  cbn [fold_left] in H. destruct (IH _ H) as [H'|H']; [|right; right; exact H'].
  destruct d as [l]. cbn [od_add_key] in H'.
  assert (Hf : forall v : odict, In x (flatten v) -> In x (flatten v) \/ False)
    by (intros v Hv; left; exact Hv).
  destruct (od_update_only k (fun v => v) l x False Hf H') as [E|[E|[]]].
  - right. left. auto.
  - left. exact E.
Qed.

Lemma expand_block_only (block kids : list string) (x : string) :
  forall d, In x (flatten (expand_block block kids d)) ->
    In x (flatten d) \/ In x block \/ In x kids.
Proof.
  induction block as [|b bs IH]; intros d H; cbn [expand_block] in H.
  - destruct (fold_add_key_only _ _ _ H); auto.
  - destruct d as [l].
    assert (Hf : forall v, In x (flatten (expand_block bs kids v)) ->
                   In x (flatten v) \/ (In x bs \/ In x kids)).
    { intros v Hv. exact (IH v Hv). }
    destruct (od_update_only b (expand_block bs kids) l x _ Hf H)
      as [E|[E|[E|E]]].
    + right. left. left. auto.
    + left. exact E.
    + right. left. right. exact E.
    + right. right. exact E.
Qed.

Lemma fold_expand_only (h : heap) (g : nat -> nat) (us : list nat) (x : string) :
  forall d,
    In x (flatten (fold_left (fun diffs update => expand h (g update) diffs) us d)) ->
    In x (flatten d)
    \/ exists u o, In u us /\ h !! (g u) = Some o
         /\ (In x (raws_of h (parents o)) \/ x = raw o
             \/ In x (raws_of h (children o))).
Proof.
  induction us as [|u us IH]; intros d H; [left; exact H|].
  cbn [fold_left] in H. destruct (IH _ H) as [H'|(v & o & Hv & Ho & Hx)].
  - unfold expand in H'. destruct (h !! g u) as [o|] eqn:Ho; [|left; exact H'].
    destruct (expand_block_only _ _ _ _ H') as [E|[E|E]]; [left; exact E | |].
    + right. exists u, o. split; [left; reflexivity|]. split; [exact Ho|].
      apply in_app_iff in E as [E|[E|[]]]; auto.
    + right. exists u, o. split; [left; reflexivity|]. split; [exact Ho|]. auto.
  - right. exists v, o. split; [right; exact Hv|]. split; assumption.
Qed.

(** X18.  Under the line policy with no path, for a tree that is not
    junos, every line returned by [difference] comes from a node of the
    candidate that is not in the node list of the reference: it is the raw
    line of that node (of its last parent under ["block"], when it has
    parents), of one of the parents of that object or of one of its
    children. *)
Theorem difference_line_only_updates (h : heap) (A B : CustomNetworkConfig)
    (rep : string) :
  is_junos A = false ->
  exists out,
    difference h A B None "line" rep = Ok (DLines out)
    /\ forall x, In x out ->
         exists i o,
           In i (items A) /\ obj_in h i (items B) = false
           /\ h !! block_target h rep i = Some o
           /\ (In x (raws_of h (parents o)) \/ x = raw o
               \/ In x (raws_of h (children o))).
Proof.
  intros Hj. unfold difference. cbn [children_or_items path_true bind].
  change (String.eqb "line" "line") with true. cbn iota. cbn [bind].
  rewrite Hj. eexists. split; [reflexivity|].
  intros x Hx.
  destruct (fold_expand_only h (block_target h rep) _ x _ Hx)
    as [[]|(u & o & Hu & Ho & Hin)].
  unfold match_line in Hu. apply filter_In in Hu as [Hu1 Hu2].
  apply negb_true_iff in Hu2. exists u, o. auto.
Qed.

Lemma difference_line_only_updates_witness :
  exists out,
    difference acl_heap (mkConfig 2 [0; 1] None) (mkConfig 2 [0] None)
               None "line" "block" = Ok (DLines out)
    /\ forall x, In x out ->
         exists i o,
           In i (items (mkConfig 2 [0; 1] None))
           /\ obj_in acl_heap i (items (mkConfig 2 [0] None)) = false
           /\ acl_heap !! block_target acl_heap "block" i = Some o
           /\ (In x (raws_of acl_heap (parents o)) \/ x = raw o
               \/ In x (raws_of acl_heap (children o))).
Proof.
  apply (difference_line_only_updates acl_heap (mkConfig 2 [0; 1] None)
           (mkConfig 2 [0] None) "block"); reflexivity.
Defined.

(** * Parsing the same text twice *)

Lemma py_index_fmap {A B : Type} (f : A -> B) (l : list A) (i : Z) :
  py_index (f <$> l) i = f <$> py_index l i.
Proof.
  unfold py_index. rewrite length_fmap.
  destruct (i <? 0)%Z.
  - destruct (Z.of_nat (length l) + i <? 0)%Z; [reflexivity|].
    apply list_lookup_fmap.
  - apply list_lookup_fmap.
Qed.

Lemma append_child_shift (h0 h : heap) (p c : nat) :
  append_child (h0 ++ (shift_node (length h0) <$> h))
               (length h0 + p) (length h0 + c)
  = h0 ++ (shift_node (length h0) <$> append_child h p c).
Proof.
  unfold append_child.
  rewrite lookup_app_r by lia.
  replace (length h0 + p - length h0) with p by lia.
  rewrite list_lookup_fmap.
  destruct (h !! p) as [n|] eqn:Hn; simpl; [|reflexivity].
  rewrite insert_app_r_alt by lia.
  replace (length h0 + p - length h0) with p by lia.
  rewrite list_fmap_insert. f_equal. f_equal.
  unfold shift_node, set_children. simpl.
  rewrite fmap_app. reflexivity.
Qed.

Lemma parse_line_copy (ind : nat) (tokens : list string) (h0 : heap)
    (stA stB stA' : pstate) (line : string) :
  copy_of h0 stA stB ->
  parse_line ind tokens stA line = Ok stA' ->
  exists stB', parse_line ind tokens stB line = Ok stB' /\ copy_of h0 stA' stB'.
Proof.
  intros (Hh & Ha & Hc) HA. unfold parse_line in *.
  destruct (String.eqb (PyStr.strip (PyStr.sub_braces line)) ""
            || ignore_line (PyStr.strip (PyStr.sub_braces line)) tokens).
  { inversion HA; subst. exists stB. split; [reflexivity|]. repeat split; assumption. }
  assert (Hlen : length (p_heap stB) = length h0 + length (p_heap stA)).
  { rewrite Hh, length_app, length_fmap. reflexivity. }
  destruct (toplevel_match line).
  { inversion HA; subst. eexists. split; [reflexivity|].
    unfold copy_of. simpl. rewrite Hlen, Hh, Hc, !fmap_app, <- app_assoc.
    repeat split. }
  destruct ind as [|ind']; [discriminate|].
  set (level := (PyStr.leading_ws line / S ind')%nat) in *.
  rewrite Hlen, Ha, length_fmap, <- fmap_take.
  destruct (length (ancestors stA) <? level)%nat.
  { inversion HA; subst. eexists. split; [reflexivity|].
    unfold copy_of. simpl. rewrite Hh, Hc, !fmap_app, <- app_assoc.
    repeat split. }
  replace ((Nat.add (length h0) <$> take level (ancestors stA))
           ++ [length h0 + length (p_heap stA)])
    with (Nat.add (length h0) <$> (take level (ancestors stA) ++ [length (p_heap stA)]))
    by (rewrite fmap_app; reflexivity).
  rewrite py_index_fmap.
  destruct (py_index (take level (ancestors stA) ++ [length (p_heap stA)])
                     (Z.of_nat level - 1)) as [p|]; [|discriminate].
  inversion HA; subst. simpl. eexists. split; [reflexivity|].
  unfold copy_of. simpl. rewrite Hc, !fmap_app. repeat split.
  rewrite Hh, <- app_assoc.
  change ((shift_node (length h0) <$> p_heap stA)
          ++ [mkConfigLine (PyStr.strip (PyStr.sub_braces line)) line
                (Nat.add (length h0) <$> take level (ancestors stA)) []])
    with ((shift_node (length h0) <$> p_heap stA)
          ++ (shift_node (length h0) <$>
                [mkConfigLine (PyStr.strip (PyStr.sub_braces line)) line
                   (take level (ancestors stA)) []])).
  rewrite <- fmap_app. apply append_child_shift.
Qed.

Lemma parse_lines_copy (ind : nat) (tokens : list string) (h0 : heap)
    (ls : list string) :
  forall stA stB stA',
    copy_of h0 stA stB ->
    parse_lines ind tokens stA ls = Ok stA' ->
    exists stB', parse_lines ind tokens stB ls = Ok stB' /\ copy_of h0 stA' stB'.
Proof.
  induction ls as [|l ls IH]; intros stA stB stA' Hc HA; cbn [parse_lines] in *.
  - inversion HA; subst. exists stB. split; [reflexivity|assumption].
  - destruct (parse_line ind tokens stA l) as [st1|e] eqn:E1;
      [|cbn [bind] in HA; discriminate].
    cbn [bind] in HA.
    destruct (parse_line_copy ind tokens h0 stA stB st1 l Hc E1) as (stB1 & EB & Hc1).
    rewrite EB. cbn [bind]. eapply IH; eassumption.
Qed.

(** Parsing a text into a store that holds nothing but the result of
    parsing the same text appends a copy of it, moved up by the size of
    the store. *)
Lemma parse_again (lines : string) (ind : nat) (tokens : list string)
    (h1 : heap) (l1 : list nat) :
  parse [] lines ind tokens = Ok (h1, l1) ->
  parse h1 lines ind tokens
  = Ok (h1 ++ (shift_node (length h1) <$> h1), Nat.add (length h1) <$> l1).
Proof.
  unfold parse. intros H.
  destruct (parse_lines ind tokens (mkPstate [] [] []) (PyStr.split_nl lines))
    as [stA|e] eqn:EA; [|cbn [bind] in H; discriminate].
  cbn [bind] in H. inversion H; subst.
  assert (Hc : copy_of (p_heap stA) (mkPstate [] [] []) (mkPstate (p_heap stA) [] [])).
  { unfold copy_of. simpl. rewrite app_nil_r. repeat split. }
  destruct (parse_lines_copy ind tokens (p_heap stA) _ _ _ _ Hc EA)
    as (stB & EB & Hh & _ & Hcfg).
  rewrite EB. cbn [bind]. rewrite Hh, Hcfg. reflexivity.
Qed.

Lemma texts_of_shift (h1 : heap) (l : list nat) :
  Forall (fun q => q < length h1) l ->
  texts_of (h1 ++ (shift_node (length h1) <$> h1)) (Nat.add (length h1) <$> l)
  = texts_of (h1 ++ (shift_node (length h1) <$> h1)) l.
Proof.
  induction 1 as [|q l Hq _ IH]; [reflexivity|].
  rewrite fmap_cons, !texts_of_cons, IH.
  rewrite (lookup_app_r h1 _ (length h1 + q)) by lia.
  replace (length h1 + q - length h1) with q by lia.
  rewrite list_lookup_fmap.
  destruct (lookup_lt_is_Some_2 h1 q Hq) as [o Ho].
  rewrite Ho, (lookup_app_l_Some _ _ _ _ Ho). reflexivity.
Qed.

(** In the store that holds a tree and its copy, a node and its copy are
    equal by [__eq__]. *)
Lemma obj_eq_copy (h1 : heap) (i : nat) :
  closedP h1 [] ->
  chained (h1 ++ (shift_node (length h1) <$> h1)) ->
  i < length h1 ->
  obj_eq (h1 ++ (shift_node (length h1) <$> h1)) i (length h1 + i) = true
  /\ obj_eq (h1 ++ (shift_node (length h1) <$> h1)) (length h1 + i) i = true.
Proof.
  intros [_ Hcl] Hch Hi.
  destruct (lookup_lt_is_Some_2 h1 i Hi) as [o Ho].
  destruct (Hcl i o Ho) as [Hpar _].
  assert (H1 : (h1 ++ (shift_node (length h1) <$> h1)) !! i = Some o)
    by (apply lookup_app_l_Some; exact Ho).
  assert (H2 : (h1 ++ (shift_node (length h1) <$> h1)) !! (length h1 + i)
               = Some (shift_node (length h1) o)).
  { rewrite lookup_app_r by lia.
    replace (length h1 + i - length h1) with i by lia.
    rewrite list_lookup_fmap, Ho. reflexivity. }
  split.
  - apply (obj_eq_text_chain _ _ _ _ _ Hch H1 H2). split; [reflexivity|].
    simpl. symmetry. apply texts_of_shift. exact Hpar.
  - apply (obj_eq_text_chain _ _ _ _ _ Hch H2 H1). split; [reflexivity|].
    simpl. apply texts_of_shift. exact Hpar.
Qed.

Lemma match_line_pairwise (h : heap) (l other : list nat) :
  (forall a, In a l -> exists b, In b other /\ obj_eq h a b = true) ->
  match_line h l other = [].
Proof.
  intros H. unfold match_line. induction l as [|i l IH]; [reflexivity|].
  simpl.
  destruct (H i (or_introl eq_refl)) as (b & Hb & Hab).
  assert (Hin : obj_in h i other = true).
  { unfold obj_in. apply existsb_exists. exists b. split; [exact Hb|].
    rewrite Hab. apply orb_true_r. }
  rewrite Hin. simpl. apply IH. intros j Hj. apply H. right. exact Hj.
Qed.

Lemma match_strict_pairwise (h : heap) (l l' : list nat) :
  Forall2 (fun a b => obj_eq h a b = true) l l' -> match_strict h l l' = [].
Proof.
  induction 1 as [|a b l l' Hab _ IH]; [reflexivity|]. simpl.
  unfold obj_ne. rewrite Hab. exact IH.
Qed.

Lemma izip_differs_pairwise (h : heap) (l l' : list nat) :
  Forall2 (fun a b => obj_eq h a b = true) l l' -> izip_differs h l l' = false.
Proof.
  induction 1 as [|a b l l' Hab _ IH]; [reflexivity|]. simpl.
  unfold obj_ne. rewrite Hab. exact IH.
Qed.

(** Two trees whose node lists are equal position by position differ in
    nothing, whatever the policy. *)
Lemma difference_pairwise (h : heap) (A B : CustomNetworkConfig)
    (match_ rep : string) :
  Forall2 (fun a b => obj_eq h a b = true) (items A) (items B) ->
  exists out, difference h A B None match_ rep = Ok out
              /\ diff_empty out = true.
Proof.
  intros HF.
  assert (Hupd : (if String.eqb match_ "line"
                  then Ok (match_line h (items A) (items B))
                  else if String.eqb match_ "strict"
                  then Ok (match_strict h (items A) (items B))
                  else if String.eqb match_ "exact"
                  then Ok (match_exact h (items A) (items B))
                  else Ok []) = Ok ([] : list nat)).
  { destruct (String.eqb match_ "line").
    - rewrite match_line_pairwise; [reflexivity|].
      intros a Ha. apply In_lookup in Ha. destruct Ha as [k Hk].
      destruct (Forall2_lookup_l _ _ _ _ _ HF Hk) as (b & Hb & Hab).
      exists b. split; [|exact Hab]. eapply lookup_In. exact Hb.
    - destruct (String.eqb match_ "strict").
      + rewrite match_strict_pairwise by exact HF. reflexivity.
      + destruct (String.eqb match_ "exact"); [|reflexivity].
        unfold match_exact. rewrite (Forall2_length _ _ _ HF), Nat.eqb_refl. simpl.
        rewrite izip_differs_pairwise by exact HF. reflexivity. }
  unfold difference. cbn [children_or_items path_true bind].
  destruct (String.eqb match_ "line").
  - injection Hupd as ->. cbn [bind]. destruct (is_junos A); eexists; split; reflexivity.
  - destruct (String.eqb match_ "strict").
    + cbn [bind]. injection Hupd as ->.
      destruct (is_junos A); eexists; split; reflexivity.
    + destruct (String.eqb match_ "exact").
      * cbn [bind]. injection Hupd as ->.
        destruct (is_junos A); eexists; split; reflexivity.
      * cbn [bind]. destruct (is_junos A); eexists; split; reflexivity.
Qed.

Lemma parse_twice_pairwise (lines : string) (ind : nat) (tokens : list string) :
  ind <> 0 ->
  exists h1 l1,
    parse [] lines ind tokens = Ok (h1, l1)
    /\ parse h1 lines ind tokens
       = Ok (h1 ++ (shift_node (length h1) <$> h1), Nat.add (length h1) <$> l1)
    /\ Forall2 (fun a b => obj_eq (h1 ++ (shift_node (length h1) <$> h1)) a b = true)
               l1 (Nat.add (length h1) <$> l1)
    /\ Forall2 (fun a b => obj_eq (h1 ++ (shift_node (length h1) <$> h1)) a b = true)
               (Nat.add (length h1) <$> l1) l1.
Proof.
  intros Hind.
  assert (Hnil : closedP [] []).
  { split; [constructor|]. intros i o Ho. rewrite lookup_nil in Ho. discriminate. }
  assert (Hchn : chained []).
  { intros i o Ho. rewrite lookup_nil in Ho. discriminate. }
  destruct (parse_total [] lines ind tokens Hind Hnil Hchn)
    as (h1 & l1 & E1 & Hcl1 & Hch1).
  exists h1, l1. split; [exact E1|].
  pose proof (parse_again lines ind tokens h1 l1 E1) as E2.
  split; [exact E2|].
  assert (Hcl0 : closedP h1 []).
  { destruct Hcl1 as [_ H]. split; [constructor|exact H]. }
  destruct (parse_total h1 lines ind tokens Hind Hcl0 Hch1)
    as (h2 & l2 & E2' & _ & Hch2).
  rewrite E2 in E2'. inversion E2'; subst h2 l2. clear E2'.
  destruct Hcl1 as [Hb _].
  split.
  - apply Forall2_fmap_r. apply Forall_Forall2_diag.
    eapply Forall_impl; [exact Hb|]. intros i Hi. simpl in Hi.
    apply (obj_eq_copy h1 i Hcl0 Hch2 Hi).
  - apply Forall2_fmap_l. apply Forall_Forall2_diag.
    eapply Forall_impl; [exact Hb|]. intros i Hi. simpl in Hi.
    apply (obj_eq_copy h1 i Hcl0 Hch2 Hi).
Qed.

(** Two trees built one after the other from the same contents, with the
    same indent. *)
Lemma init_twice_pairwise (contents : string) (ind : option nat)
    (os1 os2 : option string) :
  exists h1 c1 c2,
    init [] ind (Some contents) os1 = Ok (h1, c1)
    /\ init h1 ind (Some contents) os2
       = Ok (h1 ++ (shift_node (length h1) <$> h1), c2)
    /\ _device_os c1 = os1 /\ _device_os c2 = os2
    /\ items c2 = (Nat.add (length h1) <$> items c1)
    /\ Forall2 (fun a b => obj_eq (h1 ++ (shift_node (length h1) <$> h1)) a b = true)
               (items c1) (items c2)
    /\ Forall2 (fun a b => obj_eq (h1 ++ (shift_node (length h1) <$> h1)) a b = true)
               (items c2) (items c1).
Proof.
  destruct contents as [|a s].
  - exists [], (mkConfig (match ind with Some (S n) => S n | _ => 1 end) [] os1),
      (mkConfig (match ind with Some (S n) => S n | _ => 1 end) [] os2).
    simpl. repeat split; constructor.
  - unfold init, load. cbn [indent _device_os].
    assert (Hind : (match ind with Some (S n) => S n | _ => 1 end) <> 0)
      by (destruct ind as [[|n]|]; lia).
    destruct (parse_twice_pairwise (String a s) _ [] Hind)
      as (h1 & l1 & E1 & E2 & F12 & F21).
    eexists h1, _, _. rewrite E1. cbn [bind fst snd].
    split; [reflexivity|]. rewrite E2. cbn [bind fst snd].
    split; [reflexivity|]. cbn [items _config _device_os].
    repeat split; assumption.
Qed.


(** * load_config *)

(** The running configuration that [custom_get_config] parses, when it is
    the text [contents]. *)
Lemma custom_get_config_contents (h : heap) (module : NetworkModule)
    (contents : string) :
  (param_running_config module = Some contents /\ contents <> EmptyString)
  \/ ((param_running_config module = None
       \/ param_running_config module = Some EmptyString)
      /\ exists rest,
           execute module [show_command module] (show_command_type module)
           = contents :: rest) ->
  exists calls,
    custom_get_config h module
    = (let* r := init h (Some 2) (Some contents) None in Ok (r, calls))
    /\ (calls = []
        \/ calls = [Execute [show_command module] (show_command_type module)]).
Proof.
  intros [[Hp Hne]|[Hp [rest Hex]]]; unfold custom_get_config.
  - exists []. rewrite Hp. destruct contents as [|a s]; [congruence|].
    split; [reflexivity|left; reflexivity].
  - exists [Execute [show_command module] (show_command_type module)].
    split; [|right; reflexivity].
    destruct Hp as [Hp|Hp]; rewrite Hp; cbv zeta; rewrite Hex; reflexivity.
Qed.

(** X20.  When the running configuration (the parameter, or what the
    device answers) is the very text the candidate was built from, with
    indent 2, [load_config] reports no change and configures nothing. *)
Theorem load_config_same_contents (module : NetworkModule) (contents : string)
    (os : option string) (h1 : heap) (candidate : CustomNetworkConfig) :
  init [] (Some 2) (Some contents) os = Ok (h1, candidate) ->
  (param_running_config module = Some contents /\ contents <> EmptyString)
  \/ ((param_running_config module = None
       \/ param_running_config module = Some EmptyString)
      /\ exists rest,
           execute module [show_command module] (show_command_type module)
           = contents :: rest) ->
  exists h2 calls,
    load_config h1 module candidate = Ok (h2, mkLoadResult false None, calls)
    /\ (calls = []
        \/ calls = [Execute [show_command module] (show_command_type module)]).
Proof.
  intros Hinit Hsrc.
  destruct (init_twice_pairwise contents (Some 2) os None)
    as (h1' & c1 & c2 & E1 & E2 & _ & _ & _ & F12 & _).
  rewrite Hinit in E1. inversion E1; subst h1' c1. clear E1.
  destruct (custom_get_config_contents h1 module contents Hsrc)
    as (calls & Hget & Hcalls).
  exists (h1 ++ (shift_node (length h1) <$> h1)), calls.
  split; [|exact Hcalls].
  unfold load_config. rewrite Hget, E2. cbn [bind].
  assert (Hd : exists out,
             difference (h1 ++ (shift_node (length h1) <$> h1)) candidate c2
                        None "line" "line" = Ok out
             /\ diff_empty out = true).
  { apply difference_pairwise. exact F12. }
  destruct Hd as (out & Hout & Hempty). rewrite Hout. cbn [bind].
  destruct out as [[|x l]|[|x l]]; try discriminate; reflexivity.
Qed.

Lemma load_config_same_contents_witness :
  exists h2 calls,
    load_config acl_heap
      (mkModule None true "cli" true false (fun _ _ => [acl_text]))
      (mkConfig 2 [0; 1] None)
    = Ok (h2, mkLoadResult false None, calls)
    /\ (calls = []
        \/ calls = [Execute ["show running-config all"] None]).
Proof.
  apply (load_config_same_contents
           (mkModule None true "cli" true false (fun _ _ => [acl_text]))
           acl_text None acl_heap (mkConfig 2 [0; 1] None)).
  - vm_compute; reflexivity.
  - right. split; [left; reflexivity|]. exists []. reflexivity.
Defined.


(** * The command of an access-list entry *)

Lemma str_append_assoc (a b c : string) :
  String.append (String.append a b) c = String.append a (String.append b c).
Proof.
  induction a as [|x a IH]; [reflexivity|].
  change (String x (String.append (String.append a b) c)
          = String x (String.append a (String.append b c))).
  rewrite IH. reflexivity.
Qed.

Lemma str_append_nil_r (a : string) : String.append a EmptyString = a.
Proof.
  induction a as [|x a IH]; [reflexivity|].
  change (String x (String.append a EmptyString) = String x a).
  rewrite IH. reflexivity.
Qed.

Lemma join_spaced (x : string) (ws : list string) :
  PyStr.join " " (x :: ws) = String.append x (spaced ws).
Proof.
  revert x. induction ws as [|w ws IH]; intros x.
  - simpl. symmetry. apply str_append_nil_r.
  - change (PyStr.join " " (x :: w :: ws))
      with (String.append x (String.append " " (PyStr.join " " (w :: ws)))).
    rewrite (IH w). reflexivity.
Qed.

Lemma spaced_app (a b : list string) :
  spaced (a ++ b) = String.append (spaced a) (spaced b).
Proof.
  induction a as [|w a IH]; [reflexivity|].
  cbn [app spaced]. rewrite IH, !str_append_assoc. reflexivity.
Qed.

Lemma join_values_app (sep : string) (a b : list (option string)) :
  join_values sep (a ++ b)
  = typed_bind (join_values sep a) (fun wa =>
    typed_bind (join_values sep b) (fun wb => Val (wa ++ wb))).
Proof.
  induction a as [|[x|] a IH]; cbn [app join_values typed_bind].
  - destruct (join_values sep b); reflexivity.
  - rewrite IH. destruct (join_values sep a) as [wa|]; cbn [typed_bind];
      [|reflexivity].
    destruct (join_values sep b); reflexivity.
  - reflexivity.
Qed.

(** What [ace += _acl_operand(...)] under [if op:] adds: the words of the
    operand, each after one space. *)
Lemma add_operand_words (ace : string) (op p1 p2 : option string) :
  add_operand ace op p1 p2
  = typed_bind (join_values " " (operand_words op p1 p2))
               (fun ws => Val (String.append ace (spaced ws))).
Proof.
  destruct op as [[|a s]|]; cbn [add_operand operand_words join_values typed_bind spaced];
    try (rewrite str_append_nil_r; reflexivity).
  unfold _acl_operand.
  destruct (String.eqb (String a s) "range");
    destruct p1 as [p1|]; cbn [py_add typed_bind join_values spaced];
    try reflexivity.
  - destruct p2 as [p2|]; cbn [py_add typed_bind join_values spaced];
      [|reflexivity].
    rewrite str_append_nil_r, !str_append_assoc. reflexivity.
  - rewrite str_append_nil_r. reflexivity.
Qed.

(** The entry without a remark is its words joined by single spaces, and
    [TypeError] when one of them is missing. *)
Lemma config_core_acl_words (proposed : gmap string string) :
  truthy (proposed !! "remark") = false ->
  config_core_acl proposed = py_join " " (ace_words proposed).
Proof.
  intros Hr. unfold config_core_acl, ace_words. rewrite Hr. cbn [negb].
  destruct (proposed !! "seq") as [seq|]; [|reflexivity].
  destruct (proposed !! "action") as [action|]; [|reflexivity].
  destruct (proposed !! "proto") as [proto|]; [|reflexivity].
  destruct (proposed !! "src") as [src|]; [|reflexivity].
  unfold py_join.
  cbn [py_add typed_bind join_values app PyStr.join].
  rewrite add_operand_words.
  rewrite join_values_app.
  destruct (join_values " " (operand_words (proposed !! "src_port_op")
              (proposed !! "src_port1") (proposed !! "src_port2")))
    as [w1|]; cbn [typed_bind]; [|reflexivity].
  destruct (proposed !! "dest") as [dest|]; cbn [py_add typed_bind join_values];
    [|reflexivity].
  rewrite add_operand_words.
  destruct (join_values " " (operand_words (proposed !! "dest_port_op")
              (proposed !! "dest_port1") (proposed !! "dest_port2")))
    as [w2|]; cbn [typed_bind]; [|reflexivity].
  f_equal.
  change (seq :: action :: proto :: src :: w1 ++ dest :: w2)
    with (seq :: ([action; proto; src] ++ w1 ++ [dest] ++ w2)).
  rewrite join_spaced, !spaced_app.
  cbn [spaced]. rewrite !str_append_nil_r, !str_append_assoc.
  reflexivity.
Qed.

Lemma join_values_error (sep : string) (l : list (option string)) :
  join_values sep l = TypeError <-> In None l.
Proof.
  induction l as [|[x|] l IH]; cbn [join_values In].
  - split; [discriminate|tauto].
  - destruct (join_values sep l) as [ws|]; cbn [typed_bind].
    + split; [discriminate|]. intros [H|H]; [discriminate|].
      apply IH in H. discriminate.
    + split; [|reflexivity]. intros _. right. apply IH. reflexivity.
  - split; [left; reflexivity|reflexivity].
Qed.

Lemma py_join_error (sep : string) (l : list (option string)) :
  py_join sep l = TypeError <-> In None l.
Proof.
  rewrite <- (join_values_error sep). unfold py_join.
  destruct (join_values sep l); cbn [typed_bind]; split; congruence.
Qed.

Lemma operand_words_missing (op p1 p2 : option string) :
  In None (operand_words op p1 p2) <-> operand_missing op p1 p2 = true.
Proof.
  destruct op as [[|a s]|]; cbn [operand_words operand_missing In];
    try (split; [tauto|discriminate]).
  destruct (String.eqb (String a s) "range"), p1 as [p1|], p2 as [p2|];
    cbn [In]; intuition congruence.
Qed.

(** X22.  The entry that [config_core_acl] builds.  With a remark it is
    [seq remark <remark>], whatever the other keys hold.  Without one it
    is the words seq, action, proto, src, the source operator with its
    port or ports, dest, the destination operator with its port or ports,
    joined by single spaces; a second port is written only for the
    operator [range], and an operator that is empty is left out with its
    ports.  [TypeError] is raised when [seq] or one of the words is
    missing. *)
Theorem config_core_acl_entry (proposed : gmap string string) :
  config_core_acl proposed
  = if truthy (proposed !! "remark") then
      match proposed !! "seq", proposed !! "remark" with
      | Some seq, Some remark =>
          Val (String.append seq (String.append " remark " remark))
      | _, _ => TypeError
      end
    else py_join " " (ace_words proposed).
Proof.
  destruct (truthy (proposed !! "remark")) eqn:Hr.
  - unfold config_core_acl. rewrite Hr. cbn [negb].
    destruct (proposed !! "seq") as [seq|]; [|reflexivity].
    destruct (proposed !! "remark") as [remark|]; [|discriminate].
    cbn [py_add typed_bind]. rewrite str_append_assoc. reflexivity.
  - apply config_core_acl_words. exact Hr.
Qed.

(** X23.  [config_core_acl] raises [TypeError] exactly when [seq] is
    missing or, there being no remark, when one of action, proto, src and
    dest is missing or a port operator is given without its port (without
    its second port for [range]). *)
Theorem config_core_acl_type_error (proposed : gmap string string) :
  config_core_acl proposed = TypeError
  <-> proposed !! "seq" = None
      \/ (truthy (proposed !! "remark") = false
          /\ (proposed !! "action" = None
              \/ proposed !! "proto" = None
              \/ proposed !! "src" = None
              \/ proposed !! "dest" = None
              \/ operand_missing (proposed !! "src_port_op")
                   (proposed !! "src_port1") (proposed !! "src_port2") = true
              \/ operand_missing (proposed !! "dest_port_op")
                   (proposed !! "dest_port1") (proposed !! "dest_port2") = true)).
Proof.
  destruct (truthy (proposed !! "remark")) eqn:Hr.
  - unfold config_core_acl. rewrite Hr. cbn [negb].
    destruct (proposed !! "seq") as [seq|].
    + destruct (proposed !! "remark") as [remark|]; [|discriminate].
      cbn [py_add typed_bind]. split; [discriminate|].
      intros [H|[H _]]; discriminate.
    + split; [left; reflexivity|reflexivity].
  - rewrite (config_core_acl_words proposed Hr), py_join_error.
    unfold ace_words. rewrite !in_app_iff, !operand_words_missing.
    cbn [In]. split.
    + intros [[H|[H|[H|[H|[]]]]]|[H|[[H|[]]|H]]]; auto 10.
    + intros [H|[_ [H|[H|[H|[H|[H|H]]]]]]]; auto 10.
Qed.

(** * The options of an access-list entry *)

Lemma str_append_eq_nil (a b : string) :
  String.append a b = EmptyString <-> a = EmptyString /\ b = EmptyString.
Proof.
  destruct a as [|x a].
  - change (String.append EmptyString b) with b. split; [auto|tauto].
  - change (String.append (String x a) b) with (String x (String.append a b)).
    split; [discriminate|]. intros [H _]. discriminate.
Qed.

Lemma option_words_selected (kv : string * string) :
  (selected kv = false /\ option_words kv = EmptyString)
  \/ (selected kv = true
      /\ exists c r, option_words kv = String " "%char (String c r)
                     /\ PyStr.is_space c = false).
Proof.
  destruct kv as [option value]. unfold selected, option_words. cbn [fst snd].
  destruct (str_in option ENABLE_ONLY) eqn:He.
  - destruct (String.eqb value "enable"); [|left; split; reflexivity].
    right. split; [reflexivity|].
    unfold str_in in He. apply existsb_exists in He.
    destruct He as (x & Hx & Heq). apply String.eqb_eq in Heq. subst x.
    cbn [ENABLE_ONLY In] in Hx.
    decompose [or] Hx; subst; try contradiction;
      do 2 eexists; split; reflexivity.
  - destruct (str_in option OTHER) eqn:Ho; [|left; split; reflexivity].
    right. split; [reflexivity|].
    unfold str_in in Ho. apply existsb_exists in Ho.
    destruct Ho as (x & Hx & Heq). apply String.eqb_eq in Heq. subst x.
    cbn [OTHER In] in Hx.
    decompose [or] Hx; subst; try contradiction;
      do 2 eexists; split; reflexivity.
Qed.

Lemma fold_words_acc (l : list (string * string)) :
  forall acc,
    fold_left (fun c kv => String.append c (option_words kv)) l acc
    = String.append acc
        (fold_left (fun c kv => String.append c (option_words kv)) l EmptyString).
Proof.
  induction l as [|kv l IH]; intros acc; cbn [fold_left].
  - symmetry. apply str_append_nil_r.
  - rewrite (IH (String.append acc (option_words kv))).
    rewrite (IH (String.append EmptyString (option_words kv))).
    change (String.append EmptyString (option_words kv)) with (option_words kv).
    apply str_append_assoc.
Qed.

(** The command is empty when no item is selected, and starts with a
    space followed by a character that is no white space otherwise. *)
Lemma fold_words_head (l : list (string * string)) :
  (Forall (fun kv => selected kv = false) l
   /\ fold_left (fun c kv => String.append c (option_words kv)) l EmptyString
      = EmptyString)
  \/ (Exists (fun kv => selected kv = true) l
      /\ exists c r,
           fold_left (fun c kv => String.append c (option_words kv)) l EmptyString
           = String " "%char (String c r)
           /\ PyStr.is_space c = false).
Proof.
  induction l as [|kv l IH]; [left; split; [constructor|reflexivity]|].
  cbn [fold_left]. rewrite fold_words_acc.
  change (String.append EmptyString (option_words kv)) with (option_words kv).
  destruct (option_words_selected kv) as [[Hs Hw]|[Hs (c & r & Hw & Hc)]].
  - rewrite Hw.
    change (String.append EmptyString ?t) with t.
    destruct IH as [[HF He]|[HE Hr]].
    + left. split; [constructor; assumption|exact He].
    + right. split; [apply Exists_cons_tl; exact HE|exact Hr].
  - right. split; [apply Exists_cons_hd; exact Hs|].
    rewrite Hw. eexists c, _. split; [reflexivity|exact Hc].
Qed.

Lemma strip_after_space (c : ascii) (r : string) :
  PyStr.is_space c = false ->
  exists r', PyStr.strip (String " "%char (String c r)) = String c r'.
Proof.
  intros Hc. unfold PyStr.strip.
  assert (Hl : PyStr.lstrip (String " "%char (String c r)) = String c r).
  { cbn [PyStr.lstrip]. change (PyStr.is_space " "%char) with true. cbn iota.
    rewrite Hc. reflexivity. }
  rewrite Hl. apply rstrip_head. exact Hc.
Qed.

Section AclOptionsFacts.

Variable iteritems : gmap string string -> list (string * string).

(** [iteritems] yields every item of the dict once, in some order. *)
Hypothesis iteritems_items :
  forall m : gmap string string, iteritems m ≡ₚ map_to_list m.

Lemma iteritems_lookup (m : gmap string string) (k v : string) :
  In (k, v) (iteritems m) <-> m !! k = Some v.
Proof.
  rewrite <- list_elem_of_In, (iteritems_items m).
  apply elem_of_map_to_list.
Qed.

(** X24.  [config_acl_options] returns [None], not an empty string,
    exactly when the dict, after [time_range] has been renamed, holds no
    flag set to [enable] and none of dscp, precedence and time-range; this
    does not depend on the order in which the dict is walked.  A command
    that is returned is not empty and has no white space at either end. *)
Theorem config_acl_options_none (options : gmap string string) :
  (snd (config_acl_options iteritems options) = None
   <-> forall k v, rename_time_range options !! k = Some v ->
                   selected (k, v) = false)
  /\ forall c, snd (config_acl_options iteritems options) = Some c ->
               c <> EmptyString /\ PyStr.strip c = c.
Proof.
  unfold config_acl_options. cbn [snd].
  destruct (fold_words_head (iteritems (rename_time_range options)))
    as [[HF He]|[HE (c0 & r0 & Hc & Hsp)]].
  - rewrite He. split.
    + split; [|reflexivity]. intros _ k v Hkv.
      rewrite Forall_forall in HF. apply (HF (k, v)).
      apply list_elem_of_In, iteritems_lookup. exact Hkv.
    + intros c H. discriminate.
  - rewrite Hc. split.
    + split; [discriminate|]. intros Hall.
      apply Exists_exists in HE. destruct HE as ([k v] & Hin & Hsel).
      apply list_elem_of_In, iteritems_lookup in Hin.
      rewrite (Hall k v Hin) in Hsel. discriminate.
    + intros c H. inversion H; subst c. clear H.
      split; [|apply strip_idem].
      destruct (strip_after_space c0 r0 Hsp) as [r' Hr]. rewrite Hr.
      discriminate.
Qed.

End AclOptionsFacts.

Lemma config_acl_options_none_witness :
  (snd (config_acl_options map_to_list {["log" := "disable"]}) = None
   <-> forall k v,
         rename_time_range ({["log" := "disable"]} : gmap string string) !! k
         = Some v ->
         selected (k, v) = false)
  /\ forall c,
       snd (config_acl_options map_to_list {["log" := "disable"]}) = Some c ->
       c <> EmptyString /\ PyStr.strip c = c.
Proof.
  apply (config_acl_options_none map_to_list).
  intros m. reflexivity.
Defined.

(** * The lines property *)






